(** * artist_finder: growth, trimming, path extraction and plotting on a
    graph of related artists; artist_info: the artists of the saved albums

    A shallow embedding of [src/artist_finder.py] ([expand], [grow], [trim],
    [paths_subgraph], [plot], [grow_and_plot]) and of the script
    [src/artist_info.py], together with the part of networkx they call.

    - A [networkx.Graph] is its adjacency dictionary [_adj]: a finite map
      from a node to the set of its neighbours ([gmap] / [gset]).
    - Python variables hold references to graph objects; [graph.copy()] and
      [nx.Graph()] allocate a new object.  The object store is a list of
      graphs and a reference is an index into it.
    - [Artist.related()] (module [artist], not part of the two source files)
      is a parameter; every call is recorded in a log of queries.  The
      drawing with matplotlib, the Spotify client and [get_artist] are
      parameters as well.
    - Exceptions and loops that may run forever are made explicit in the
      type [outcome]. *)

From stdpp Require Import gmap strings list fin_maps sorting relations.

#[local] Set Warnings "-clear-no-such-hyp".
#[local] Set Warnings "-notation-for-abbreviation".

(** An artist is identified by its Spotify ID, a string; [Artist(x)] is the
    identity on identifiers that are already resolved. *)
Abbreviation Artist := string (only parsing).

(** ** Exceptions *)

Inductive exn : Type :=
  | RuntimeError (msg : string)   (* raise RuntimeError(msg) *)
  | NetworkXNoPath                (* networkx.NetworkXNoPath *)
  | NodeNotFound                  (* networkx.NodeNotFound *)
  | InvalidReference.             (* a reference that names no object *)

Inductive outcome (A : Type) : Type :=
  | Return (a : A)
  | Raise (e : exn)
  | OutOfFuel.
Arguments Return {A} a.
Arguments Raise {A} e.
Arguments OutOfFuel {A}.

(** ** The part of networkx used by the source *)

Module nx.

Abbreviation Graph := (gmap string (gset string)) (only parsing).
Abbreviation Path := (list string) (only parsing).

(** [nx.Graph()] *)
Definition empty : Graph := ∅.

(** [G.nodes] *)
Definition nodes (G : Graph) : gset Artist := dom G.

(** [G.adj[n]], empty when [n] is not a node *)
Definition adj (G : Graph) (n : Artist) : gset Artist := default ∅ (G !! n).

(** [G.has_edge(u, v)] *)
Definition has_edge (G : Graph) (u v : Artist) : Prop := v ∈ adj G u.

(** [G.degree(n)]: the number of neighbours, a self-loop counting twice *)
Definition degree (G : Graph) (n : Artist) : nat :=
  size (adj G n) + (if bool_decide (n ∈ adj G n) then 1 else 0).

(** [G.add_node(n)]: a node that is already there keeps its neighbours *)
Definition add_node (n : Artist) (G : Graph) : Graph :=
  match G !! n with
  | Some _ => G
  | None => <[n := ∅]> G
  end.

(** [G.add_edge(u, v)]: both ends become nodes if they are not *)
Definition add_edge (u v : Artist) (G : Graph) : Graph :=
  let G := add_node v (add_node u G) in
  alter (λ nbrs, nbrs ∪ {[u]}) v (alter (λ nbrs, nbrs ∪ {[v]}) u G).

(** [G.add_nodes_from(ns)] *)
Definition add_nodes_from (ns : list Artist) (G : Graph) : Graph :=
  foldl (λ G n, add_node n G) G ns.

(** [G.add_edges_from(es)] *)
Definition add_edges_from (es : list (Artist * Artist)) (G : Graph) : Graph :=
  foldl (λ G e, add_edge e.1 e.2 G) G es.

(** One step of [G.remove_nodes_from]: a node that is absent is skipped;
    otherwise its entry is deleted and it is erased from the entries of
    the other nodes (networkx erases it from the entries of its
    neighbours, which are the only ones that mention it). *)
Definition remove_node (n : Artist) (G : Graph) : Graph :=
  match G !! n with
  | None => G
  | Some _ => (λ nbrs, nbrs ∖ {[n]}) <$> delete n G
  end.

(** [G.remove_nodes_from(ns)] *)
Definition remove_nodes_from (ns : list Artist) (G : Graph) : Graph :=
  foldl (λ G n, remove_node n G) G ns.

(** Adjacency is symmetric in every graph networkx builds. *)
Definition wf (G : Graph) : Prop :=
  map_Forall (λ u nbrs, set_Forall (λ v, u ∈ adj G v) nbrs) G.

#[global] Instance wf_dec G : Decision (wf G).
Proof. unfold wf. apply _. Defined.

(** Consecutive entries of [p] are joined by an edge. *)
Fixpoint chain (G : Graph) (p : Path) : Prop :=
  match p with
  | u :: (v :: _) as q => v ∈ adj G u ∧ chain G q
  | _ => True
  end.

(** [p] is a simple path of [G] from [s] to [t]. *)
Definition simple_path (G : Graph) (s t : Artist) (p : Path) : Prop :=
  head p = Some s ∧ last p = Some t ∧ NoDup p ∧
  (∀ v, v ∈ p → v ∈ nodes G) ∧ chain G p.

(** All simple paths from [u] to [t] that avoid [visited], depth first. *)
Fixpoint dfs_paths (fuel : nat) (G : Graph) (visited : gset Artist)
    (u t : Artist) : list Path :=
  if decide (u = t) then [[t]]
  else match fuel with
       | O => []
       | S fuel =>
           elements (adj G u ∖ ({[u]} ∪ visited)) ≫=
             λ v, (u ::.) <$> dfs_paths fuel G ({[u]} ∪ visited) v t
       end.

Definition all_simple_paths (G : Graph) (s t : Artist) : list Path :=
  dfs_paths (size G) G ∅ s t.

Definition shorter (p q : Path) : Prop := List.length p ≤ List.length q.

#[global] Instance shorter_dec p q : Decision (shorter p q).
Proof. unfold shorter. apply _. Defined.

(** [nx.has_path(G, source, target)]: whether some path joins the two
    nodes; [NodeNotFound] when one of them is not in the graph. *)
Definition has_path (G : Graph) (source target : Artist) : outcome bool :=
  if bool_decide (source ∈ nodes G ∧ target ∈ nodes G)
  then Return (bool_decide (all_simple_paths G source target ≠ []))
  else Raise NodeNotFound.

(** [nx.shortest_simple_paths(G, source, target)]: the generator yields
    every simple path from [source] to [target] once, shortest first.
    It raises [NodeNotFound] when an end is not a node and
    [NetworkXNoPath] when no path joins the two; both are raised when the
    first path is asked for, so the whole run is either an exception or the
    finite list of the paths it yields.  The order among paths of equal
    length is that of the depth-first search here; networkx fixes none. *)
Definition shortest_simple_paths (G : Graph) (source target : Artist)
    : outcome (list Path) :=
  if bool_decide (source ∈ nodes G) then
    if bool_decide (target ∈ nodes G) then
      match merge_sort shorter (all_simple_paths G source target) with
      | [] => Raise NetworkXNoPath
      | paths => Return paths
      end
    else Raise NodeNotFound
  else Raise NodeNotFound.

End nx.

(** [itertools.combinations(xs, 2)] *)
Fixpoint combinations2 {A} (xs : list A) : list (A * A) :=
  match xs with
  | [] => []
  | x :: xs => (pair x <$> xs) ++ combinations2 xs
  end.

(** ** The object store and the monad of the embedding *)

(** A reference to a graph object. *)
Abbreviation ref := nat (only parsing).

(** The path table: a Python dict from a pair of seeds to a list of paths. *)
Abbreviation PathTable :=
  (gmap (string * string) (list (list string))) (only parsing).

Record state : Type := State {
  graphs : list nx.Graph;     (* the graph objects, by reference *)
  queries : list Artist       (* the artists whose related() was called *)
}.

Definition M (A : Type) : Type := state → outcome A * state.

#[global] Instance M_ret : MRet M := λ A a σ, (Return a, σ).

#[global] Instance M_bind : MBind M := λ A B f m σ,
  match m σ with
  | (Return a, σ') => f a σ'
  | (Raise e, σ') => (Raise e, σ')
  | (OutOfFuel, σ') => (OutOfFuel, σ')
  end.

Definition raise {A} (e : exn) : M A := λ σ, (Raise e, σ).

Definition out_of_fuel {A} : M A := λ σ, (OutOfFuel, σ).

(** An operation of networkx that may raise. *)
Definition lift {A} (o : outcome A) : M A := λ σ, (o, σ).

(** Allocation of a graph object. *)
Definition alloc (G : nx.Graph) : M ref := λ σ,
  (Return (length (graphs σ)), State (graphs σ ++ [G]) (queries σ)).

(** The graph a reference names. *)
Definition deref (graph : ref) : M nx.Graph := λ σ,
  match graphs σ !! graph with
  | Some G => (Return G, σ)
  | None => (Raise InvalidReference, σ)
  end.

(** A mutating method of the graph object [graph]. *)
Definition mutate (graph : ref) (f : nx.Graph → nx.Graph) : M unit := λ σ,
  match graphs σ !! graph with
  | Some G => (Return tt, State (<[graph := f G]> (graphs σ)) (queries σ))
  | None => (Raise InvalidReference, σ)
  end.

(** [for x in xs: body] *)
Fixpoint for_each {X} (xs : list X) (body : X → M unit) : M unit :=
  match xs with
  | [] => mret tt
  | x :: xs => body x ;; for_each xs body
  end.

(** [all(test(x) for x in xs)], stopping at the first [False] *)
Fixpoint py_all {X} (test : X → M bool) (xs : list X) : M bool :=
  match xs with
  | [] => mret true
  | x :: xs => b ← test x; if b : bool then py_all test xs else mret false
  end.

(** [nx.Graph()] *)
Definition new_graph : M ref := alloc nx.empty.

(** [graph.copy()] *)
Definition copy (graph : ref) : M ref := G ← deref graph; alloc G.

(** [nx.has_path(graph, source, target)] *)
Definition has_path (graph : ref) (source target : Artist) : M bool :=
  G ← deref graph; lift (nx.has_path G source target).

(** [graph.nodes] as a set *)
Definition nodes (graph : ref) : M (gset Artist) :=
  G ← deref graph; mret (nx.nodes G).

(** ** The source: [src/artist_finder.py] *)

Section artist_finder.

(** Modelled from the spec: [Artist.related()], the relation source of
    spec section 6 ([related(entity) -> set of Entity]); the class
    [Artist] is imported from a module that is not among the sources.
    Each call is one query, logged in [queries]. *)
Variable related : Artist → list Artist.

Definition query_related (artist : Artist) : M (list Artist) := λ σ,
  (Return (related artist), State (graphs σ) (queries σ ++ [artist])).

(** [expand(artists, graph=None)], lines 10-37 *)
Definition expand (artists : list Artist) (graph : option ref) : M ref :=
  let artists : gset Artist := list_to_set artists in
  graph ← match graph with
          | None => new_graph
          | Some graph => copy graph
          end;
  mutate graph (nx.add_nodes_from (elements artists)) ;;
  for_each (elements artists) (λ artist,
    rs ← query_related artist;
    mutate graph (nx.add_edges_from (pair artist <$> rs))) ;;
  mret graph.

(** The condition of the [while] of [grow], lines 65-66 *)
Definition seeds_connected (graph : ref) (seeds : gset Artist) : M bool :=
  py_all (λ p, has_path graph p.1 p.2) (combinations2 (elements seeds)).

(** The [while] loop of [grow], lines 65-71; it yields the variables
    [graph] and [new_artists] as they are when the loop is left. *)
Fixpoint grow_loop (fuel : nat) (seeds : gset Artist) (graph : ref)
    (new_artists : gset Artist) : M (ref * gset Artist) :=
  connected ← seeds_connected graph seeds;
  if connected : bool then mret (graph, new_artists)
  else match fuel with
       | O => out_of_fuel
       | S fuel =>
           new_graph ← expand (elements new_artists) (Some graph);
           new_nodes ← nodes new_graph;
           old_nodes ← nodes graph;
           let new_artists := new_nodes ∖ old_nodes in
           let graph := new_graph in
           if decide (new_artists = ∅)
           then raise (RuntimeError "No new artists found.")
           else grow_loop fuel seeds graph new_artists
       end.

(** [grow(seeds, graph=None)], lines 40-78 *)
Definition grow (fuel : nat) (seeds : list Artist) (graph : option ref)
    : M ref :=
  let seeds : gset Artist := list_to_set seeds in
  graph ← match graph with
          | None => new_graph
          | Some graph => copy graph
          end;
  mutate graph (nx.add_nodes_from (elements seeds)) ;;
  let new_artists := seeds in
  '(graph, new_artists) ← grow_loop fuel seeds graph new_artists;
  for_each (elements new_artists) (λ artist,
    rs ← query_related artist;
    for_each rs (λ related,
      present ← nodes graph;
      if decide (related ∈ present)
      then mutate graph (nx.add_edge artist related)
      else mret tt)) ;;
  mret graph.

End artist_finder.

(** The [while True] loop of [trim], lines 97-103 *)
Fixpoint trim_loop (fuel : nat) (graph : ref) (keepers : gset Artist)
    : M unit :=
  match fuel with
  | O => out_of_fuel
  | S fuel =>
      G ← deref graph;
      let to_remove :=
        filter (λ x, nx.degree G x < 2 ∧ x ∉ keepers) (elements (nx.nodes G)) in
      if decide (to_remove = [])
      then mret tt
      else mutate graph (nx.remove_nodes_from to_remove) ;;
           trim_loop fuel graph keepers
  end.

(** [trim(graph, keepers=())], lines 81-105.  Every round but the last
    removes a node, so the loop runs at most once more than the graph has
    nodes: that is the fuel it is given.  It is never used up, and any
    larger fuel gives the same graph ([trim_loop_enough_fuel]). *)
Definition trim (graph : ref) (keepers : gset Artist) : M ref :=
  graph ← copy graph;
  G ← deref graph;
  trim_loop (S (size (nx.nodes G))) graph keepers ;;
  mret graph.

(** [paths[pair].append(path)] *)
Definition append_path (pr : Artist * Artist) (path : nx.Path)
    (paths : PathTable) : PathTable :=
  alter (λ ps, ps ++ [path]) pr paths.

(** The inner [for] of [paths_subgraph], lines 138-146, over the paths the
    generator yields. *)
Fixpoint collect (pr : Artist * Artist) (gen : list nx.Path)
    (pair_max_len : option Z) (paths : PathTable) : PathTable :=
  match gen with
  | [] => paths
  | path :: gen =>
      match pair_max_len with
      | None =>
          let paths := append_path pr path paths in
          let pair_max_len :=
            Z.of_nat (List.length (default [] (paths !! pr ≫= last))) in
          collect pr gen (Some pair_max_len) paths
      | Some m =>
          if decide (Z.of_nat (List.length path) ≤ m)%Z
          then collect pr gen pair_max_len (append_path pr path paths)
          else paths
      end
  end.

(** The outer [for] of [paths_subgraph], lines 135-146 *)
Fixpoint collect_pairs (graph : ref) (pairs : list (Artist * Artist))
    (max_len : option Z) (paths : PathTable) : M PathTable :=
  match pairs with
  | [] => mret paths
  | pr :: pairs =>
      let paths := <[pr := []]> paths in
      let pair_max_len := max_len in
      G ← deref graph;
      gen ← lift (nx.shortest_simple_paths G pr.1 pr.2);
      collect_pairs graph pairs max_len (collect pr gen pair_max_len paths)
  end.

(** The set [keepers] of lines 148-152 *)
Definition path_nodes (paths : PathTable) : gset Artist :=
  ⋃ ((λ entry, ⋃ (list_to_set <$> entry.2)) <$> map_to_list paths).

(** [paths_subgraph(graph, seeds, max_len=None)], lines 108-156 *)
Definition paths_subgraph (graph : ref) (seeds : list Artist)
    (max_len : option Z) : M (ref * PathTable) :=
  graph ← copy graph;
  paths ← collect_pairs graph (combinations2 seeds) max_len ∅;
  let keepers := path_nodes paths in
  present ← nodes graph;
  mutate graph (nx.remove_nodes_from (elements (present ∖ keepers))) ;;
  mret (graph, paths).

(** ** Value-level view of the loops

    The same loops on graph values instead of references; the refinement
    lemmas below relate them to the code above. *)

(** The list [to_remove] of line 98 *)
Definition leaves (G : nx.Graph) (keepers : gset Artist) : list Artist :=
  filter (λ x, nx.degree G x < 2 ∧ x ∉ keepers) (elements (nx.nodes G)).

Fixpoint trim_graph (fuel : nat) (G : nx.Graph) (keepers : gset Artist)
    : outcome unit * nx.Graph :=
  match fuel with
  | O => (OutOfFuel, G)
  | S fuel =>
      if decide (leaves G keepers = []) then (Return tt, G)
      else trim_graph fuel (nx.remove_nodes_from (leaves G keepers) G) keepers
  end.

Definition trimmed (G : nx.Graph) (keepers : gset Artist) : nx.Graph :=
  (trim_graph (S (size (nx.nodes G))) G keepers).2.

(** The paths the inner [for] of [paths_subgraph] keeps of those yielded
    shortest first: with a bound, those within the bound; without, those
    as short as the first. *)
Definition kept (max_len : option Z) (gen : list nx.Path) : list nx.Path :=
  match max_len with
  | Some m => filter (λ p, (Z.of_nat (length p) ≤ m)%Z) gen
  | None =>
      match gen with
      | [] => []
      | p0 :: _ =>
          filter (λ p, (Z.of_nat (length p) ≤ Z.of_nat (length p0))%Z) gen
      end
  end.

(** What the generator yields for a pair, nothing when it raises. *)
Definition yielded (G : nx.Graph) (pr : Artist * Artist) : list nx.Path :=
  match nx.shortest_simple_paths G pr.1 pr.2 with
  | Return gen => gen
  | _ => []
  end.

Fixpoint collect_pairs_graph (G : nx.Graph) (pairs : list (Artist * Artist))
    (max_len : option Z) (paths : PathTable) : outcome PathTable :=
  match pairs with
  | [] => Return paths
  | pr :: pairs =>
      match nx.shortest_simple_paths G pr.1 pr.2 with
      | Return gen =>
          collect_pairs_graph G pairs max_len
            (collect pr gen max_len (<[pr := []]> paths))
      | Raise e => Raise e
      | OutOfFuel => OutOfFuel
      end
  end.

(** The graph [paths_subgraph] returns with the table [paths]. *)
Definition reduced (G : nx.Graph) (paths : PathTable) : nx.Graph :=
  nx.remove_nodes_from (elements (nx.nodes G ∖ path_nodes paths)) G.

(** The graph [expand] and [grow] start from: empty when [graph] is
    [None], else the one [graph] names among the objects [gs]. *)
Definition base_graph (gs : list nx.Graph) (graph : option ref)
    (G : nx.Graph) : Prop :=
  match graph with
  | None => G = nx.empty
  | Some l => gs !! l = Some G
  end.

(** Line 54: [seeds = {Artist(seed) for seed in seeds}] *)
Definition seed_set (seeds : list Artist) : gset Artist := list_to_set seeds.

(** [all(nx.has_path(G, source, target) for ...)], lines 65-66 *)
Fixpoint all_has_path (G : nx.Graph) (pairs : list (Artist * Artist))
    : outcome bool :=
  match pairs with
  | [] => Return true
  | pr :: pairs =>
      match nx.has_path G pr.1 pr.2 with
      | Return true => all_has_path G pairs
      | other => other
      end
  end.

(** What a run of the [while] loop of [grow] leaves behind: how it ended
    (with the last value of [new_artists]), the graphs it abandoned, the
    graph [graph] names at the end, and the artists it queried. *)
Record trace : Type := Trace {
  ending : outcome (gset Artist);
  abandoned : list nx.Graph;
  current : nx.Graph;
  asked : list Artist
}.

Section value_level.
Variable related : Artist → list Artist.

(** The graph [expand] builds from a copy [G] of its argument *)
Definition expand_graph (artists : gset Artist) (G : nx.Graph) : nx.Graph :=
  foldl (λ G artist, nx.add_edges_from (pair artist <$> related artist) G)
    (nx.add_nodes_from (elements artists) G) (elements artists).

Fixpoint grow_loop_graph (fuel : nat) (seeds : gset Artist) (G : nx.Graph)
    (new_artists : gset Artist) : trace :=
  match all_has_path G (combinations2 (elements seeds)) with
  | Return true => Trace (Return new_artists) [] G []
  | Return false =>
      match fuel with
      | O => Trace OutOfFuel [] G []
      | S fuel =>
          let G' := expand_graph new_artists G in
          let new_artists' := nx.nodes G' ∖ nx.nodes G in
          if decide (new_artists' = ∅)
          then Trace (Raise (RuntimeError "No new artists found.")) [G] G'
                 (elements new_artists)
          else
            let t := grow_loop_graph fuel seeds G' new_artists' in
            Trace (ending t) (G :: abandoned t) (current t)
              (elements new_artists ++ asked t)
      end
  | Raise e => Trace (Raise e) [] G []
  | OutOfFuel => Trace OutOfFuel [] G []
  end.

(** Lines 75-76: the edge to a related artist that is already a node *)
Definition link (artist related_artist : Artist) (G : nx.Graph) : nx.Graph :=
  if decide (related_artist ∈ nx.nodes G)
  then nx.add_edge artist related_artist G
  else G.

(** The finishing pass of [grow], lines 73-76 *)
Definition interconnect (new_artists : gset Artist) (G : nx.Graph)
    : nx.Graph :=
  foldl (λ G artist, foldl (λ G r, link artist r G) G (related artist))
    G (elements new_artists).

(** The edges the finishing pass adds: between an artist of
    [new_artists] and a related artist that is a node of [G]. *)
Definition shortcut (new_artists : gset Artist) (G : nx.Graph)
    (u v : Artist) : Prop :=
  ∃ artist r, artist ∈ new_artists ∧ r ∈ related artist ∧ r ∈ nx.nodes G ∧
    ((u = artist ∧ v = r) ∨ (u = r ∧ v = artist)).

End value_level.

(** An operation leaves the graphs that exist when it is called as they
    are, and the graph it returns is a new one. *)
Definition does_not_mutate {A} (result_graph : A → ref) (m : M A) : Prop :=
  ∀ σ,
    (∀ l G, graphs σ !! l = Some G → graphs (m σ).2 !! l = Some G) ∧
    (∀ a, (m σ).1 = Return a →
       graphs σ !! result_graph a = None ∧
       is_Some (graphs (m σ).2 !! result_graph a)).

(** ** Scenarios *)

(** The relation source [a -> {x}, x -> {b}, b -> {}] *)
Definition related_chain (artist : Artist) : list Artist :=
  if decide (artist = "a"%string) then ["x"%string]
  else if decide (artist = "x"%string) then ["b"%string]
  else [].

(** The relation source [a -> {b}, b -> {}] *)
Definition related_direct (artist : Artist) : list Artist :=
  if decide (artist = "a"%string) then ["b"%string] else [].

(** The graph [a - x - b] *)
Definition chain_graph : nx.Graph :=
  nx.add_edges_from [("a", "x"); ("x", "b")]%string nx.empty.

(** The nodes [a] and [b], no edge *)
Definition two_nodes : nx.Graph :=
  nx.add_nodes_from ["a"; "b"]%string nx.empty.

(** The graph [a - b] *)
Definition one_edge : nx.Graph := nx.add_edge "a"%string "b"%string nx.empty.

(** Two paths of three nodes from [a] to [b], through [x] and through [y],
    and a longer one through [u] and [v] *)
Definition diamond : nx.Graph :=
  nx.add_edges_from
    [("a", "x"); ("x", "b"); ("a", "y"); ("y", "b");
     ("a", "u"); ("u", "v"); ("v", "b")]%string nx.empty.

(** ** [plot] and [grow_and_plot]

    [plot] is embedded up to the colours of the nodes (lines 201-231).
    The drawing with matplotlib (lines 233-265) is a parameter. *)

(** The exceptions that the statements of [plot] can raise by themselves;
    they are the left summand of its result, the exceptions of the graph
    operations are those of [M]. *)
Inductive plot_error : Type :=
  | ValueError (msg : string)   (* line 204; min() and max() of nothing *)
  | KeyError (key : Artist)     (* d[key] for a key that d does not hold *)
  | NetworkXError               (* the neighbours of a node not in the graph *)
  | ZeroDivisionError.          (* n / 0 *)

(** A colour: a number from 0, for [near_color], to 1, for [far_color] *)
Abbreviation Color := QArith_base.Q (only parsing).

(** Sequencing up to the first exception *)
Definition and_then {A B} (m : plot_error + A) (f : A → plot_error + B)
    : plot_error + B :=
  match m with
  | inl error => inl error
  | inr a => f a
  end.

(** [for x in xs: acc = body(acc, x)] *)
Fixpoint for_fold {A X} (body : A → X → plot_error + A) (acc : A)
    (xs : list X) : plot_error + A :=
  match xs with
  | [] => inr acc
  | x :: xs => and_then (body acc x) (λ acc, for_fold body acc xs)
  end.

(** [min(xs)]; the message is that of CPython up to 3.11 *)
Definition py_min (xs : list nat) : plot_error + nat :=
  match xs with
  | [] => inl (ValueError "min() arg is an empty sequence")
  | x :: xs => inr (foldl Nat.min x xs)
  end.

(** [max(xs)]; the message is that of CPython up to 3.11 *)
Definition py_max (xs : list nat) : plot_error + nat :=
  match xs with
  | [] => inl (ValueError "max() arg is an empty sequence")
  | x :: xs => inr (foldl Nat.max x xs)
  end.

(** [n / m] on integers; the float of Python is the exact quotient here *)
Definition true_div (n m : nat) : plot_error + Color :=
  if decide (m = 0) then inl ZeroDivisionError
  else inr (QArith_base.Qmake (Z.of_nat n) (Pos.of_nat m)).

(** One neighbour [child] of [parent] in a breadth-first search: a node
    not seen before is seen now, joins the next level, and is reported with
    its predecessor. *)
Definition bfs_child (parent : Artist)
    (acc : gset Artist * list Artist * list (Artist * Artist))
    (child : Artist) : gset Artist * list Artist * list (Artist * Artist) :=
  let '(seen, next, found) := acc in
  if decide (child ∈ seen) then acc
  else (seen ∪ {[child]}, next ++ [child], found ++ [(child, parent)]).

(** One level of the search: the neighbours of each parent in turn *)
Definition bfs_level (G : nx.Graph) (seen : gset Artist)
    (parents : list Artist)
    : gset Artist * list Artist * list (Artist * Artist) :=
  foldl (λ acc parent,
           foldl (bfs_child parent) acc (elements (nx.adj G parent)))
        (seen, [], []) parents.

(** The levels of the search, down to [depth_limit] *)
Fixpoint bfs_levels (depth_limit : nat) (G : nx.Graph) (seen : gset Artist)
    (parents : list Artist) : list (Artist * Artist) :=
  match depth_limit with
  | O => []
  | S depth_limit =>
      match parents with
      | [] => []
      | _ =>
          let '(seen, next, found) := bfs_level G seen parents in
          found ++ bfs_levels depth_limit G seen next
      end
  end.

(** [nx.bfs_predecessors(G, source)]: the pairs [(node, predecessor)] of a
    breadth-first search from [source], in the order in which the search
    finds the nodes; the depth limit of networkx is [len(G)].  Asking for
    the neighbours of a [source] that is not in the graph raises. *)
Definition bfs_predecessors (G : nx.Graph) (source : Artist)
    : plot_error + list (Artist * Artist) :=
  if decide (source ∈ nx.nodes G)
  then inr (bfs_levels (size G) G {[source]} [source])
  else inl NetworkXError.

(** Line 219: [dists[i][artist] = dists[i][pre] + 1] *)
Definition one_more (d : gmap Artist nat) (found : Artist * Artist)
    : plot_error + gmap Artist nat :=
  let '(artist, pre) := found in
  match d !! pre with
  | Some n => inr (<[artist := n + 1]> d)
  | None => inl (KeyError pre)
  end.

(** Lines 213-219 for one seed: [dists[i]], which starts as
    [{artist_id: 0}] and is filled from the generator [pres[i]] *)
Definition distances (G : nx.Graph) (artist_id : Artist)
    : plot_error + gmap Artist nat :=
  and_then (bfs_predecessors G artist_id) (λ pres,
  for_fold one_more {[artist_id := 0]} pres).

(** Lines 221-223: [dist[artist_id] = min(map(lambda d: d.get(artist_id, 1),
    dists))] *)
Definition nearest (dists : list (gmap Artist nat))
    (dist : gmap Artist nat) (artist_id : Artist)
    : plot_error + gmap Artist nat :=
  and_then (py_min ((λ d, default 1 (d !! artist_id)) <$> dists)) (λ m,
  inr (<[artist_id := m]> dist)).

(** Lines 225-227: [if artist_id not in dist: dist[artist_id] = 1] *)
Definition far (dist : gmap Artist nat) (artist_id : Artist)
    : gmap Artist nat :=
  match dist !! artist_id with
  | Some _ => dist
  | None => <[artist_id := 1]> dist
  end.

(** Lines 206-227: the dictionary [dist]; [connected] is the condition of
    line 208 *)
Definition distance_table (G : nx.Graph) (seeds : gset Artist)
    (connected : bool) : plot_error + gmap Artist nat :=
  let dist : gmap Artist nat := gset_to_gmap 0 seeds in
  and_then
    (if connected then
       and_then
         (for_fold (λ dists artist_id,
                      and_then (distances G artist_id) (λ d,
                      inr (dists ++ [d])))
                   [] (elements seeds)) (λ dists,
       for_fold (nearest dists) dist (elements (nx.nodes G)))
     else inr dist) (λ dist,
  inr (foldl far dist (elements (nx.nodes G)))).

(** Line 231: [color[k] = dist[k] / max_dist] *)
Definition shade (dist : gmap Artist nat) (max_dist : nat)
    (color : gmap Artist Color) (k : Artist)
    : plot_error + gmap Artist Color :=
  match dist !! k with
  | Some d => and_then (true_div d max_dist) (λ c, inr (<[k := c]> color))
  | None => inl (KeyError k)
  end.

(** Lines 206-231: the dictionary [color] *)
Definition colors (G : nx.Graph) (seeds : gset Artist) (connected : bool)
    : plot_error + gmap Artist Color :=
  and_then (distance_table G seeds connected) (λ dist,
  and_then (py_max ((map_to_list dist).*2)) (λ m,
  let max_dist := Nat.max m 1 in
  for_fold (shade dist max_dist) ∅ (elements (nx.nodes G)))).

(** Lines 203-231 of [plot], on the set [seeds] of line 201: the guard and
    the colours of the nodes *)
Definition plot_colors (graph : ref) (seeds : gset Artist)
    : M (plot_error + gmap Artist Color) :=
  present ← nodes graph;
  if decide (seeds ∖ present = ∅)
  then connected ← (if decide (seeds = ∅) then mret false
                    else seeds_connected graph seeds);
       G ← deref graph;
       mret (colors G seeds connected)
  else mret (inl (ValueError "Not all seeds are in graph.")).

Section plotting.
Variable related : Artist → list Artist.

(** What matplotlib draws: the pair [(fig, ax)] *)
Variable Figure : Type.

(** Lines 233-265 of [plot], on the graph, the seeds and the colours *)
Variable draw :
  nx.Graph → gset Artist → gmap Artist Color → outcome Figure.

(** [plot(graph, seeds=())], lines 159-265 *)
Definition plot (graph : ref) (seeds : list Artist)
    : M (plot_error + Figure) :=
  let seeds : gset Artist := list_to_set seeds in
  colored ← plot_colors graph seeds;
  match colored with
  | inl error => mret (inl error)
  | inr color =>
      G ← deref graph;
      fig ← lift (draw G seeds color);
      mret (inr fig)
  end.

(** [grow_and_plot], lines 268-296, on the seeds and [graph]; the set
    [seeds] of line 290 is handed to the four operations. *)
Definition grow_and_plot (fuel : nat) (seeds : list Artist)
    (graph : option ref) : M (plot_error + ref * Figure) :=
  let seeds : gset Artist := list_to_set seeds in
  graph ← grow related fuel (elements seeds) graph;
  graph ← trim graph seeds;
  '(graph, _) ← paths_subgraph graph (elements seeds) None;
  plotted ← plot graph (elements seeds);
  mret (match plotted with
        | inl error => inl error
        | inr fig => inr (graph, fig)
        end).

End plotting.

(** ** [src/artist_info.py]

    The script collects the artists of the albums the user has saved, page
    by page.  The Spotify client and [artists.get_artist] are parameters. *)

Section artist_info.

(** [sp.current_user_saved_albums(limit=..., offset=...)["items"]], each
    item given by the ids [artist["id"]] of [item["album"]["artists"]] *)
Variable current_user_saved_albums : nat → nat → list (list string).

(** [get_artist], imported from a module that is not among the sources *)
Variable get_artist : string → Artist.

(** Lines 17-19: [saved |= {...}] for every item of a page *)
Definition add_items (saved : gset Artist) (items : list (list string))
    : gset Artist :=
  foldl (λ saved item, saved ∪ list_to_set (get_artist <$> item)) saved items.

(** The [while True] loop of lines 12-24; it yields [saved] and [offset]. *)
Fixpoint saved_loop (fuel : nat) (saved : gset Artist) (offset : nat)
    : outcome (gset Artist * nat) :=
  match fuel with
  | O => OutOfFuel
  | S fuel =>
      let items := current_user_saved_albums 50 offset in
      let saved := add_items saved items in
      let offset := offset + length items in
      if decide (length items = 0) then Return (saved, offset)
      else saved_loop fuel saved offset
  end.

(** The script, lines 8-24 *)
Definition artist_info (fuel : nat) : outcome (gset Artist * nat) :=
  saved_loop fuel ∅ 0.

End artist_info.

(** A service that holds the list [albums] and answers a request with the
    items from [offset] on, at most [limit] of them. *)
Definition serves (albums : list (list string))
    (page : nat → nat → list (list string)) : Prop :=
  ∀ limit offset, page limit offset = take limit (drop offset albums).

(** ** Notions used in the further properties *)

(** All graphs of the store have symmetric adjacency. *)
Definition store_wf (σ : state) : Prop := Forall nx.wf (graphs σ).

(** [G'] has the nodes [G'] has and, between them, the edges of [G]. *)
Definition induced_subgraph (G' G : nx.Graph) : Prop :=
  nx.nodes G' ⊆ nx.nodes G ∧
  ∀ u v, nx.has_edge G' u v ↔
    nx.has_edge G u v ∧ u ∈ nx.nodes G' ∧ v ∈ nx.nodes G'.

(** The degree of [x] in the subgraph of [G] induced by [S] *)
Definition degree_within (G : nx.Graph) (S : gset Artist) (x : Artist) : nat :=
  size (nx.adj G x ∩ S) + (if bool_decide (x ∈ nx.adj G x) then 1 else 0).

(** [p] is a simple path from [s] to [t] and no simple path between them
    has fewer nodes. *)
Definition shortest_path (G : nx.Graph) (s t : Artist) (p : nx.Path) : Prop :=
  nx.simple_path G s t p ∧
  ∀ q, nx.simple_path G s t q → length p ≤ length q.

(** [v] is reached from [s] in [n] steps along edges, or in fewer. *)
Fixpoint within (G : nx.Graph) (s : Artist) (n : nat) (v : Artist) : Prop :=
  match n with
  | O => v = s
  | S n => within G s n v ∨ ∃ u, within G s n u ∧ v ∈ nx.adj G u
  end.

(** [v] is [n] steps away from [s], and no less. *)
Definition hops (G : nx.Graph) (s v : Artist) (n : nat) : Prop :=
  within G s n v ∧ ∀ m, within G s m v → n ≤ m.

(** The relation source [a -> {x}, b -> {x}, x -> {}] *)
Definition related_meet (artist : Artist) : list Artist :=
  if decide (artist = "a"%string) then ["x"%string]
  else if decide (artist = "b"%string) then ["x"%string]
  else [].

(** A triangle [a - b - c - a] with a pendant node [d] on [a] *)
Definition triangle_tail : nx.Graph :=
  nx.add_edges_from
    [("a", "b"); ("b", "c"); ("c", "a"); ("a", "d")]%string nx.empty.

(** * Facts about the graph operations *)

Section graph_facts.
Implicit Types (G : gmap string (gset string)) (u v n : string).

Lemma adj_lookup G n nbrs : G !! n = Some nbrs → nx.adj G n = nbrs.
Proof. unfold nx.adj. by intros ->. Qed.

Lemma adj_not_node G n : n ∉ nx.nodes G → nx.adj G n = ∅.
Proof.
  unfold nx.adj, nx.nodes. intros Hn.
  apply not_elem_of_dom in Hn. by rewrite Hn.
Qed.

Lemma adj_elem_node G u v : v ∈ nx.adj G u → u ∈ nx.nodes G.
Proof.
  intros Hv. destruct (decide (u ∈ nx.nodes G)) as [|Hu]; [done|].
  rewrite (adj_not_node _ _ Hu) in Hv. set_solver.
Qed.

Lemma nodes_add_node n G : nx.nodes (nx.add_node n G) = {[n]} ∪ nx.nodes G.
Proof.
  unfold nx.nodes, nx.add_node. destruct (G !! n) eqn:E.
  - apply (elem_of_dom_2 (D := gset string)) in E. set_solver.
  - by rewrite dom_insert_L.
Qed.

Lemma adj_add_node n G u : nx.adj (nx.add_node n G) u = nx.adj G u.
Proof.
  unfold nx.adj, nx.add_node. destruct (G !! n) eqn:E; [done|].
  destruct (decide (n = u)) as [->|Hne].
  - by rewrite lookup_insert_eq, E.
  - by rewrite lookup_insert_ne.
Qed.

Lemma nodes_add_edge u v G :
  nx.nodes (nx.add_edge u v G) = {[u; v]} ∪ nx.nodes G.
Proof.
  unfold nx.add_edge, nx.nodes. rewrite !dom_alter_L.
  fold (nx.nodes (nx.add_node v (nx.add_node u G))).
  rewrite !nodes_add_node. set_solver.
Qed.

Lemma adj_add_edge u v G w :
  nx.adj (nx.add_edge u v G) w =
    nx.adj G w ∪ (if decide (w = u) then {[v]} else ∅)
               ∪ (if decide (w = v) then {[u]} else ∅).
Proof.
  assert (Hin : ∀ x, x ∈ nx.nodes (nx.add_node v (nx.add_node u G)) →
            nx.add_node v (nx.add_node u G) !! x = Some (nx.adj G x)).
  { intros x. unfold nx.nodes. rewrite elem_of_dom. intros [nbrs Hx].
    rewrite Hx. f_equal. apply adj_lookup in Hx.
    by rewrite !adj_add_node in Hx. }
  unfold nx.add_edge, nx.adj at 1.
  destruct (decide (w = v)) as [->|Hwv].
  - rewrite lookup_alter_eq. destruct (decide (v = u)) as [->|Hvu].
    + rewrite lookup_alter_eq, Hin by (rewrite !nodes_add_node; set_solver).
      simpl. done.
    + rewrite lookup_alter_ne, Hin by (done || rewrite !nodes_add_node; set_solver).
      simpl. by rewrite union_empty_r_L.
  - rewrite lookup_alter_ne by done. destruct (decide (w = u)) as [->|Hwu].
    + rewrite lookup_alter_eq, Hin by (rewrite !nodes_add_node; set_solver).
      simpl. by rewrite union_empty_r_L.
    + rewrite lookup_alter_ne by done.
      fold (nx.adj (nx.add_node v (nx.add_node u G)) w).
      by rewrite !adj_add_node, !union_empty_r_L.
Qed.

Lemma nodes_add_nodes_from ns G :
  nx.nodes (nx.add_nodes_from ns G) = list_to_set ns ∪ nx.nodes G.
Proof.
  unfold nx.add_nodes_from. revert G.
  induction ns as [|n ns IH]; intros G; simpl; [set_solver|].
  rewrite IH, nodes_add_node. set_solver.
Qed.

Lemma adj_add_nodes_from ns G u :
  nx.adj (nx.add_nodes_from ns G) u = nx.adj G u.
Proof.
  unfold nx.add_nodes_from. revert G.
  induction ns as [|n ns IH]; intros G; simpl; [done|].
  by rewrite IH, adj_add_node.
Qed.

(** A graph is determined by its nodes and their neighbours. *)
Lemma graph_eq G1 G2 :
  nx.nodes G1 = nx.nodes G2 → (∀ u, nx.adj G1 u = nx.adj G2 u) → G1 = G2.
Proof.
  intros Hn Ha. apply map_eq. intros u.
  specialize (Ha u). unfold nx.adj in Ha.
  destruct (G1 !! u) as [a1|] eqn:E1, (G2 !! u) as [a2|] eqn:E2;
    simpl in Ha; [by subst|..|done].
  - apply (elem_of_dom_2 (D := gset string)) in E1.
    apply (not_elem_of_dom (D := gset string)) in E2.
    unfold nx.nodes in Hn. congruence.
  - apply (elem_of_dom_2 (D := gset string)) in E2.
    apply (not_elem_of_dom (D := gset string)) in E1.
    unfold nx.nodes in Hn. congruence.
Qed.

Lemma lookup_remove_node n G u :
  n ∈ nx.nodes G →
  nx.remove_node n G !! u =
    if decide (u = n) then None else (λ nbrs, nbrs ∖ {[n]}) <$> G !! u.
Proof.
  unfold nx.nodes, nx.remove_node. rewrite elem_of_dom. intros [x ->].
  rewrite lookup_fmap. case_decide; subst.
  - by rewrite lookup_delete_eq.
  - by rewrite lookup_delete_ne.
Qed.

Lemma nodes_remove_node n G :
  nx.nodes (nx.remove_node n G) = nx.nodes G ∖ {[n]}.
Proof.
  unfold nx.nodes, nx.remove_node. destruct (G !! n) eqn:E.
  - by rewrite dom_fmap_L, dom_delete_L.
  - apply (not_elem_of_dom (D := gset string)) in E. set_solver.
Qed.

Lemma lookup_remove_nodes_from ns G u :
  NoDup ns → (∀ n, n ∈ ns → n ∈ nx.nodes G) →
  nx.remove_nodes_from ns G !! u =
    if decide (u ∈ ns) then None
    else (λ nbrs, nbrs ∖ list_to_set ns) <$> G !! u.
Proof.
  unfold nx.remove_nodes_from. intros Hnd. revert G.
  induction Hnd as [|n ns Hn Hnd IH]; intros G Hin; simpl.
  - destruct (G !! u) as [x|]; simpl; [f_equal; set_solver|done].
  - rewrite IH.
    + rewrite lookup_remove_node by (apply Hin; left).
      destruct (decide (u = n)) as [->|Hne].
      * rewrite (decide_True (P := n ∈ n :: ns)) by left. by case_decide.
      * destruct (decide (u ∈ ns)) as [Hu|Hu].
        -- by rewrite (decide_True (P := u ∈ n :: ns)) by (by right).
        -- rewrite (decide_False (P := u ∈ n :: ns))
             by (intros [?|?]%elem_of_cons; done).
           destruct (G !! u) as [x|]; simpl; [|done].
           f_equal. apply set_eq. intros y.
           rewrite !elem_of_difference, elem_of_union, elem_of_singleton.
           rewrite elem_of_list_to_set. tauto.
    + intros m Hm. rewrite nodes_remove_node.
      apply elem_of_difference. split; [apply Hin; by right|].
      rewrite elem_of_singleton. intros ->. done.
Qed.

Lemma nodes_remove_nodes_from ns G :
  nx.nodes (nx.remove_nodes_from ns G) = nx.nodes G ∖ list_to_set ns.
Proof.
  unfold nx.remove_nodes_from. revert G.
  induction ns as [|n ns IH]; intros G; simpl; [set_solver|].
  rewrite IH, nodes_remove_node. set_solver.
Qed.

Lemma adj_remove_nodes_from ns G u :
  NoDup ns → (∀ n, n ∈ ns → n ∈ nx.nodes G) → u ∉ ns →
  nx.adj (nx.remove_nodes_from ns G) u = nx.adj G u ∖ list_to_set ns.
Proof.
  intros Hnd Hin Hu. unfold nx.adj.
  rewrite lookup_remove_nodes_from, decide_False by done.
  destruct (G !! u); simpl; set_solver.
Qed.

(** Well-formedness is symmetry of adjacency. *)
Lemma wf_iff G : nx.wf G ↔ ∀ u v, v ∈ nx.adj G u → u ∈ nx.adj G v.
Proof.
  split.
  - intros Hwf u v Hv. pose proof (adj_elem_node _ _ _ Hv) as Hu.
    unfold nx.nodes in Hu. apply elem_of_dom in Hu as [nbrs Hu].
    rewrite (adj_lookup _ _ _ Hu) in Hv. by apply (Hwf u nbrs Hu v).
  - intros Hsym u nbrs Hu v Hv. apply Hsym.
    by rewrite (adj_lookup _ _ _ Hu).
Qed.

Lemma wf_sym G u v : nx.wf G → v ∈ nx.adj G u → u ∈ nx.adj G v.
Proof. rewrite wf_iff. auto. Qed.

Lemma wf_empty : nx.wf nx.empty.
Proof. apply wf_iff. intros u v. unfold nx.adj, nx.empty. set_solver. Qed.

Lemma wf_add_node n G : nx.wf G → nx.wf (nx.add_node n G).
Proof.
  rewrite !wf_iff. intros Hsym u v. rewrite !adj_add_node. apply Hsym.
Qed.

Lemma wf_add_edge a b G : nx.wf G → nx.wf (nx.add_edge a b G).
Proof.
  rewrite !wf_iff. intros Hsym u v. rewrite !adj_add_edge.
  rewrite !elem_of_union. intros [[Hv|Hv]|Hv].
  - left. left. by apply Hsym.
  - destruct (decide (u = a)) as [->|]; [|set_solver].
    apply elem_of_singleton in Hv as ->. right.
    rewrite decide_True by done. set_solver.
  - destruct (decide (u = b)) as [->|]; [|set_solver].
    apply elem_of_singleton in Hv as ->. left. right.
    rewrite decide_True by done. set_solver.
Qed.

Lemma wf_add_nodes_from ns G : nx.wf G → nx.wf (nx.add_nodes_from ns G).
Proof.
  unfold nx.add_nodes_from. revert G.
  induction ns as [|n ns IH]; intros G Hwf; simpl; [done|].
  by apply IH, wf_add_node.
Qed.

Lemma wf_add_edges_from es G : nx.wf G → nx.wf (nx.add_edges_from es G).
Proof.
  unfold nx.add_edges_from. revert G.
  induction es as [|e es IH]; intros G Hwf; simpl; [done|].
  by apply IH, wf_add_edge.
Qed.

Lemma adj_remove_node n G u :
  n ∈ nx.nodes G →
  nx.adj (nx.remove_node n G) u =
    if decide (u = n) then ∅ else nx.adj G u ∖ {[n]}.
Proof.
  intros Hn. unfold nx.adj. rewrite lookup_remove_node by done.
  case_decide; [done|]. destruct (G !! u); simpl; [done|set_solver].
Qed.

Lemma wf_remove_node n G : nx.wf G → nx.wf (nx.remove_node n G).
Proof.
  destruct (decide (n ∈ nx.nodes G)) as [Hn|Hn].
  - rewrite !wf_iff. intros Hsym u v. rewrite !adj_remove_node by done.
    destruct (decide (u = n)) as [->|Hu], (decide (v = n)) as [->|Hv];
      rewrite ?elem_of_difference, ?elem_of_singleton; set_solver.
  - unfold nx.nodes in Hn. apply not_elem_of_dom in Hn.
    unfold nx.remove_node. by rewrite Hn.
Qed.

Lemma wf_remove_nodes_from ns G :
  nx.wf G → nx.wf (nx.remove_nodes_from ns G).
Proof.
  unfold nx.remove_nodes_from. revert G.
  induction ns as [|n ns IH]; intros G Hwf; simpl; [done|].
  by apply IH, wf_remove_node.
Qed.

End graph_facts.

(** * Facts about the object store *)

Section store_facts.
Implicit Types (G : gmap string (gset string)) (qs : list string).
Implicit Types (gs : list (gmap string (gset string))).

Lemma bind_run {A B} (m : M A) (f : A → M B) σ :
  (m ≫= f) σ =
    match m σ with
    | (Return a, σ') => f a σ'
    | (Raise e, σ') => (Raise e, σ')
    | (OutOfFuel, σ') => (OutOfFuel, σ')
    end.
Proof. reflexivity. Qed.

Lemma deref_run gs qs l G :
  gs !! l = Some G → deref l (State gs qs) = (Return G, State gs qs).
Proof. unfold deref. simpl. by intros ->. Qed.

Lemma deref_last gs G qs :
  deref (length gs) (State (gs ++ [G]) qs) = (Return G, State (gs ++ [G]) qs).
Proof. apply deref_run. by rewrite list_lookup_middle. Qed.

Lemma mutate_last gs G qs f :
  mutate (length gs) f (State (gs ++ [G]) qs) =
    (Return tt, State (gs ++ [f G]) qs).
Proof.
  unfold mutate. simpl. rewrite list_lookup_middle by done.
  do 2 f_equal. replace (length gs) with (length gs + 0) at 1 by lia.
  by rewrite insert_app_r.
Qed.

Lemma nodes_last gs G qs :
  nodes (length gs) (State (gs ++ [G]) qs) =
    (Return (nx.nodes G), State (gs ++ [G]) qs).
Proof. unfold nodes. by rewrite bind_run, deref_last. Qed.

Lemma copy_run gs qs l G :
  gs !! l = Some G →
  copy l (State gs qs) = (Return (length gs), State (gs ++ [G]) qs).
Proof. intros Hl. unfold copy. by rewrite bind_run, (deref_run _ _ _ G). Qed.

Lemma copy_invalid gs qs l :
  gs !! l = None → copy l (State gs qs) = (Raise InvalidReference, State gs qs).
Proof. intros Hl. unfold copy, deref. rewrite bind_run. simpl. by rewrite Hl. Qed.

(** A loop whose body is one mutation of the newest graph. *)
Lemma for_each_mutate_last {X} (f : X → nx.Graph → nx.Graph) xs gs G qs :
  for_each xs (λ x, mutate (length gs) (f x)) (State (gs ++ [G]) qs) =
    (Return tt, State (gs ++ [foldl (λ G x, f x G) G xs]) qs).
Proof.
  revert G. induction xs as [|x xs IH]; intros G; simpl; [done|].
  by rewrite bind_run, mutate_last, IH.
Qed.

End store_facts.

(** * [trim] *)

Section trim_facts.
Implicit Types (G : gmap string (gset string)) (K : gset string).

Lemma leaves_NoDup G K : NoDup (leaves G K).
Proof. apply NoDup_filter, NoDup_elements. Qed.

Lemma elem_of_leaves G K x :
  x ∈ leaves G K ↔ x ∈ nx.nodes G ∧ nx.degree G x < 2 ∧ x ∉ K.
Proof. unfold leaves. rewrite list_elem_of_filter, elem_of_elements. tauto. Qed.

Lemma nodes_remove_leaves G K :
  nx.nodes (nx.remove_nodes_from (leaves G K) G) =
    nx.nodes G ∖ list_to_set (leaves G K).
Proof. apply nodes_remove_nodes_from. Qed.

(** The loop on references computes [trim_graph] on the newest graph. *)
Lemma trim_loop_run fuel gs G qs K :
  trim_loop fuel (length gs) K (State (gs ++ [G]) qs) =
    ((trim_graph fuel G K).1, State (gs ++ [(trim_graph fuel G K).2]) qs).
Proof.
  revert G. induction fuel as [|fuel IH]; intros G; simpl; [done|].
  rewrite bind_run, deref_last. fold (leaves G K).
  destruct (decide (leaves G K = [])); [done|].
  by rewrite bind_run, mutate_last, IH.
Qed.

(** The fuel [trim] passes is enough. *)
Lemma trim_graph_returns fuel G K :
  size (nx.nodes G) < fuel → (trim_graph fuel G K).1 = Return tt.
Proof.
  revert G. induction fuel as [|fuel IH]; intros G Hsz; simpl; [lia|].
  destruct (decide (leaves G K = [])) as [|Hne]; [done|].
  apply IH. rewrite nodes_remove_leaves.
  destruct (leaves G K) as [|x l] eqn:E; [done|].
  assert (Hx : x ∈ nx.nodes G).
  { apply (elem_of_leaves G K). rewrite E. set_solver. }
  assert (nx.nodes G ∖ list_to_set (x :: l) ⊂ nx.nodes G) as Hsub.
  { apply strict_spec. split; [set_solver|].
    intros Heq. specialize (Heq x Hx). set_solver. }
  apply subset_size in Hsub. lia.
Qed.

(** More fuel than needed changes nothing. *)
Lemma trim_graph_fuel fuel fuel' G K :
  size (nx.nodes G) < fuel → size (nx.nodes G) < fuel' →
  trim_graph fuel G K = trim_graph fuel' G K.
Proof.
  revert fuel' G. induction fuel as [|fuel IH]; intros fuel' G H1 H2; [lia|].
  destruct fuel' as [|fuel']; [lia|]. simpl.
  destruct (decide (leaves G K = [])) as [|Hne]; [done|].
  assert (size (nx.nodes (nx.remove_nodes_from (leaves G K) G))
          < size (nx.nodes G)).
  { rewrite nodes_remove_leaves.
    destruct (leaves G K) as [|x l] eqn:E; [done|].
    assert (Hx : x ∈ nx.nodes G).
    { apply (elem_of_leaves G K). rewrite E. set_solver. }
    apply subset_size, strict_spec. split; [set_solver|].
    intros Heq. specialize (Heq x Hx). set_solver. }
  apply IH; lia.
Qed.

Lemma trim_graph_no_leaves fuel G K :
  (trim_graph fuel G K).1 = Return tt → leaves (trim_graph fuel G K).2 K = [].
Proof.
  revert G. induction fuel as [|fuel IH]; intros G; simpl; [done|].
  destruct (decide (leaves G K = [])); [done|]. apply IH.
Qed.

Lemma trim_graph_keeps fuel G K x :
  x ∈ K → x ∈ nx.nodes G → x ∈ nx.nodes (trim_graph fuel G K).2.
Proof.
  intros HK. revert G. induction fuel as [|fuel IH]; intros G Hx; simpl; [done|].
  destruct (decide (leaves G K = [])); [done|].
  apply IH. rewrite nodes_remove_leaves. apply elem_of_difference.
  split; [done|]. rewrite elem_of_list_to_set, elem_of_leaves. tauto.
Qed.

Lemma trim_graph_subgraph fuel G K :
  nx.nodes (trim_graph fuel G K).2 ⊆ nx.nodes G.
Proof.
  revert G. induction fuel as [|fuel IH]; intros G; simpl; [done|].
  destruct (decide (leaves G K = [])); [done|].
  etrans; [apply IH|]. rewrite nodes_remove_leaves. set_solver.
Qed.

Lemma trimmed_no_leaves G K : leaves (trimmed G K) K = [].
Proof. apply trim_graph_no_leaves, trim_graph_returns. lia. Qed.

(** A graph without disposable leaves is a fixed point. *)
Lemma trimmed_fixed G K : leaves G K = [] → trimmed G K = G.
Proof.
  intros H. unfold trimmed. simpl. by rewrite decide_True.
Qed.

(** [trim] allocates one graph, the trimmed copy, and returns it. *)
Lemma trim_run gs qs graph G K :
  gs !! graph = Some G →
  trim graph K (State gs qs) =
    (Return (length gs), State (gs ++ [trimmed G K]) qs).
Proof.
  intros Hg. unfold trim.
  rewrite bind_run, (copy_run _ _ _ G), bind_run, deref_last by done.
  rewrite bind_run, trim_loop_run, trim_graph_returns by lia.
  done.
Qed.

(** The [while True] loop with any fuel above the number of nodes returns
    and leaves the trimmed graph. *)
Lemma trim_loop_enough_fuel fuel gs G qs K :
  size (nx.nodes G) < fuel →
  trim_loop fuel (length gs) K (State (gs ++ [G]) qs) =
    (Return tt, State (gs ++ [trimmed G K]) qs).
Proof.
  intros Hfuel. rewrite trim_loop_run. unfold trimmed.
  rewrite (trim_graph_fuel fuel (S (size (nx.nodes G)))) by lia.
  by rewrite trim_graph_returns by lia.
Qed.

Lemma wf_trim_graph fuel G K : nx.wf G → nx.wf (trim_graph fuel G K).2.
Proof.
  revert G. induction fuel as [|fuel IH]; intros G Hwf; simpl; [done|].
  destruct (decide (leaves G K = [])); [done|].
  by apply IH, wf_remove_nodes_from.
Qed.

End trim_facts.

(** * The enumeration of simple paths *)

Section path_facts.
Implicit Types (G : gmap string (gset string)) (p q : list string).
Implicit Types (vis : gset string) (u v s t : string).

#[local] Instance shorter_trans : Transitive nx.shorter.
Proof. unfold nx.shorter. intros p q r. lia. Qed.

#[local] Instance shorter_total : Total nx.shorter.
Proof. unfold nx.shorter. intros p q. lia. Qed.

Lemma NoDup_length_le_size (l : list string) (X : gset string) :
  NoDup l → (∀ x, x ∈ l → x ∈ X) → length l ≤ size X.
Proof.
  intros Hnd Hin. rewrite <- (size_list_to_set (C := gset string) l Hnd).
  apply subseteq_size. set_solver.
Qed.

Lemma dfs_paths_sound fuel G vis u t p :
  u ∉ vis → p ∈ nx.dfs_paths fuel G vis u t →
  head p = Some u ∧ last p = Some t ∧ NoDup p ∧
  (∀ v, v ∈ p → v ∉ vis) ∧ nx.chain G p ∧
  (∀ v, v ∈ p → v = u ∨ ∃ w, v ∈ nx.adj G w).
Proof.
  revert vis u p. induction fuel as [|fuel IH]; intros vis u p Hu; simpl;
    destruct (decide (u = t)) as [->|Hne]; try (by intros ?%elem_of_nil).
  1, 2: intros ->%list_elem_of_singleton; simpl;
    repeat split; auto using NoDup_singleton;
    intros v ->%list_elem_of_singleton; auto.
  intros (v & Hp & Hv)%list_elem_of_bind.
  apply list_elem_of_fmap in Hp as (q & -> & Hq).
  apply elem_of_elements in Hv.
  apply IH in Hq as (Hh & Hl & Hnd & Havoid & Hch & Hnb); [|set_solver].
  destruct q as [|v' q]; simplify_eq/=.
  repeat split.
  - done.
  - constructor; [|done]. intros Hin. apply Havoid in Hin. set_solver.
  - intros w [->|Hw]%elem_of_cons; [done|]. apply Havoid in Hw. set_solver.
  - set_solver.
  - done.
  - intros w [->|Hw]%elem_of_cons; [by left|]. right.
    destruct (Hnb _ Hw) as [->|?]; [|done]. exists u. set_solver.
Qed.

Lemma dfs_paths_complete fuel G vis u t p :
  head p = Some u → last p = Some t → NoDup p →
  (∀ v, v ∈ p → v ∉ vis) → nx.chain G p → length p ≤ S fuel →
  p ∈ nx.dfs_paths fuel G vis u t.
Proof.
  revert vis u p.
  induction fuel as [|fuel IH]; intros vis u p Hh Hl Hnd Havoid Hch Hlen;
    destruct p as [|u' q]; simplify_eq/=.
  - destruct q; simpl in *; [|lia]. simplify_eq. rewrite decide_True by done.
    set_solver.
  - apply NoDup_cons in Hnd as [Huq Hnd].
    destruct (decide (u = t)) as [->|Hne].
    + destruct q as [|v q]; [set_solver|]. exfalso. apply Huq.
      change (last (t :: v :: q)) with (last (v :: q)) in Hl.
      by apply last_Some_elem_of.
    + destruct q as [|v q]; [simpl in Hl; congruence|].
      destruct Hch as [Hv Hch].
      apply list_elem_of_bind. exists v. split.
      * apply list_elem_of_fmap. exists (v :: q). split; [done|].
        apply IH; [done..| |done|simpl in *; lia].
        intros w Hw. specialize (Havoid w). set_solver.
      * apply elem_of_elements. specialize (Havoid v). set_solver.
Qed.

Lemma dfs_paths_NoDup fuel G vis u t :
  u ∉ vis → NoDup (nx.dfs_paths fuel G vis u t).
Proof.
  revert vis u. induction fuel as [|fuel IH]; intros vis u Hu; simpl;
    destruct (decide (u = t)) as [->|Hne];
    auto using NoDup_nil_2, NoDup_singleton.
  apply NoDup_bind.
  - intros v1 v2 p Hv1%elem_of_elements Hv2%elem_of_elements
      (q1 & -> & Hq1)%list_elem_of_fmap (q2 & ? & Hq2)%list_elem_of_fmap.
    simplify_eq.
    apply dfs_paths_sound in Hq1 as [H1 _]; [|set_solver].
    apply dfs_paths_sound in Hq2 as [H2 _]; [|set_solver].
    congruence.
  - intros v Hv%elem_of_elements. apply NoDup_fmap_2; [apply _|].
    apply IH. set_solver.
  - apply NoDup_elements.
Qed.

(** The enumeration is exactly the set of simple paths. *)
Lemma elem_of_all_simple_paths G s t p :
  nx.wf G → s ∈ nx.nodes G →
  p ∈ nx.all_simple_paths G s t ↔ nx.simple_path G s t p.
Proof.
  intros Hwf Hs. unfold nx.all_simple_paths, nx.simple_path. split.
  - intros Hp. apply dfs_paths_sound in Hp; [|set_solver].
    destruct Hp as (? & ? & ? & _ & ? & Hnb). repeat split; try done.
    intros v Hv. destruct (Hnb v Hv) as [->|[w Hw]]; [done|].
    eapply adj_elem_node, wf_sym; eauto.
  - intros (? & ? & Hnd & Hin & ?). apply dfs_paths_complete; try done.
    unfold nx.nodes in Hin.
    pose proof (NoDup_length_le_size p (dom G) Hnd Hin) as Hlen.
    rewrite size_dom in Hlen. lia.
Qed.

(** Whether some path joins two nodes is decided by the enumeration. *)
Lemma simple_path_dec G s t :
  nx.wf G → s ∈ nx.nodes G →
  (∃ p, nx.simple_path G s t p) ∨ ¬ (∃ p, nx.simple_path G s t p).
Proof.
  intros Hwf Hs. destruct (nx.all_simple_paths G s t) as [|p0 l] eqn:E.
  - right. intros [p Hp]. apply elem_of_all_simple_paths in Hp; [|done..].
    rewrite E in Hp. set_solver.
  - left. exists p0. apply elem_of_all_simple_paths; [done..|].
    rewrite E. set_solver.
Qed.

(** What the generator yields between two nodes some path joins. *)
Lemma shortest_simple_paths_yields G s t p0 :
  nx.wf G → nx.simple_path G s t p0 →
  ∃ gen, nx.shortest_simple_paths G s t = Return gen ∧
    NoDup gen ∧ StronglySorted nx.shorter gen ∧
    ∀ p, p ∈ gen ↔ nx.simple_path G s t p.
Proof.
  intros Hwf Hp0.
  assert (Hs : s ∈ nx.nodes G).
  { destruct Hp0 as (Hh & _ & _ & Hin & _). apply Hin.
    destruct p0; simplify_eq/=. set_solver. }
  assert (Ht : t ∈ nx.nodes G).
  { destruct Hp0 as (_ & Hl & _ & Hin & _). apply Hin.
    by apply last_Some_elem_of. }
  pose proof (merge_sort_Permutation nx.shorter (nx.all_simple_paths G s t))
    as Hperm.
  pose proof (StronglySorted_merge_sort nx.shorter
                (nx.all_simple_paths G s t)) as Hsorted.
  assert (Hspec : ∀ p, p ∈ merge_sort nx.shorter (nx.all_simple_paths G s t)
                       ↔ nx.simple_path G s t p).
  { intros p. rewrite Hperm. by apply elem_of_all_simple_paths. }
  assert (Hnd : NoDup (merge_sort nx.shorter (nx.all_simple_paths G s t))).
  { rewrite Hperm. apply dfs_paths_NoDup. set_solver. }
  unfold nx.shortest_simple_paths.
  rewrite !bool_decide_eq_true_2 by done.
  destruct (merge_sort nx.shorter (nx.all_simple_paths G s t)) as [|p1 gen].
  - apply Hspec in Hp0. set_solver.
  - eauto.
Qed.

(** Between two nodes no path joins, the generator raises. *)
Lemma shortest_simple_paths_no_path G s t :
  nx.wf G → s ∈ nx.nodes G → t ∈ nx.nodes G →
  (¬ ∃ p, nx.simple_path G s t p) →
  nx.shortest_simple_paths G s t = Raise NetworkXNoPath.
Proof.
  intros Hwf Hs Ht Hno. unfold nx.shortest_simple_paths.
  rewrite !bool_decide_eq_true_2 by done.
  pose proof (merge_sort_Permutation nx.shorter (nx.all_simple_paths G s t))
    as Hperm.
  destruct (merge_sort nx.shorter (nx.all_simple_paths G s t)) as [|p1 gen];
    [done|].
  exfalso. apply Hno. exists p1.
  apply elem_of_all_simple_paths; [done..|]. rewrite <- Hperm. set_solver.
Qed.

(** [nx.has_path] decides connectivity: two nodes are joined by a simple
    path exactly when a sequence of edges leads from one to the other. *)
Lemma chain_rtc G p s t :
  head p = Some s → last p = Some t → nx.chain G p →
  rtc (nx.has_edge G) s t.
Proof.
  revert s. induction p as [|u p IH]; intros s Hh Hl Hch; simplify_eq/=.
  destruct p as [|v p]; simplify_eq/=; [done|].
  destruct Hch as [Hv Hch]. eapply rtc_l; [exact Hv|]. by apply IH.
Qed.

Lemma chain_suffix G q1 q2 : nx.chain G (q1 ++ q2) → nx.chain G q2.
Proof.
  induction q1 as [|u q1 IH]; simpl; [done|].
  destruct (q1 ++ q2) eqn:E; [|intros [_ ?]; by apply IH].
  apply app_eq_nil in E as [_ ->]. done.
Qed.

Lemma simple_path_suffix G s t x q1 q2 :
  nx.simple_path G s t (q1 ++ x :: q2) → nx.simple_path G x t (x :: q2).
Proof.
  intros (_ & Hl & Hnd & Hin & Hch). repeat split.
  - by rewrite last_app_cons in Hl.
  - by apply NoDup_app in Hnd as (_ & _ & ?).
  - intros v Hv. apply Hin. set_solver.
  - by apply chain_suffix in Hch.
Qed.

Lemma rtc_simple_path G s t :
  t ∈ nx.nodes G → rtc (nx.has_edge G) s t → ∃ p, nx.simple_path G s t p.
Proof.
  intros Ht Hrtc. induction Hrtc as [t|s u t Hsu Hrtc IH].
  - exists [t]. repeat split; auto using NoDup_singleton.
    by intros v ->%list_elem_of_singleton.
  - destruct (IH Ht) as [q Hq]. destruct (decide (s ∈ q)) as [Hsq|Hsq].
    + apply list_elem_of_split in Hsq as (q1 & q2 & ->).
      eexists. by eapply simple_path_suffix.
    + exists (s :: q). destruct Hq as (Hh & Hl & Hnd & Hin & Hch).
      destruct q as [|u' q]; simplify_eq/=. repeat split.
      * done.
      * by constructor.
      * intros v [->|Hv]%elem_of_cons; [|by apply Hin].
        by eapply adj_elem_node.
      * done.
      * done.
Qed.

Lemma has_path_connected G s t :
  nx.wf G → s ∈ nx.nodes G → t ∈ nx.nodes G →
  nx.has_path G s t = Return true ↔ rtc (nx.has_edge G) s t.
Proof.
  intros Hwf Hs Ht. unfold nx.has_path.
  rewrite bool_decide_eq_true_2 by done. split.
  - intros [= Hne%bool_decide_eq_true_1].
    destruct (nx.all_simple_paths G s t) as [|p l] eqn:E; [done|].
    assert (Hp : nx.simple_path G s t p).
    { apply elem_of_all_simple_paths; [done..|]. rewrite E. set_solver. }
    destruct Hp as (? & ? & _ & _ & ?). by eapply chain_rtc.
  - intros [p Hp]%rtc_simple_path; [|done]. f_equal.
    apply bool_decide_eq_true_2.
    apply elem_of_all_simple_paths in Hp; [|done..].
    intros E. rewrite E in Hp. by apply elem_of_nil in Hp.
Qed.

End path_facts.

(** * [paths_subgraph] *)

Section paths_subgraph_facts.
Implicit Types (G : gmap string (gset string)) (p q : list string).
Implicit Types (paths : gmap (string * string) (list (list string))).
Implicit Types (pr : string * string) (gen acc : list (list string)).

Lemma filter_none {A} (P : A → Prop) `{!∀ x, Decision (P x)} (l : list A) :
  (∀ x, x ∈ l → ¬ P x) → filter P l = [].
Proof.
  induction l as [|x l IH]; intros Hl; [done|].
  rewrite filter_cons_False by (apply Hl; set_solver).
  apply IH. intros y Hy. apply Hl. set_solver.
Qed.

Lemma append_path_lookup pr p paths acc :
  paths !! pr = Some acc →
  append_path pr p paths = <[pr := acc ++ [p]]> paths.
Proof.
  intros Hacc. unfold append_path. apply map_eq. intros k.
  rewrite lookup_alter, lookup_insert. case_decide; subst; [|done].
  by rewrite Hacc.
Qed.

Lemma collect_bounded pr gen m paths acc :
  paths !! pr = Some acc → StronglySorted nx.shorter gen →
  collect pr gen (Some m) paths = <[pr := acc ++ kept (Some m) gen]> paths.
Proof.
  intros Hacc Hs. revert paths acc Hacc.
  induction Hs as [|p gen Hs IH Hall]; intros paths acc Hacc; simpl.
  - by rewrite app_nil_r, insert_id.
  - rewrite filter_cons. case_decide as Hle.
    + rewrite (append_path_lookup _ _ _ acc) by done.
      rewrite (IH _ (acc ++ [p])) by apply lookup_insert_eq.
      by rewrite insert_insert_eq, <- app_assoc.
    + replace (filter _ gen) with (@nil (list string)).
      { by rewrite app_nil_r, insert_id. }
      symmetry. apply filter_none.
      intros q Hq. rewrite Forall_forall in Hall. apply Hall in Hq.
      unfold nx.shorter in Hq. lia.
Qed.

Lemma collect_sorted pr gen max_len paths acc :
  paths !! pr = Some acc → StronglySorted nx.shorter gen →
  collect pr gen max_len paths = <[pr := acc ++ kept max_len gen]> paths.
Proof.
  intros Hacc Hs. destruct max_len as [m|]; [by apply collect_bounded|].
  destruct gen as [|p gen]; simpl.
  - by rewrite app_nil_r, insert_id.
  - rewrite (append_path_lookup _ _ _ acc) by done.
    rewrite lookup_insert_eq. simpl. rewrite last_snoc. simpl.
    apply StronglySorted_inv in Hs as [Hs _].
    rewrite (collect_bounded _ _ _ _ (acc ++ [p]))
      by (done || apply lookup_insert_eq).
    rewrite insert_insert_eq, <- app_assoc. simpl.
    rewrite filter_cons, decide_True by lia. done.
Qed.

(** The loop over the pairs computes [collect_pairs_graph] and leaves
    the store as it is. *)
Lemma collect_pairs_run gs G qs pairs max_len paths :
  collect_pairs (length gs) pairs max_len paths (State (gs ++ [G]) qs) =
    (collect_pairs_graph G pairs max_len paths, State (gs ++ [G]) qs).
Proof.
  revert paths. induction pairs as [|pr pairs IH]; intros paths; simpl;
    [done|].
  rewrite bind_run, deref_last, bind_run. unfold lift.
  destruct (nx.shortest_simple_paths G pr.1 pr.2); [apply IH|done..].
Qed.

Lemma paths_subgraph_run gs qs graph G seeds max_len :
  gs !! graph = Some G →
  paths_subgraph graph seeds max_len (State gs qs) =
    match collect_pairs_graph G (combinations2 seeds) max_len ∅ with
    | Return paths =>
        (Return (length gs, paths), State (gs ++ [reduced G paths]) qs)
    | Raise e => (Raise e, State (gs ++ [G]) qs)
    | OutOfFuel => (OutOfFuel, State (gs ++ [G]) qs)
    end.
Proof.
  intros Hg. unfold paths_subgraph.
  rewrite bind_run, (copy_run _ _ _ G), bind_run, collect_pairs_run by done.
  destruct (collect_pairs_graph G (combinations2 seeds) max_len ∅); [|done..].
  by rewrite bind_run, nodes_last, bind_run, mutate_last.
Qed.

(** When every pair is joined by a path, the table holds for each pair
    the paths kept of those the generator yields. *)
Lemma collect_pairs_graph_joined G pairs max_len paths :
  nx.wf G →
  (∀ pr, pr ∈ pairs → ∃ p, nx.simple_path G pr.1 pr.2 p) →
  ∃ tbl, collect_pairs_graph G pairs max_len paths = Return tbl ∧
    ∀ pr, tbl !! pr = if decide (pr ∈ pairs)
                      then Some (kept max_len (yielded G pr))
                      else paths !! pr.
Proof.
  intros Hwf. revert paths.
  induction pairs as [|pr pairs IH]; intros paths Hjoin; simpl.
  - exists paths. split; [done|]. by intros pr.
  - destruct (Hjoin pr) as [p0 Hp0]; [set_solver|].
    destruct (shortest_simple_paths_yields _ _ _ _ Hwf Hp0)
      as (gen & Hgen & _ & Hsorted & _).
    rewrite Hgen.
    rewrite (collect_sorted _ _ _ _ []) by (done || apply lookup_insert_eq).
    rewrite insert_insert_eq. simpl.
    destruct (IH (<[pr := kept max_len gen]> paths)) as (tbl & -> & Htbl).
    { intros pr' Hpr'. apply Hjoin. set_solver. }
    exists tbl. split; [done|]. intros pr'. rewrite Htbl.
    destruct (decide (pr' = pr)) as [->|Hne].
    + rewrite (decide_True (P := pr ∈ pr :: pairs)) by set_solver.
      case_decide; [done|]. rewrite lookup_insert_eq.
      unfold yielded. by rewrite Hgen.
    + rewrite lookup_insert_ne by done.
      repeat case_decide; set_solver.
Qed.

(** A pair that no path joins makes the loop raise. *)
Lemma collect_pairs_graph_unjoined G pairs max_len paths :
  nx.wf G →
  (∀ pr, pr ∈ pairs → pr.1 ∈ nx.nodes G ∧ pr.2 ∈ nx.nodes G) →
  (∃ pr, pr ∈ pairs ∧ ¬ ∃ p, nx.simple_path G pr.1 pr.2 p) →
  collect_pairs_graph G pairs max_len paths = Raise NetworkXNoPath.
Proof.
  intros Hwf. revert paths.
  induction pairs as [|pr pairs IH]; intros paths Hin (bad & Hbad & Hno);
    simpl; [set_solver|].
  destruct (Hin pr) as [H1 H2]; [set_solver|].
  destruct (simple_path_dec G pr.1 pr.2 Hwf H1) as [[p0 Hp0]|Hnone].
  - destruct (shortest_simple_paths_yields _ _ _ _ Hwf Hp0)
      as (gen & -> & _).
    apply IH; [intros; apply Hin; set_solver|].
    exists bad. split; [|done].
    apply elem_of_cons in Hbad as [->|]; [|done].
    exfalso. apply Hno. eauto.
  - by rewrite shortest_simple_paths_no_path.
Qed.

Lemma yielded_spec G s t p0 :
  nx.wf G → nx.simple_path G s t p0 →
  NoDup (yielded G (s, t)) ∧ StronglySorted nx.shorter (yielded G (s, t)) ∧
  ∀ p, p ∈ yielded G (s, t) ↔ nx.simple_path G s t p.
Proof.
  intros Hwf Hp0. unfold yielded. simpl.
  by destruct (shortest_simple_paths_yields _ _ _ _ Hwf Hp0)
    as (gen & -> & ?).
Qed.

Lemma elem_of_combinations2 {A} (xs : list A) (x y : A) :
  (x, y) ∈ combinations2 xs → x ∈ xs ∧ y ∈ xs.
Proof.
  induction xs as [|z xs IH]; simpl; [by intros ?%elem_of_nil|].
  intros [(y' & ? & ?)%list_elem_of_fmap|Hin%IH]%elem_of_app;
    simplify_eq; set_solver.
Qed.

Lemma elem_of_path_nodes paths v :
  v ∈ path_nodes paths ↔
    ∃ pr ps p, paths !! pr = Some ps ∧ p ∈ ps ∧ v ∈ p.
Proof.
  unfold path_nodes. rewrite elem_of_union_list. split.
  - intros (X & HX & Hv). apply list_elem_of_fmap in HX as ([pr ps] & -> & Hin).
    apply elem_of_map_to_list in Hin. simpl in Hv.
    apply elem_of_union_list in Hv as (Y & HY & Hv).
    apply list_elem_of_fmap in HY as (p & -> & Hp).
    exists pr, ps, p. by rewrite elem_of_list_to_set in Hv.
  - intros (pr & ps & p & Hlk & Hp & Hv).
    exists (⋃ (list_to_set <$> ps)). split.
    + apply list_elem_of_fmap. exists (pr, ps). split; [done|].
      by apply elem_of_map_to_list.
    + apply elem_of_union_list. exists (list_to_set p). split.
      * apply list_elem_of_fmap. eauto.
      * by apply elem_of_list_to_set.
Qed.

(** The reduced graph keeps the nodes that lie on a collected path. *)
Lemma nodes_reduced G paths :
  nx.nodes (reduced G paths) = nx.nodes G ∩ path_nodes paths.
Proof.
  unfold reduced. rewrite nodes_remove_nodes_from, list_to_set_elements_L.
  apply set_eq. intros v. rewrite elem_of_difference, elem_of_intersection,
    elem_of_difference.
  destruct (decide (v ∈ path_nodes paths)); tauto.
Qed.

(** ... and, between them, the edges of the graph. *)
Lemma adj_reduced G paths u :
  u ∈ nx.nodes (reduced G paths) →
  nx.adj (reduced G paths) u = nx.adj G u ∖ (nx.nodes G ∖ path_nodes paths).
Proof.
  rewrite nodes_reduced. intros Hu. unfold reduced.
  rewrite adj_remove_nodes_from, list_to_set_elements_L; [done|..].
  - apply NoDup_elements.
  - intros n Hn%elem_of_elements. set_solver.
  - rewrite elem_of_elements. set_solver.
Qed.

(** [paths_subgraph] when every pair of seeds is joined by a path *)
Lemma paths_subgraph_joined gs qs graph G seeds max_len :
  gs !! graph = Some G → nx.wf G →
  (∀ s t, (s, t) ∈ combinations2 seeds → ∃ p, nx.simple_path G s t p) →
  ∃ paths,
    paths_subgraph graph seeds max_len (State gs qs) =
      (Return (length gs, paths), State (gs ++ [reduced G paths]) qs) ∧
    (∀ pr, paths !! pr = if decide (pr ∈ combinations2 seeds)
                         then Some (kept max_len (yielded G pr))
                         else None) ∧
    ∀ v, v ∈ nx.nodes (reduced G paths) ↔
      ∃ pr ps p, paths !! pr = Some ps ∧ p ∈ ps ∧ v ∈ p.
Proof.
  intros Hg Hwf Hjoin.
  destruct (collect_pairs_graph_joined G (combinations2 seeds) max_len ∅ Hwf)
    as (paths & Hrun & Htbl).
  { intros [s t] Hpr. by apply Hjoin. }
  exists paths. rewrite (paths_subgraph_run _ _ _ G), Hrun by done.
  split; [done|]. split.
  { intros pr. rewrite Htbl. by case_decide. }
  intros v. rewrite nodes_reduced, elem_of_intersection, elem_of_path_nodes.
  split; [tauto|]. intros (pr & ps & p & Hlk & Hp & Hv). split; [|eauto 6].
  rewrite Htbl in Hlk. case_decide as Hpr; [|done]. simplify_eq.
  destruct pr as [s t]. destruct (Hjoin s t Hpr) as [p0 Hp0].
  destruct (yielded_spec G s t p0 Hwf Hp0) as (_ & _ & Hspec).
  assert (Hpy : p ∈ yielded G (s, t)).
  { destruct max_len as [m|]; simpl in Hp.
    - by apply list_elem_of_filter in Hp as [_ ?].
    - destruct (yielded G (s, t)); [by apply elem_of_nil in Hp|].
      by apply list_elem_of_filter in Hp as [_ ?]. }
  apply Hspec in Hpy as (_ & _ & _ & Hin & _). by apply Hin.
Qed.

Lemma wf_reduced G paths : nx.wf G → nx.wf (reduced G paths).
Proof. apply wf_remove_nodes_from. Qed.

End paths_subgraph_facts.

(** * [expand] and [grow] *)

Section grow_facts.
Variable related : string → list string.
Implicit Types (G : gmap string (gset string)) (qs : list string).
Implicit Types (gs : list (gmap string (gset string))).
Implicit Types (seeds new_artists : gset string).

(** A loop whose body asks for the related artists of [x] and then
    changes the newest graph. *)
Lemma for_each_query_last (body : string → list string → M unit)
    (f : string → nx.Graph → nx.Graph) xs gs G qs :
  (∀ x G qs, body x (related x) (State (gs ++ [G]) qs) =
               (Return tt, State (gs ++ [f x G]) qs)) →
  for_each xs (λ x, rs ← query_related related x; body x rs)
      (State (gs ++ [G]) qs) =
    (Return tt, State (gs ++ [foldl (λ G x, f x G) G xs]) (qs ++ xs)).
Proof.
  intros Hbody. revert G qs.
  induction xs as [|x xs IH]; intros G qs; simpl.
  - by rewrite app_nil_r.
  - rewrite bind_run, bind_run. unfold query_related at 1. simpl.
    rewrite Hbody, IH. by rewrite <- app_assoc.
Qed.

Lemma new_or_copy_run gs qs graph G :
  base_graph gs graph G →
  match graph with None => new_graph | Some graph => copy graph end
    (State gs qs) = (Return (length gs), State (gs ++ [G]) qs).
Proof. destruct graph; simpl; [apply copy_run|by intros ->]. Qed.

(** [expand] allocates one graph, [expand_graph] of the base, and asks
    for the related artists of each artist once. *)
Lemma expand_run gs qs artists graph G :
  base_graph gs graph G →
  expand related artists graph (State gs qs) =
    (Return (length gs),
     State (gs ++ [expand_graph related (list_to_set artists) G])
       (qs ++ elements (list_to_set (C := gset string) artists))).
Proof.
  intros Hbase. unfold expand.
  rewrite bind_run, (new_or_copy_run _ _ _ G Hbase), bind_run, mutate_last.
  rewrite bind_run.
  rewrite (for_each_query_last
             (λ x rs, mutate (length gs) (nx.add_edges_from (pair x <$> rs)))
             (λ x, nx.add_edges_from (pair x <$> related x)))
    by (intros; apply mutate_last).
  done.
Qed.

Lemma has_path_last gs G qs s t :
  has_path (length gs) s t (State (gs ++ [G]) qs) =
    (nx.has_path G s t, State (gs ++ [G]) qs).
Proof. unfold has_path. by rewrite bind_run, deref_last. Qed.

Lemma seeds_connected_run gs G qs seeds :
  seeds_connected (length gs) seeds (State (gs ++ [G]) qs) =
    (all_has_path G (combinations2 (elements seeds)), State (gs ++ [G]) qs).
Proof.
  unfold seeds_connected.
  induction (combinations2 (elements seeds)) as [|pr pairs IH]; simpl;
    [done|].
  rewrite bind_run, has_path_last.
  by destruct (nx.has_path G pr.1 pr.2) as [[]| |].
Qed.

(** The [while] loop on references computes [grow_loop_graph]: it leaves
    the graphs the trace lists after those that were there, and [graph]
    names the last of them. *)
Lemma grow_loop_run fuel seeds gs G qs new_artists :
  grow_loop related fuel seeds (length gs) new_artists
      (State (gs ++ [G]) qs) =
    let t := grow_loop_graph related fuel seeds G new_artists in
    (match ending t with
     | Return new_artists' =>
         Return (length (gs ++ abandoned t), new_artists')
     | Raise e => Raise e
     | OutOfFuel => OutOfFuel
     end,
     State (gs ++ abandoned t ++ [current t]) (qs ++ asked t)).
Proof.
  revert gs G qs new_artists.
  induction fuel as [|fuel IH]; intros gs G qs new_artists; simpl;
    rewrite bind_run, seeds_connected_run;
    destruct (all_has_path G (combinations2 (elements seeds)))
      as [[]| |]; simpl; rewrite ?app_nil_r; try done.
  rewrite bind_run, (expand_run _ _ _ _ G)
    by (simpl; apply list_lookup_middle; done).
  rewrite list_to_set_elements_L.
  rewrite bind_run, nodes_last, bind_run.
  unfold nodes at 1. rewrite bind_run, (deref_run _ _ _ G)
    by (rewrite <- app_assoc; apply list_lookup_middle; done).
  simpl.
  destruct (decide (_ = ∅)) as [Hempty|Hnew]; simpl.
  - by rewrite <- app_assoc.
  - rewrite IH. simpl.
    destruct (ending _); simpl; rewrite <- ?app_assoc; simpl;
      rewrite <- ?app_assoc; done.
Qed.

Lemma link_loop_run gs G qs artist rs :
  for_each rs (λ r,
      present ← nodes (length gs);
      if decide (r ∈ present)
      then mutate (length gs) (nx.add_edge artist r)
      else mret tt) (State (gs ++ [G]) qs) =
    (Return tt,
     State (gs ++ [foldl (λ G r, link artist r G) G rs]) qs).
Proof.
  revert G. induction rs as [|r rs IH]; intros G; simpl; [done|].
  rewrite bind_run, bind_run, nodes_last. unfold link at 2.
  destruct (decide (r ∈ nx.nodes G)).
  - by rewrite mutate_last, IH.
  - unfold mret, M_ret. by rewrite IH.
Qed.

(** [grow] on references: the graphs of the loop's trace are allocated
    after those that were there, and the finishing pass works on the
    last of them. *)
Lemma grow_run fuel gs qs (seeds : list string) graph G :
  base_graph gs graph G →
  grow related fuel seeds graph (State gs qs) =
    let seeds : gset string := list_to_set seeds in
    let t := grow_loop_graph related fuel seeds
               (nx.add_nodes_from (elements seeds) G) seeds in
    match ending t with
    | Return new_artists =>
        (Return (length (gs ++ abandoned t)),
         State (gs ++ abandoned t
                   ++ [interconnect related new_artists (current t)])
           (qs ++ asked t ++ elements new_artists))
    | Raise e =>
        (Raise e, State (gs ++ abandoned t ++ [current t]) (qs ++ asked t))
    | OutOfFuel =>
        (OutOfFuel, State (gs ++ abandoned t ++ [current t]) (qs ++ asked t))
    end.
Proof.
  intros Hbase. unfold grow.
  rewrite bind_run, (new_or_copy_run _ _ _ G Hbase), bind_run, mutate_last.
  rewrite bind_run, grow_loop_run. simpl.
  destruct (ending _) as [new_artists| |]; [|done..].
  rewrite bind_run, app_assoc.
  rewrite (for_each_query_last
             (λ x rs, for_each rs (λ r,
                present ← nodes (length (gs ++ abandoned _));
                if decide (r ∈ present)
                then mutate (length (gs ++ abandoned _)) (nx.add_edge x r)
                else mret tt))
             (λ x G, foldl (λ G r, link x r G) G (related x)))
    by (intros; apply link_loop_run).
  by rewrite <- !app_assoc.
Qed.

(** Fewer than two seeds have no pair to connect. *)
Lemma combinations2_small seeds :
  size seeds < 2 → combinations2 (elements seeds) = [].
Proof.
  unfold size, set_size. simpl.
  destruct (elements seeds) as [|x [|y l]]; simpl; [done..|lia].
Qed.

Lemma nodes_link artist r G :
  artist ∈ nx.nodes G → nx.nodes (link artist r G) = nx.nodes G.
Proof.
  intros Ha. unfold link. case_decide; [|done].
  rewrite nodes_add_edge. set_solver.
Qed.

Lemma elem_of_adj_link artist r G u v :
  v ∈ nx.adj (link artist r G) u ↔
    v ∈ nx.adj G u ∨
    (r ∈ nx.nodes G ∧ ((u = artist ∧ v = r) ∨ (u = r ∧ v = artist))).
Proof.
  unfold link. case_decide; [|tauto].
  rewrite adj_add_edge. repeat case_decide; set_solver.
Qed.

Lemma link_all_spec artist rs G :
  artist ∈ nx.nodes G →
  nx.nodes (foldl (λ G r, link artist r G) G rs) = nx.nodes G ∧
  ∀ u v, v ∈ nx.adj (foldl (λ G r, link artist r G) G rs) u ↔
    v ∈ nx.adj G u ∨
    ∃ r, r ∈ rs ∧ r ∈ nx.nodes G ∧
      ((u = artist ∧ v = r) ∨ (u = r ∧ v = artist)).
Proof.
  revert G. induction rs as [|r rs IH]; intros G Ha; simpl.
  - split; [done|]. intros u v. split; [tauto|].
    intros [?|(r & Hr & _)]; [done|]. by apply elem_of_nil in Hr.
  - destruct (IH (link artist r G)) as [Hn Hadj].
    { by rewrite nodes_link. }
    rewrite Hn, nodes_link by done. split; [done|].
    intros u v. rewrite Hadj, elem_of_adj_link, nodes_link by done.
    split.
    + intros [[?|[? ?]]|(r' & ? & ? & ?)]; [by left|right..].
      * exists r. set_solver.
      * exists r'. set_solver.
    + intros [?|(r' & [->|?]%elem_of_cons & ? & ?)]; [tauto|tauto|].
      right. exists r'. tauto.
Qed.

(** The finishing pass adds no node and exactly the [shortcut] edges. *)
Lemma interconnect_spec (xs : list string) G :
  (∀ x, x ∈ xs → x ∈ nx.nodes G) →
  let G' := foldl (λ G artist,
              foldl (λ G r, link artist r G) G (related artist)) G xs in
  nx.nodes G' = nx.nodes G ∧
  ∀ u v, v ∈ nx.adj G' u ↔
    v ∈ nx.adj G u ∨
    ∃ artist r, artist ∈ xs ∧ r ∈ related artist ∧ r ∈ nx.nodes G ∧
      ((u = artist ∧ v = r) ∨ (u = r ∧ v = artist)).
Proof.
  revert G. induction xs as [|x xs IH]; intros G Hin; simpl.
  - split; [done|]. intros u v. split; [tauto|].
    intros [?|(a & r & Ha & _)]; [done|]. by apply elem_of_nil in Ha.
  - destruct (link_all_spec x (related x) G) as [Hn Hadj];
      [apply Hin; set_solver|].
    destruct (IH (foldl (λ G r, link x r G) G (related x))) as [Hn' Hadj'].
    { intros y Hy. rewrite Hn. apply Hin. set_solver. }
    split; [congruence|].
    intros u v. rewrite Hadj', Hadj, Hn. split.
    + intros [[?|(r & ? & ? & ?)]|(a & r & ? & ? & ? & ?)]; [by left|right..].
      * exists x, r. set_solver.
      * exists a, r. set_solver.
    + intros [?|(a & r & [->|?]%elem_of_cons & ? & ? & ?)]; [tauto| |].
      * left. right. exists r. tauto.
      * right. exists a, r. tauto.
Qed.

Lemma interconnect_nodes new_artists G :
  new_artists ⊆ nx.nodes G →
  nx.nodes (interconnect related new_artists G) = nx.nodes G.
Proof.
  intros Hsub. apply interconnect_spec. intros x Hx%elem_of_elements.
  by apply Hsub.
Qed.

Lemma interconnect_adj new_artists G u v :
  new_artists ⊆ nx.nodes G →
  v ∈ nx.adj (interconnect related new_artists G) u ↔
    v ∈ nx.adj G u ∨ shortcut related new_artists G u v.
Proof.
  intros Hsub. unfold interconnect, shortcut.
  destruct (interconnect_spec (elements new_artists) G) as [_ Hadj].
  { intros x Hx%elem_of_elements. by apply Hsub. }
  rewrite Hadj. by setoid_rewrite elem_of_elements.
Qed.

Lemma all_has_path_raises G pairs e :
  all_has_path G pairs = Raise e → e = NodeNotFound.
Proof.
  induction pairs as [|pr pairs IH]; simpl; [done|].
  unfold nx.has_path at 1. case_bool_decide; [|by intros [= <-]].
  case_bool_decide; [done|by intros [=]].
Qed.

(** When the loop raises [RuntimeError], it does so at the end of a round
    that started from a graph in which the seeds were not connected and
    that found no new node; whether the edges of that round connect the
    seeds is not looked at. *)
Lemma grow_loop_graph_raises fuel seeds G new_artists msg :
  ending (grow_loop_graph related fuel seeds G new_artists)
    = Raise (RuntimeError msg) →
  ∃ G0, last (abandoned (grow_loop_graph related fuel seeds G new_artists))
          = Some G0 ∧
    all_has_path G0 (combinations2 (elements seeds)) = Return false ∧
    nx.nodes (current (grow_loop_graph related fuel seeds G new_artists))
      ∖ nx.nodes G0 = ∅.
Proof.
  revert G new_artists.
  induction fuel as [|fuel IH]; intros G new_artists; simpl;
    destruct (all_has_path G (combinations2 (elements seeds)))
      as [[]|e|] eqn:Hc; simpl; try done;
    try (by intros [= ->]; apply all_has_path_raises in Hc).
  case_decide as Hnew; simpl.
  - intros _. by exists G.
  - intros (G0 & Hlast & ? & ?)%IH. exists G0. split; [|done].
    destruct (abandoned _); simplify_eq/=. done.
Qed.

(** The graphs [expand] and [grow] build have symmetric adjacency. *)
Lemma wf_expand_graph (artists : gset string) G :
  nx.wf G → nx.wf (expand_graph related artists G).
Proof.
  intros Hwf. unfold expand_graph.
  assert (Hfold : ∀ xs G0, nx.wf G0 →
            nx.wf (foldl (λ G artist,
                     nx.add_edges_from (pair artist <$> related artist) G)
                   G0 xs)).
  { induction xs as [|x xs IH]; intros G0 H0; simpl; [done|].
    by apply IH, wf_add_edges_from. }
  by apply Hfold, wf_add_nodes_from.
Qed.

Lemma wf_interconnect new_artists G :
  nx.wf G → nx.wf (interconnect related new_artists G).
Proof.
  unfold interconnect. generalize (elements new_artists). intros xs.
  revert G. induction xs as [|x xs IH]; intros G Hwf; simpl; [done|].
  apply IH. generalize (related x). intros rs. revert G Hwf.
  induction rs as [|r rs IHr]; intros G Hwf; simpl; [done|].
  apply IHr. unfold link. case_decide; [by apply wf_add_edge|done].
Qed.

Lemma wf_grow_loop_graph fuel seeds G new_artists :
  nx.wf G → nx.wf (current (grow_loop_graph related fuel seeds G new_artists)).
Proof.
  revert G new_artists.
  induction fuel as [|fuel IH]; intros G new_artists Hwf; simpl;
    destruct (all_has_path G (combinations2 (elements seeds))) as [[]| |];
    simpl; try done.
  case_decide; simpl; [by apply wf_expand_graph|].
  by apply IH, wf_expand_graph.
Qed.

End grow_facts.

(** * The claims about [trim] *)

(** C6: for every graph and keeper set, [trim] returns a new graph from
    which no keeper that was a node has been removed, whatever its degree,
    and in which every node of degree below 2 is a keeper. *)
Theorem trim_keeps_keepers σ graph (G : gmap string (gset string)) keepers :
  graphs σ !! graph = Some G →
  ∃ G',
    trim graph keepers σ =
      (Return (length (graphs σ)), State (graphs σ ++ [G']) (queries σ)) ∧
    (∀ x, x ∈ keepers → x ∈ nx.nodes G → x ∈ nx.nodes G') ∧
    (∀ x, x ∈ nx.nodes G' → nx.degree G' x < 2 → x ∈ keepers).
Proof.
  destruct σ as [gs qs]. simpl. intros Hg. exists (trimmed G keepers).
  split; [by apply trim_run|]. split.
  - intros x HK Hx. by apply trim_graph_keeps.
  - intros x Hx Hdeg.
    destruct (decide (x ∈ keepers)) as [|Hnk]; [done|]. exfalso.
    assert (x ∈ leaves (trimmed G keepers) keepers) as Hin
      by (by apply elem_of_leaves).
    rewrite trimmed_no_leaves in Hin. by apply elem_of_nil in Hin.
Qed.

Lemma trim_keeps_keepers_witness :
  ∃ G',
    trim 0 {["a"%string]} (State [chain_graph] []) =
      (Return 1, State ([chain_graph] ++ [G']) []) ∧
    (∀ x, x ∈ ({["a"%string]} : gset string) → x ∈ nx.nodes chain_graph →
          x ∈ nx.nodes G') ∧
    (∀ x, x ∈ nx.nodes G' → nx.degree G' x < 2 →
          x ∈ ({["a"%string]} : gset string)).
Proof.
  apply (trim_keeps_keepers (State [chain_graph] []) 0 chain_graph).
  reflexivity.
Defined.

(** C7: [trim] is idempotent: trimming the graph [trim] returned, with
    the same keepers, returns a graph with the same nodes and edges. *)
Theorem trim_idempotent σ graph (G : gmap string (gset string)) keepers :
  graphs σ !! graph = Some G →
  ∃ graph1 σ1 G1 graph2 σ2,
    trim graph keepers σ = (Return graph1, σ1) ∧
    graphs σ1 !! graph1 = Some G1 ∧
    trim graph1 keepers σ1 = (Return graph2, σ2) ∧
    graphs σ2 !! graph2 = Some G1.
Proof.
  destruct σ as [gs qs]. simpl. intros Hg.
  eexists _, _, (trimmed G keepers), _, _.
  split; [by apply trim_run|].
  split; [by apply list_lookup_middle|].
  split; [by apply trim_run, list_lookup_middle|].
  rewrite (trimmed_fixed (trimmed G keepers)) by apply trimmed_no_leaves.
  apply list_lookup_middle. by rewrite length_app.
Qed.

Lemma trim_idempotent_witness :
  ∃ graph1 σ1 G1 graph2 σ2,
    trim 0 {["a"%string]} (State [chain_graph] []) = (Return graph1, σ1) ∧
    graphs σ1 !! graph1 = Some G1 ∧
    trim graph1 {["a"%string]} σ1 = (Return graph2, σ2) ∧
    graphs σ2 !! graph2 = Some G1.
Proof.
  apply (trim_idempotent (State [chain_graph] []) 0 chain_graph).
  reflexivity.
Defined.

(** * The claims about [paths_subgraph] *)

Lemma wf_check (G : gmap string (gset string)) :
  bool_decide (nx.wf G) = true → nx.wf G.
Proof. apply bool_decide_eq_true_1. Qed.

Lemma simple_path_check (G : gmap string (gset string)) s t p :
  nx.wf G → bool_decide (s ∈ nx.nodes G) = true →
  bool_decide (p ∈ nx.all_simple_paths G s t) = true →
  nx.simple_path G s t p.
Proof.
  intros Hwf Hs%bool_decide_eq_true_1 Hp%bool_decide_eq_true_1.
  by apply elem_of_all_simple_paths.
Qed.

Lemma no_simple_path_check (G : gmap string (gset string)) s t :
  nx.wf G → bool_decide (s ∈ nx.nodes G) = true →
  nx.all_simple_paths G s t = [] →
  ¬ ∃ p, nx.simple_path G s t p.
Proof.
  intros Hwf Hs%bool_decide_eq_true_1 Hnone [p Hp].
  apply elem_of_all_simple_paths in Hp; [|done..].
  rewrite Hnone in Hp. by apply elem_of_nil in Hp.
Qed.

Lemma nodes_check (G : gmap string (gset string)) (l : list string) :
  bool_decide (list_to_set l ⊆ nx.nodes G) = true →
  ∀ s, s ∈ l → s ∈ nx.nodes G.
Proof.
  intros Hsub%bool_decide_eq_true_1 s Hs. apply Hsub.
  by apply elem_of_list_to_set.
Qed.

Lemma two_nodes_wf : nx.wf two_nodes.
Proof. apply wf_check. by vm_compute. Qed.

Lemma chain_graph_wf : nx.wf chain_graph.
Proof. apply wf_check. by vm_compute. Qed.

Lemma diamond_wf : nx.wf diamond.
Proof. apply wf_check. by vm_compute. Qed.

Lemma two_nodes_unjoined :
  ¬ ∃ p, nx.simple_path two_nodes "a"%string "b"%string p.
Proof. apply no_simple_path_check; [apply two_nodes_wf|by vm_compute..]. Qed.

Lemma combinations2_pair {A} (x y : A) s t :
  (s, t) ∈ combinations2 [x; y] → s = x ∧ t = y.
Proof. simpl. intros Hin%list_elem_of_singleton. by simplify_eq. Qed.

(** C3, as the code has it: when all seeds are nodes of the graph and
    some pair of seeds is joined by no path, [paths_subgraph] raises
    [NetworkXNoPath], the exception of the path generator, and returns
    neither a graph nor a path table; the graph passed in is as it was. *)
Theorem paths_subgraph_raises_without_path σ graph
    (G : gmap string (gset string)) (seeds : list string) max_len :
  graphs σ !! graph = Some G → nx.wf G →
  (∀ s, s ∈ seeds → s ∈ nx.nodes G) →
  (∃ s t, (s, t) ∈ combinations2 seeds ∧ ¬ ∃ p, nx.simple_path G s t p) →
  paths_subgraph graph seeds max_len σ =
    (Raise NetworkXNoPath, State (graphs σ ++ [G]) (queries σ)).
Proof.
  destruct σ as [gs qs]. simpl. intros Hg Hwf Hin (s & t & Hpr & Hno).
  rewrite (paths_subgraph_run _ _ _ G) by done.
  rewrite collect_pairs_graph_unjoined; [done..| |].
  - intros [s' t'] [? ?]%elem_of_combinations2. split; by apply Hin.
  - by exists (s, t).
Qed.

Lemma paths_subgraph_raises_without_path_witness :
  paths_subgraph 0 ["a"; "b"]%string None (State [two_nodes] []) =
    (Raise NetworkXNoPath, State ([two_nodes] ++ [two_nodes]) []).
Proof.
  apply (paths_subgraph_raises_without_path (State [two_nodes] []) 0
           two_nodes ["a"; "b"]%string None).
  - reflexivity.
  - apply two_nodes_wf.
  - apply nodes_check. by vm_compute.
  - exists "a"%string, "b"%string. split; [|apply two_nodes_unjoined].
    simpl. apply list_elem_of_singleton. reflexivity.
Defined.

(** C3 as it is stated fails: [a] and [b] are joined by no path in the
    graph with these two nodes and no edge, and [paths_subgraph] does not
    return. *)
Lemma paths_subgraph_without_path_counterexample :
  (¬ ∃ p, nx.simple_path two_nodes "a"%string "b"%string p) ∧
  ¬ ∃ graph' paths σ',
      paths_subgraph 0 ["a"; "b"]%string None (State [two_nodes] []) =
        (Return (graph', paths), σ') ∧
      paths !! ("a"%string, "b"%string) = Some [].
Proof.
  split; [apply two_nodes_unjoined|].
  intros (graph' & paths & σ' & Hrun & _). vm_compute in Hrun. discriminate.
Qed.

Lemma chain_graph_joined s t :
  (s, t) ∈ combinations2 ["a"; "b"]%string →
  ∃ p, nx.simple_path chain_graph s t p.
Proof.
  intros [-> ->]%combinations2_pair. exists ["a"; "x"; "b"]%string.
  apply simple_path_check; [apply chain_graph_wf|by vm_compute..].
Qed.

Lemma diamond_joined s t :
  (s, t) ∈ combinations2 ["a"; "b"]%string →
  ∃ p, nx.simple_path diamond s t p.
Proof.
  intros [-> ->]%combinations2_pair. exists ["a"; "x"; "b"]%string.
  apply simple_path_check; [apply diamond_wf|by vm_compute..].
Qed.

(** C4, as the code has it: when every pair of seeds is joined by some
    path of the graph and a bound [max_len] is given, [paths_subgraph]
    returns, and the entry of each pair [(s, t)] of seeds in the path table
    lists, once each, exactly the simple paths from [s] to [t] whose
    length, the number of their nodes as [len(path)] counts it, is at most
    [max_len]; the nodes of the reduced graph are exactly the nodes on the
    collected paths.  So a pair whose paths are all longer than the bound
    has an empty entry, and a node that lies on such paths only is not in
    the reduced graph. *)
Theorem paths_subgraph_bounded σ graph (G : gmap string (gset string))
    (seeds : list string) (max_len : Z) :
  graphs σ !! graph = Some G → nx.wf G →
  (∀ s t, (s, t) ∈ combinations2 seeds → ∃ p, nx.simple_path G s t p) →
  ∃ paths G',
    paths_subgraph graph seeds (Some max_len) σ =
      (Return (length (graphs σ), paths),
       State (graphs σ ++ [G']) (queries σ)) ∧
    (∀ s t, (s, t) ∈ combinations2 seeds →
       ∃ ps, paths !! (s, t) = Some ps ∧ NoDup ps ∧
         ∀ p, p ∈ ps ↔
           nx.simple_path G s t p ∧ (Z.of_nat (length p) ≤ max_len)%Z) ∧
    (∀ v, v ∈ nx.nodes G' ↔
       ∃ pr ps p, paths !! pr = Some ps ∧ p ∈ ps ∧ v ∈ p).
Proof.
  destruct σ as [gs qs]. simpl. intros Hg Hwf Hjoin.
  destruct (paths_subgraph_joined gs qs graph G seeds (Some max_len))
    as (paths & Hrun & Htbl & Hnodes); [done..|].
  exists paths, (reduced G paths). split; [done|]. split; [|done].
  intros s t Hpr. destruct (Hjoin s t Hpr) as [p0 Hp0].
  destruct (yielded_spec G s t p0 Hwf Hp0) as (Hnd & _ & Hspec).
  exists (kept (Some max_len) (yielded G (s, t))). split.
  { by rewrite Htbl, decide_True. }
  split; [by apply NoDup_filter|].
  intros p. simpl. rewrite list_elem_of_filter, Hspec. tauto.
Qed.

Lemma paths_subgraph_bounded_witness :
  ∃ paths G',
    paths_subgraph 0 ["a"; "b"]%string (Some 2%Z) (State [chain_graph] []) =
      (Return (1, paths), State ([chain_graph] ++ [G']) []) ∧
    (∀ s t, (s, t) ∈ combinations2 ["a"; "b"]%string →
       ∃ ps, paths !! (s, t) = Some ps ∧ NoDup ps ∧
         ∀ p, p ∈ ps ↔
           nx.simple_path chain_graph s t p ∧ (Z.of_nat (length p) ≤ 2)%Z) ∧
    (∀ v, v ∈ nx.nodes G' ↔
       ∃ pr ps p, paths !! pr = Some ps ∧ p ∈ ps ∧ v ∈ p).
Proof.
  apply (paths_subgraph_bounded (State [chain_graph] []) 0 chain_graph
           ["a"; "b"]%string 2%Z).
  - reflexivity.
  - apply chain_graph_wf.
  - apply chain_graph_joined.
Defined.

(** C4 as it is stated, for every graph, fails: with the seeds [a] and
    [b] in the graph that has these two nodes and no edge, no table is
    returned. *)
Lemma paths_subgraph_bounded_counterexample :
  ¬ ∃ graph' paths σ',
      paths_subgraph 0 ["a"; "b"]%string (Some 2%Z) (State [two_nodes] []) =
        (Return (graph', paths), σ') ∧
      ∀ s t, (s, t) ∈ combinations2 ["a"; "b"]%string →
        ∃ ps, paths !! (s, t) = Some ps ∧
          ∀ p, p ∈ ps ↔
            nx.simple_path two_nodes s t p ∧ (Z.of_nat (length p) ≤ 2)%Z.
Proof.
  intros (graph' & paths & σ' & Hrun & _). vm_compute in Hrun. discriminate.
Qed.

(** C5, as the code has it: when every pair of seeds is joined by some
    path of the graph and [max_len] is omitted, [paths_subgraph] returns,
    and the entry of each pair [(s, t)] of seeds lists, once each, exactly
    the simple paths from [s] to [t] of minimal length: every path no
    longer than any other, and none that is longer than some path. *)
Theorem paths_subgraph_shortest σ graph (G : gmap string (gset string))
    (seeds : list string) :
  graphs σ !! graph = Some G → nx.wf G →
  (∀ s t, (s, t) ∈ combinations2 seeds → ∃ p, nx.simple_path G s t p) →
  ∃ paths G',
    paths_subgraph graph seeds None σ =
      (Return (length (graphs σ), paths),
       State (graphs σ ++ [G']) (queries σ)) ∧
    (∀ s t, (s, t) ∈ combinations2 seeds →
       ∃ ps, paths !! (s, t) = Some ps ∧ NoDup ps ∧
         ∀ p, p ∈ ps ↔
           nx.simple_path G s t p ∧
           ∀ q, nx.simple_path G s t q → length p ≤ length q) ∧
    (∀ v, v ∈ nx.nodes G' ↔
       ∃ pr ps p, paths !! pr = Some ps ∧ p ∈ ps ∧ v ∈ p).
Proof.
  destruct σ as [gs qs]. simpl. intros Hg Hwf Hjoin.
  destruct (paths_subgraph_joined gs qs graph G seeds None)
    as (paths & Hrun & Htbl & Hnodes); [done..|].
  exists paths, (reduced G paths). split; [done|]. split; [|done].
  intros s t Hpr. destruct (Hjoin s t Hpr) as [p0 Hp0].
  destruct (yielded_spec G s t p0 Hwf Hp0) as (Hnd & Hsorted & Hspec).
  exists (kept None (yielded G (s, t))). split.
  { by rewrite Htbl, decide_True. }
  simpl. destruct (yielded G (s, t)) as [|p1 gen] eqn:Hgen.
  { apply Hspec in Hp0. by apply elem_of_nil in Hp0. }
  split; [by apply NoDup_filter|].
  apply StronglySorted_inv in Hsorted as [_ Hmin].
  rewrite Forall_forall in Hmin.
  assert (Hfirst : ∀ q, nx.simple_path G s t q → length p1 ≤ length q).
  { intros q [->|Hq]%Hspec%elem_of_cons; [done|]. by apply Hmin. }
  intros p. rewrite list_elem_of_filter, Hspec. split.
  - intros [Hle Hp]. split; [done|]. intros q Hq%Hfirst. lia.
  - intros [Hp Hleast]. split; [|done].
    assert (length p ≤ length p1); [|lia].
    apply Hleast, Hspec. set_solver.
Qed.

Lemma paths_subgraph_shortest_witness :
  ∃ paths G',
    paths_subgraph 0 ["a"; "b"]%string None (State [diamond] []) =
      (Return (1, paths), State ([diamond] ++ [G']) []) ∧
    (∀ s t, (s, t) ∈ combinations2 ["a"; "b"]%string →
       ∃ ps, paths !! (s, t) = Some ps ∧ NoDup ps ∧
         ∀ p, p ∈ ps ↔
           nx.simple_path diamond s t p ∧
           ∀ q, nx.simple_path diamond s t q → length p ≤ length q) ∧
    (∀ v, v ∈ nx.nodes G' ↔
       ∃ pr ps p, paths !! pr = Some ps ∧ p ∈ ps ∧ v ∈ p).
Proof.
  apply (paths_subgraph_shortest (State [diamond] []) 0 diamond
           ["a"; "b"]%string).
  - reflexivity.
  - apply diamond_wf.
  - apply diamond_joined.
Defined.

(** C5 as it is stated, for every graph, fails: with the seeds [a] and
    [b] in the graph that has these two nodes and no edge, no table is
    returned. *)
Lemma paths_subgraph_shortest_counterexample :
  ¬ ∃ graph' paths σ',
      paths_subgraph 0 ["a"; "b"]%string None (State [two_nodes] []) =
        (Return (graph', paths), σ') ∧
      ∀ s t, (s, t) ∈ combinations2 ["a"; "b"]%string →
        ∃ ps, paths !! (s, t) = Some ps ∧
          ∀ p, p ∈ ps ↔
            nx.simple_path two_nodes s t p ∧
            ∀ q, nx.simple_path two_nodes s t q → length p ≤ length q.
Proof.
  intros (graph' & paths & σ' & Hrun & _). vm_compute in Hrun. discriminate.
Qed.

(** The two examples of the specification, evaluated. *)
Example bounded_example :
  paths_subgraph 0 ["a"; "b"]%string (Some 2%Z) (State [chain_graph] []) =
    (Return (1, {[ ("a", "b")%string := [] ]}),
     State [chain_graph; nx.empty] []).
Proof. by vm_compute. Qed.

Example shortest_example :
  paths_subgraph 0 ["a"; "b"]%string None (State [diamond] []) =
    (Return (1, {[ ("a", "b")%string :=
                     [["a"; "x"; "b"]; ["a"; "y"; "b"]]%string ]}),
     State [diamond;
            nx.add_edges_from
              [("a", "x"); ("x", "b"); ("a", "y"); ("y", "b")]%string
              nx.empty] []).
Proof. by vm_compute. Qed.

(** * The claims about [grow] *)

Section grow_claims.
Variable related : string → list string.
Implicit Types (G : gmap string (gset string)) (seeds : list string).

(** When the seeds are connected at the start the loop is left at once,
    whatever the fuel. *)
Lemma grow_loop_graph_connected fuel (S : gset string) G new_artists :
  all_has_path G (combinations2 (elements S)) = Return true →
  grow_loop_graph related fuel S G new_artists =
    Trace (Return new_artists) [] G [].
Proof. intros Hc. destruct fuel; simpl; by rewrite Hc. Qed.

Lemma link_absent artist rs G :
  (∀ r, r ∈ rs → r ∉ nx.nodes G) →
  foldl (λ G r, link artist r G) G rs = G.
Proof.
  induction rs as [|r rs IH]; intros Hrs; simpl; [done|].
  unfold link at 2. rewrite decide_False by (apply Hrs; set_solver).
  apply IH. intros r' Hr'. apply Hrs. set_solver.
Qed.

(** C9: the single-seed boundary.  For a seed [a] that is not among its
    own related artists, [grow([a])] returns, whatever the fuel and
    without a round of the loop (one graph is allocated, and [a] is the
    only artist queried), a graph whose only node is [a] and that has no
    edge; and [paths_subgraph] with the seeds [[a]] returns, for every
    graph and every [max_len], the empty path table and a graph with no
    node. *)
Theorem single_seed_boundary fuel a σ graph G max_len :
  a ∉ related a → graphs σ !! graph = Some G →
  grow related fuel [a] None σ =
    (Return (length (graphs σ)),
     State (graphs σ ++ [{[a := ∅]}]) (queries σ ++ [a])) ∧
  paths_subgraph graph [a] max_len σ =
    (Return (length (graphs σ), ∅),
     State (graphs σ ++ [nx.empty]) (queries σ)).
Proof.
  destruct σ as [gs qs]. simpl. intros Ha Hg. split.
  - rewrite (grow_run related fuel gs qs [a] None nx.empty) by done.
    simpl. rewrite !(union_empty_r_L (C := gset string)), !elements_singleton.
    rewrite grow_loop_graph_connected by (by rewrite elements_singleton).
    simpl. rewrite app_nil_r. unfold interconnect.
    rewrite elements_singleton. simpl.
    rewrite link_absent; [done|].
    intros r Hr. unfold nx.add_nodes_from, nx.add_node, nx.nodes, nx.empty.
    simpl. rewrite lookup_empty, dom_insert_L. set_solver.
  - rewrite (paths_subgraph_run _ _ _ G) by done. simpl.
    assert (reduced G ∅ = nx.empty) as ->; [|done].
    apply (dom_empty_inv_L (D := gset string)).
    fold (nx.nodes (reduced G ∅)). rewrite nodes_reduced.
    unfold path_nodes. rewrite map_to_list_empty. set_solver.
Qed.

(** C10, as the code has it: when the seeds are connected in the copy of
    the base graph to which they have been added as nodes, and so
    whenever there are fewer than two seeds, [grow] returns whatever
    the fuel and without a round of the loop: it allocates one graph,
    queries the related artists of each seed once and of no one else, and
    returns the base graph plus the seeds as nodes plus an edge between
    each seed and each of its related artists that is a node of that
    graph.  The result differs from the base graph when such an edge is
    not already in it. *)
Theorem grow_on_connected_seeds fuel σ seeds graph G :
  base_graph (graphs σ) graph G →
  size (seed_set seeds) < 2 ∨
    all_has_path (nx.add_nodes_from (elements (seed_set seeds)) G)
      (combinations2 (elements (seed_set seeds))) = Return true →
  ∃ G',
    grow related fuel seeds graph σ =
      (Return (length (graphs σ)),
       State (graphs σ ++ [G'])
         (queries σ ++ elements (seed_set seeds))) ∧
    nx.nodes G' = nx.nodes G ∪ seed_set seeds ∧
    (∀ u v, nx.has_edge G' u v ↔
       nx.has_edge G u v ∨
       ∃ s r, s ∈ seed_set seeds ∧ r ∈ related s ∧ r ∈ nx.nodes G' ∧
         ((u = s ∧ v = r) ∨ (u = r ∧ v = s))) ∧
    (∀ s r, s ∈ seed_set seeds → r ∈ related s → r ∈ nx.nodes G' →
       ¬ nx.has_edge G s r → G' ≠ G).
Proof.
  destruct σ as [gs qs]. simpl. intros Hbase Hconn.
  set (S := seed_set seeds) in *.
  set (G1 := nx.add_nodes_from (elements S) G) in *.
  assert (Hc : all_has_path G1 (combinations2 (elements S)) = Return true).
  { destruct Hconn as [Hsmall|?]; [|done].
    by rewrite combinations2_small. }
  assert (HS : S ⊆ nx.nodes G1).
  { unfold G1. rewrite nodes_add_nodes_from, list_to_set_elements_L.
    set_solver. }
  assert (Hn : nx.nodes (interconnect related S G1) = nx.nodes G ∪ S).
  { rewrite interconnect_nodes by done. unfold G1.
    rewrite nodes_add_nodes_from, list_to_set_elements_L. set_solver. }
  assert (Hedge : ∀ u v, nx.has_edge (interconnect related S G1) u v ↔
       nx.has_edge G u v ∨
       ∃ s r, s ∈ S ∧ r ∈ related s ∧
         r ∈ nx.nodes (interconnect related S G1) ∧
         ((u = s ∧ v = r) ∨ (u = r ∧ v = s))).
  { intros u v. unfold nx.has_edge.
    rewrite interconnect_adj, interconnect_nodes by done.
    unfold G1 at 1. rewrite adj_add_nodes_from. done. }
  exists (interconnect related S G1).
  split; [|split; [done|split; [done|]]].
  - rewrite (grow_run related fuel gs qs seeds graph G) by done.
    cbv zeta. fold (seed_set seeds). fold S. fold G1.
    rewrite grow_loop_graph_connected by done. simpl.
    by rewrite app_nil_r.
  - intros s r Hs Hr Hin Hnew Heq. apply Hnew. rewrite <- Heq at 1.
    apply Hedge. right. exists s, r. tauto.
Qed.

End grow_claims.

Lemma single_seed_boundary_witness :
  grow related_chain 0 ["a"%string] None (State [chain_graph] []) =
    (Return 1, State ([chain_graph] ++ [{["a"%string := ∅]}]) ([] ++ ["a"%string])) ∧
  paths_subgraph 0 ["a"%string] None (State [chain_graph] []) =
    (Return (1, ∅), State ([chain_graph] ++ [nx.empty]) []).
Proof.
  apply (single_seed_boundary related_chain 0 "a"%string
           (State [chain_graph] []) 0 chain_graph None).
  - apply (bool_decide_eq_true_1 ("a"%string ∉ related_chain "a"%string)).
    by vm_compute.
  - reflexivity.
Defined.

Lemma grow_on_connected_seeds_witness :
  ∃ G',
    grow related_chain 0 ["a"; "b"]%string (Some 0) (State [chain_graph] []) =
      (Return 1,
       State ([chain_graph] ++ [G'])
         ([] ++ elements (seed_set ["a"; "b"]%string))) ∧
    nx.nodes G' = nx.nodes chain_graph ∪ seed_set ["a"; "b"]%string ∧
    (∀ u v, nx.has_edge G' u v ↔
       nx.has_edge chain_graph u v ∨
       ∃ s r, s ∈ seed_set ["a"; "b"]%string ∧ r ∈ related_chain s ∧
         r ∈ nx.nodes G' ∧ ((u = s ∧ v = r) ∨ (u = r ∧ v = s))) ∧
    (∀ s r, s ∈ seed_set ["a"; "b"]%string → r ∈ related_chain s →
       r ∈ nx.nodes G' → ¬ nx.has_edge chain_graph s r → G' ≠ chain_graph).
Proof.
  apply (grow_on_connected_seeds related_chain 0 (State [chain_graph] [])
           ["a"; "b"]%string (Some 0) chain_graph).
  - reflexivity.
  - right. by vm_compute.
Defined.

(** C10 as it is stated fails in its last part: in the base graph
    [a - b] the seeds [a] and [b] are connected and [b], related to the seed
    [a], is a node, yet the graph [grow] returns has the nodes and edges of
    the base graph. *)
Lemma grow_on_connected_seeds_counterexample :
  "b"%string ∈ related_direct "a"%string ∧
  "b"%string ∈ nx.nodes one_edge ∧
  all_has_path one_edge (combinations2 (elements (seed_set ["a"; "b"]%string)))
    = Return true ∧
  grow related_direct 0 ["a"; "b"]%string (Some 0) (State [one_edge] []) =
    (Return 1, State [one_edge; one_edge] ["a"; "b"]%string).
Proof.
  split; [|split; [|split]].
  - apply (bool_decide_eq_true_1 ("b"%string ∈ related_direct "a"%string)).
    by vm_compute.
  - apply (bool_decide_eq_true_1 ("b"%string ∈ nx.nodes one_edge)).
    by vm_compute.
  - by vm_compute.
  - by vm_compute.
Qed.

(** C1, where the code departs from it: with the seeds [a] and [b] and
    the relation source [a -> {b}], the first round of the loop finds no new
    artist and adds the edge [a - b], which connects the seeds; [grow]
    raises all the same, since line 70 tests [new_artists] before the
    condition of the [while] is looked at again. *)
Theorem grow_raises_after_connecting fuel σ :
  grow related_direct (S fuel) ["a"; "b"]%string None σ =
    (Raise (RuntimeError "No new artists found."),
     State (graphs σ ++ [two_nodes; one_edge])
       (queries σ ++ ["a"; "b"]%string)) ∧
  nx.nodes one_edge ∖ nx.nodes two_nodes = ∅ ∧
  all_has_path one_edge (combinations2 (elements (seed_set ["a"; "b"]%string)))
    = Return true.
Proof.
  destruct σ as [gs qs]. simpl. split; [|split; by vm_compute].
  rewrite (grow_run related_direct (S fuel) gs qs _ None nx.empty) by done.
  cbv zeta.
  assert (grow_loop_graph related_direct (S fuel)
            (list_to_set ["a"; "b"]%string)
            (nx.add_nodes_from
               (elements (list_to_set (C := gset string) ["a"; "b"]%string))
               nx.empty)
            (list_to_set ["a"; "b"]%string) =
          Trace (Raise (RuntimeError "No new artists found."))
            [two_nodes] one_edge ["a"; "b"]%string) as ->
    by (by vm_compute).
  done.
Qed.

(** C2, where the code departs from it: in the end-to-end scenario
    [grow] does not return.  Its first round adds [x] and the edge [a - x];
    its second round adds the edge [x - b], which connects the seeds, finds
    no new artist, and raises.  The graph it has built by then is the one the
    claim names; on that graph [trim] and [paths_subgraph] do what the claim
    says. *)
Theorem end_to_end_scenario fuel σ :
  grow related_chain (S (S fuel)) ["a"; "b"]%string None σ =
    (Raise (RuntimeError "No new artists found."),
     State (graphs σ ++
              [two_nodes; nx.add_edge "a"%string "x"%string two_nodes;
               chain_graph])
       (queries σ ++ ["a"; "b"; "x"]%string)) ∧
  nx.nodes chain_graph = {["a"; "x"; "b"]}%string ∧
  trim 0 (seed_set ["a"; "b"]%string) (State [chain_graph] []) =
    (Return 1, State [chain_graph; chain_graph] []) ∧
  paths_subgraph 0 ["a"; "b"]%string None (State [chain_graph] []) =
    (Return (1, {[ ("a", "b")%string := [["a"; "x"; "b"]%string] ]}),
     State [chain_graph; chain_graph] []).
Proof.
  destruct σ as [gs qs]. simpl. split; [|split; [|split]; by vm_compute].
  rewrite (grow_run related_chain (S (S fuel)) gs qs _ None nx.empty) by done.
  cbv zeta.
  assert (grow_loop_graph related_chain (S (S fuel))
            (list_to_set ["a"; "b"]%string)
            (nx.add_nodes_from
               (elements (list_to_set (C := gset string) ["a"; "b"]%string))
               nx.empty)
            (list_to_set ["a"; "b"]%string) =
          Trace (Raise (RuntimeError "No new artists found."))
            [two_nodes; nx.add_edge "a"%string "x"%string two_nodes]
            chain_graph ["a"; "b"; "x"]%string) as ->
    by (by vm_compute).
  done.
Qed.

(** * The claim about the input graph *)

Section frame.
Implicit Types (gs : list (gmap string (gset string))) (qs : list string).

Lemma does_not_mutate_intro {A} (result_graph : A → nat) (m : M A) :
  (∀ gs qs, ∃ new,
     graphs (m (State gs qs)).2 = gs ++ new ∧
     ∀ a, (m (State gs qs)).1 = Return a →
       length gs ≤ result_graph a < length (gs ++ new)) →
  does_not_mutate result_graph m.
Proof.
  intros H [gs qs]. destruct (H gs qs) as (new & Heq & Hres). simpl. split.
  - intros l G Hl. rewrite Heq. by apply lookup_app_l_Some.
  - intros a Ha. destruct (Hres a Ha). split.
    + apply lookup_ge_None_2. lia.
    + rewrite Heq. apply lookup_lt_is_Some_2. lia.
Qed.

(** The base graph of [expand] and [grow]: there is one, or the
    reference names no object and the call raises at once. *)
Lemma base_graph_cases gs qs graph :
  (∃ G, base_graph gs graph G) ∨
  match graph with None => new_graph | Some graph => copy graph end
    (State gs qs) = (Raise InvalidReference, State gs qs).
Proof.
  destruct graph as [l|]; simpl; [|by left; eexists].
  destruct (gs !! l) as [G|] eqn:E; [by left; eexists|].
  right. by apply copy_invalid.
Qed.

Lemma expand_does_not_mutate related artists graph :
  does_not_mutate id (expand related artists graph).
Proof.
  apply does_not_mutate_intro. intros gs qs.
  destruct (base_graph_cases gs qs graph) as [[G HG]|Hbad].
  - rewrite (expand_run related gs qs artists graph G HG). simpl.
    eexists [_]. split; [done|]. intros a [= <-]. rewrite length_app.
    simpl. lia.
  - unfold expand. rewrite bind_run, Hbad. simpl.
    exists []. by rewrite app_nil_r.
Qed.

Lemma grow_does_not_mutate related fuel seeds graph :
  does_not_mutate id (grow related fuel seeds graph).
Proof.
  apply does_not_mutate_intro. intros gs qs.
  destruct (base_graph_cases gs qs graph) as [[G HG]|Hbad].
  - rewrite (grow_run related fuel gs qs seeds graph G HG). cbv zeta.
    destruct (ending _) as [new_artists| |]; simpl; eexists (_ ++ [_]);
      (split; [done|]); intros l [=]. subst l.
    rewrite !length_app. simpl. lia.
  - unfold grow. rewrite bind_run, Hbad. simpl.
    exists []. by rewrite app_nil_r.
Qed.

Lemma trim_does_not_mutate graph keepers :
  does_not_mutate id (trim graph keepers).
Proof.
  apply does_not_mutate_intro. intros gs qs.
  destruct (gs !! graph) as [G|] eqn:HG.
  - rewrite (trim_run gs qs graph G keepers HG). simpl.
    eexists [_]. split; [done|]. intros a [= <-]. rewrite length_app.
    simpl. lia.
  - unfold trim. rewrite bind_run, copy_invalid by done. simpl.
    exists []. by rewrite app_nil_r.
Qed.

Lemma paths_subgraph_does_not_mutate graph seeds max_len :
  does_not_mutate fst (paths_subgraph graph seeds max_len).
Proof.
  apply does_not_mutate_intro. intros gs qs.
  destruct (gs !! graph) as [G|] eqn:HG.
  - rewrite (paths_subgraph_run gs qs graph G seeds max_len HG).
    destruct (collect_pairs_graph _ _ _ _) as [paths| |]; simpl; eexists [_];
      (split; [done|]); intros r [=]. subst r.
    rewrite length_app. simpl. lia.
  - unfold paths_subgraph. rewrite bind_run, copy_invalid by done. simpl.
    exists []. by rewrite app_nil_r.
Qed.

End frame.

(** C8: none of [expand], [grow], [trim] and [paths_subgraph] mutates the
    graph it is given: every graph that exists when the operation is
    called has, when it returns or raises, the nodes and edges it had, and
    the graph that is returned is an object allocated during the call. *)
Theorem operations_do_not_mutate related fuel artists seeds
    (base : option nat) (graph : nat) keepers max_len :
  does_not_mutate id (expand related artists base) ∧
  does_not_mutate id (grow related fuel seeds base) ∧
  does_not_mutate id (trim graph keepers) ∧
  does_not_mutate fst (paths_subgraph graph seeds max_len).
Proof.
  split; [apply expand_does_not_mutate|].
  split; [apply grow_does_not_mutate|].
  split; [apply trim_does_not_mutate|apply paths_subgraph_does_not_mutate].
Qed.

(** * Further properties of [expand] *)

Section expand_facts.
Variable related : string → list string.
Implicit Types (G : gmap string (gset string)) (u v w a : string).
Implicit Types (A : gset string).

Lemma elem_of_adj_add_edge a b G u w :
  w ∈ nx.adj (nx.add_edge a b G) u ↔
    w ∈ nx.adj G u ∨ (u = a ∧ w = b) ∨ (u = b ∧ w = a).
Proof.
  rewrite adj_add_edge, !elem_of_union.
  repeat case_decide; rewrite ?elem_of_singleton, ?elem_of_empty; naive_solver.
Qed.

Lemma elem_of_adj_add_edges_from es G u w :
  w ∈ nx.adj (nx.add_edges_from es G) u ↔
    w ∈ nx.adj G u ∨ (u, w) ∈ es ∨ (w, u) ∈ es.
Proof.
  unfold nx.add_edges_from. revert G.
  induction es as [|[a b] es IH]; intros G; simpl.
  - rewrite !elem_of_nil. tauto.
  - rewrite IH, elem_of_adj_add_edge, !elem_of_cons. split.
    + intros [[?|[[-> ->]|[-> ->]]]|[?|?]]; auto.
    + intros [?|[[[= -> ->]|?]|[[= -> ->]|?]]]; auto.
Qed.

Lemma elem_of_nodes_add_edges_from es G v :
  v ∈ nx.nodes (nx.add_edges_from es G) ↔
    v ∈ nx.nodes G ∨ ∃ e, e ∈ es ∧ (v = e.1 ∨ v = e.2).
Proof.
  unfold nx.add_edges_from. revert G.
  induction es as [|[a b] es IH]; intros G; simpl.
  - split; [auto|]. intros [?|(e & ?%elem_of_nil & _)]; done.
  - rewrite IH, nodes_add_edge. split.
    + intros [Hv|(e & He & Hv)].
      * apply elem_of_union in Hv as [Hv|Hv]; [|by left].
        right. exists (a, b). split; [left|]. set_solver.
      * right. exists e. split; [by right|done].
    + intros [Hv|(e & [->|He]%elem_of_cons & Hv)].
      * left. set_solver.
      * left. simpl in Hv. set_solver.
      * right. eauto.
Qed.

(** The edges of one artist to its related artists, for the artists [xs]
    in turn (the loop of lines 33-35) *)
Lemma elem_of_adj_expand_loop (xs : list string) G u w :
  w ∈ nx.adj (foldl (λ G artist,
                 nx.add_edges_from (pair artist <$> related artist) G) G xs) u ↔
    w ∈ nx.adj G u ∨
    (u ∈ xs ∧ w ∈ related u) ∨ (w ∈ xs ∧ u ∈ related w).
Proof.
  revert G. induction xs as [|x xs IH]; intros G; simpl.
  - rewrite !elem_of_nil. tauto.
  - rewrite IH, elem_of_adj_add_edges_from, !list_elem_of_fmap, !elem_of_cons.
    split.
    + intros [[?|[(r & [= <- <-] & ?)|(r & [= <- <-] & ?)]]|[[? ?]|[? ?]]];
        auto 6.
    + intros [?|[[[->|?] ?]|[[->|?] ?]]]; auto.
      * left. right. left. eauto.
      * left. right. right. eauto.
Qed.

Lemma elem_of_nodes_expand_loop (xs : list string) G v :
  (∀ x, x ∈ xs → x ∈ nx.nodes G) →
  v ∈ nx.nodes (foldl (λ G artist,
                  nx.add_edges_from (pair artist <$> related artist) G) G xs) ↔
    v ∈ nx.nodes G ∨ ∃ a, a ∈ xs ∧ v ∈ related a.
Proof.
  revert G. induction xs as [|x xs IH]; intros G Hxs; simpl.
  - split; [auto|]. intros [?|(a & ?%elem_of_nil & _)]; done.
  - rewrite IH.
    + rewrite elem_of_nodes_add_edges_from. split.
      * intros [[?|(e & (r & -> & Hr)%list_elem_of_fmap & [->| ->])]
               |(a & ? & ?)]; simpl.
        -- by left.
        -- left. apply Hxs. by left.
        -- right. exists x. split; [by left|done].
        -- right. exists a. split; [by right|done].
      * intros [?|(a & [->|?]%elem_of_cons & Hr)]; [by left; left| |].
        -- left. right. exists (x, v). split; [|by right].
           apply list_elem_of_fmap. eauto.
        -- right. eauto.
    + intros y Hy. apply elem_of_nodes_add_edges_from. left.
      apply Hxs. by right.
Qed.

Lemma elem_of_nodes_expand_graph A G v :
  v ∈ nx.nodes (expand_graph related A G) ↔
    v ∈ nx.nodes G ∨ v ∈ A ∨ ∃ a, a ∈ A ∧ v ∈ related a.
Proof.
  unfold expand_graph. rewrite elem_of_nodes_expand_loop.
  - rewrite nodes_add_nodes_from, list_to_set_elements_L, elem_of_union.
    setoid_rewrite elem_of_elements. tauto.
  - intros x Hx. rewrite nodes_add_nodes_from, list_to_set_elements_L.
    apply elem_of_elements in Hx. set_solver.
Qed.

Lemma elem_of_adj_expand_graph A G u w :
  w ∈ nx.adj (expand_graph related A G) u ↔
    w ∈ nx.adj G u ∨ (u ∈ A ∧ w ∈ related u) ∨ (w ∈ A ∧ u ∈ related w).
Proof.
  unfold expand_graph.
  rewrite elem_of_adj_expand_loop, adj_add_nodes_from.
  by rewrite !elem_of_elements.
Qed.

Lemma nodes_expand_graph_mono A G : nx.nodes G ⊆ nx.nodes (expand_graph related A G).
Proof. intros v Hv. apply elem_of_nodes_expand_graph. by left. Qed.

(** Expanding the same artists once more changes nothing. *)
Lemma expand_graph_idemp A G :
  expand_graph related A (expand_graph related A G) = expand_graph related A G.
Proof.
  apply graph_eq.
  - apply set_eq. intros v. rewrite !elem_of_nodes_expand_graph. tauto.
  - intros u. apply set_eq. intros w. rewrite !elem_of_adj_expand_graph. tauto.
Qed.

End expand_facts.

(** X1: [expand] returns a new graph that holds the base graph, every
    artist of [artists] as a node (also one without related artists), the
    related artists as nodes, and exactly one more kind of edge: between an
    artist of [artists] and each of its related artists.  It asks for the
    related artists of each artist once. *)
Theorem expand_adds_related related σ (artists : list string) graph
    (G : gmap string (gset string)) :
  base_graph (graphs σ) graph G →
  ∃ G',
    expand related artists graph σ =
      (Return (length (graphs σ)),
       State (graphs σ ++ [G'])
         (queries σ ++ elements (list_to_set artists : gset string))) ∧
    (∀ v, v ∈ nx.nodes G' ↔
       v ∈ nx.nodes G ∨ v ∈ artists ∨ ∃ a, a ∈ artists ∧ v ∈ related a) ∧
    (∀ u v, nx.has_edge G' u v ↔
       nx.has_edge G u v ∨ (u ∈ artists ∧ v ∈ related u) ∨
       (v ∈ artists ∧ u ∈ related v)).
Proof.
  destruct σ as [gs qs]. simpl. intros Hbase.
  exists (expand_graph related (list_to_set artists) G).
  split; [by apply expand_run|]. split.
  - intros v. rewrite elem_of_nodes_expand_graph.
    by setoid_rewrite elem_of_list_to_set.
  - intros u v. unfold nx.has_edge. rewrite elem_of_adj_expand_graph.
    by rewrite !elem_of_list_to_set.
Qed.

Lemma expand_adds_related_witness :
  ∃ G',
    expand related_chain ["a"; "x"]%string (Some 0) (State [two_nodes] []) =
      (Return 1,
       State ([two_nodes] ++ [G'])
         ([] ++ elements (list_to_set ["a"; "x"]%string : gset string))) ∧
    (∀ v, v ∈ nx.nodes G' ↔
       v ∈ nx.nodes two_nodes ∨ v ∈ ["a"; "x"]%string ∨
       ∃ a, a ∈ ["a"; "x"]%string ∧ v ∈ related_chain a) ∧
    (∀ u v, nx.has_edge G' u v ↔
       nx.has_edge two_nodes u v ∨
       (u ∈ ["a"; "x"]%string ∧ v ∈ related_chain u) ∨
       (v ∈ ["a"; "x"]%string ∧ u ∈ related_chain v)).
Proof.
  apply (expand_adds_related related_chain (State [two_nodes] [])
           ["a"; "x"]%string (Some 0) two_nodes).
  reflexivity.
Defined.

(** X2: [expand] is idempotent: expanding the graph it returned with the
    same artists returns a graph with the same nodes and edges. *)
Theorem expand_idempotent related σ (artists : list string) graph
    (G : gmap string (gset string)) :
  base_graph (graphs σ) graph G →
  ∃ graph1 σ1 G1 graph2 σ2,
    expand related artists graph σ = (Return graph1, σ1) ∧
    graphs σ1 !! graph1 = Some G1 ∧
    expand related artists (Some graph1) σ1 = (Return graph2, σ2) ∧
    graphs σ2 !! graph2 = Some G1.
Proof.
  destruct σ as [gs qs]. simpl. intros Hbase.
  eexists _, _, (expand_graph related (list_to_set artists) G), _, _.
  split; [by apply expand_run|].
  split; [by apply list_lookup_middle|].
  split; [apply expand_run; simpl; by apply list_lookup_middle|].
  rewrite expand_graph_idemp. apply list_lookup_middle.
  by rewrite length_app.
Qed.

Lemma expand_idempotent_witness :
  ∃ graph1 σ1 G1 graph2 σ2,
    expand related_chain ["a"; "x"]%string None (State [] []) =
      (Return graph1, σ1) ∧
    graphs σ1 !! graph1 = Some G1 ∧
    expand related_chain ["a"; "x"]%string (Some graph1) σ1 =
      (Return graph2, σ2) ∧
    graphs σ2 !! graph2 = Some G1.
Proof.
  apply (expand_idempotent related_chain (State [] []) ["a"; "x"]%string
           None nx.empty).
  reflexivity.
Defined.

(** * Symmetry of adjacency is kept *)

Section store_wf_facts.
Variable related : string → list string.
Implicit Types (G : gmap string (gset string)) (qs : list string).
Implicit Types (gs : list (gmap string (gset string))).

Lemma store_wf_app gs new qs :
  Forall nx.wf gs → Forall nx.wf new → store_wf (State (gs ++ new) qs).
Proof. intros. by apply Forall_app. Qed.

Lemma base_graph_wf gs graph G :
  Forall nx.wf gs → base_graph gs graph G → nx.wf G.
Proof.
  intros Hgs. destruct graph as [l|]; simpl.
  - intros Hl. by eapply Forall_lookup_1.
  - intros ->. apply wf_empty.
Qed.

Lemma wf_abandoned fuel seeds G new_artists :
  nx.wf G →
  Forall nx.wf (abandoned (grow_loop_graph related fuel seeds G new_artists)).
Proof.
  revert G new_artists.
  induction fuel as [|fuel IH]; intros G new_artists Hwf; simpl;
    destruct (all_has_path G (combinations2 (elements seeds))) as [[]| |];
    simpl; try done.
  case_decide; simpl; [by repeat constructor|].
  constructor; [done|]. by apply IH, wf_expand_graph.
Qed.

Lemma expand_keeps_wf artists graph σ :
  store_wf σ → store_wf (expand related artists graph σ).2.
Proof.
  destruct σ as [gs qs]. unfold store_wf at 1. simpl. intros Hgs.
  destruct (base_graph_cases gs qs graph) as [[G HG]|Hbad].
  - rewrite (expand_run related gs qs artists graph G HG). simpl.
    apply store_wf_app; [done|]. repeat constructor.
    by eapply wf_expand_graph, base_graph_wf.
  - unfold expand. by rewrite bind_run, Hbad.
Qed.

Lemma grow_keeps_wf fuel (seeds : list string) graph σ :
  store_wf σ → store_wf (grow related fuel seeds graph σ).2.
Proof.
  destruct σ as [gs qs]. unfold store_wf at 1. simpl. intros Hgs.
  destruct (base_graph_cases gs qs graph) as [[G HG]|Hbad].
  - rewrite (grow_run related fuel gs qs seeds graph G HG). cbv zeta.
    pose proof (base_graph_wf _ _ _ Hgs HG) as HwfG.
    assert (Hwf1 : nx.wf (nx.add_nodes_from
                     (elements (list_to_set seeds : gset string)) G))
      by by apply wf_add_nodes_from.
    pose proof (wf_abandoned fuel (list_to_set seeds) _ (list_to_set seeds)
                  Hwf1) as Hab.
    pose proof (wf_grow_loop_graph related fuel (list_to_set seeds) _
                  (list_to_set seeds) Hwf1) as Hcur.
    destruct (ending _); simpl; apply store_wf_app; try done;
      apply Forall_app; split; try done; repeat constructor; try done.
    by apply wf_interconnect.
  - unfold grow. by rewrite bind_run, Hbad.
Qed.

Lemma trim_keeps_wf graph keepers σ :
  store_wf σ → store_wf (trim graph keepers σ).2.
Proof.
  destruct σ as [gs qs]. unfold store_wf at 1. simpl. intros Hgs.
  destruct (gs !! graph) as [G|] eqn:HG.
  - rewrite (trim_run gs qs graph G keepers HG). simpl.
    apply store_wf_app; [done|]. repeat constructor.
    apply wf_trim_graph. by eapply Forall_lookup_1.
  - unfold trim. by rewrite bind_run, copy_invalid.
Qed.

Lemma paths_subgraph_keeps_wf graph (seeds : list string) max_len σ :
  store_wf σ → store_wf (paths_subgraph graph seeds max_len σ).2.
Proof.
  destruct σ as [gs qs]. unfold store_wf at 1. simpl. intros Hgs.
  destruct (gs !! graph) as [G|] eqn:HG.
  - rewrite (paths_subgraph_run gs qs graph G seeds max_len HG).
    pose proof (Forall_lookup_1 _ _ _ _ Hgs HG) as HwfG.
    destruct (collect_pairs_graph _ _ _ _); simpl; apply store_wf_app;
      try done; repeat constructor; try done.
    by apply wf_reduced.
  - unfold paths_subgraph. by rewrite bind_run, copy_invalid.
Qed.

End store_wf_facts.

(** X3: the four operations keep adjacency symmetric: when [v] is a
    neighbour of [u] exactly if [u] is one of [v] in every graph of the
    store, the same holds after [expand], [grow], [trim] and
    [paths_subgraph], for the graphs they allocate too and also when they
    raise. *)
Theorem operations_keep_adjacency_symmetric related fuel
    (artists seeds : list string) (base : option nat) (graph : nat)
    keepers max_len σ :
  store_wf σ →
  store_wf (expand related artists base σ).2 ∧
  store_wf (grow related fuel seeds base σ).2 ∧
  store_wf (trim graph keepers σ).2 ∧
  store_wf (paths_subgraph graph seeds max_len σ).2.
Proof.
  intros Hσ. split; [by apply expand_keeps_wf|].
  split; [by apply grow_keeps_wf|].
  split; [by apply trim_keeps_wf|by apply paths_subgraph_keeps_wf].
Qed.

Lemma operations_keep_adjacency_symmetric_witness :
  store_wf (expand related_chain ["a"]%string (Some 0)
              (State [chain_graph] [])).2 ∧
  store_wf (grow related_chain 1 ["a"; "b"]%string (Some 0)
              (State [chain_graph] [])).2 ∧
  store_wf (trim 0 {["a"%string]} (State [chain_graph] [])).2 ∧
  store_wf (paths_subgraph 0 ["a"; "b"]%string None
              (State [chain_graph] [])).2.
Proof.
  apply (operations_keep_adjacency_symmetric related_chain 1 ["a"]%string
           ["a"; "b"]%string (Some 0) 0 {["a"%string]} None
           (State [chain_graph] [])).
  repeat constructor. apply chain_graph_wf.
Defined.

(** * Further properties of [grow] *)

Section grow_more.
Variable related : string → list string.
Implicit Types (G : gmap string (gset string)) (u v s t : string).
Implicit Types (seeds new_artists U : gset string).

Lemma has_path_nodes G s t b :
  nx.has_path G s t = Return b → s ∈ nx.nodes G ∧ t ∈ nx.nodes G.
Proof. unfold nx.has_path. by case_bool_decide. Qed.

Lemma has_path_outcome G s t :
  (∃ b, nx.has_path G s t = Return b) ∨ nx.has_path G s t = Raise NodeNotFound.
Proof. unfold nx.has_path. case_bool_decide; eauto. Qed.

(** A path that is there stays when nodes and edges are added. *)
Lemma has_path_mono G G' s t :
  nx.wf G → nx.wf G' → nx.nodes G ⊆ nx.nodes G' →
  (∀ u v, v ∈ nx.adj G u → v ∈ nx.adj G' u) →
  nx.has_path G s t = Return true → nx.has_path G' s t = Return true.
Proof.
  intros Hwf Hwf' Hn Hadj Hp.
  destruct (has_path_nodes _ _ _ _ Hp) as [Hs Ht].
  apply has_path_connected in Hp; [|done..].
  apply has_path_connected; [done|by apply Hn..|].
  eapply rtc_subrel; [|done]. intros u v. apply Hadj.
Qed.

Lemma has_path_sym G s t :
  nx.wf G → nx.has_path G s t = Return true → nx.has_path G t s = Return true.
Proof.
  intros Hwf Hp. destruct (has_path_nodes _ _ _ _ Hp) as [Hs Ht].
  apply has_path_connected in Hp; [|done..].
  apply has_path_connected; [done..|].
  induction Hp as [|u v w Huv _ IH]; [done|].
  eapply rtc_r; [by apply IH; [eapply adj_elem_node, wf_sym|]|].
  by apply wf_sym.
Qed.

Lemma has_path_refl G s :
  nx.wf G → s ∈ nx.nodes G → nx.has_path G s s = Return true.
Proof. intros. by apply has_path_connected. Qed.

Lemma all_has_path_true G pairs :
  all_has_path G pairs = Return true ↔
    ∀ pr, pr ∈ pairs → nx.has_path G pr.1 pr.2 = Return true.
Proof.
  induction pairs as [|pr pairs IH]; simpl.
  - split; [|done]. by intros _ pr ?%elem_of_nil.
  - split.
    + destruct (nx.has_path G pr.1 pr.2) as [[]| |] eqn:E; try done.
      intros H pr' [->|?]%elem_of_cons; [done|]. by apply IH.
    + intros H. rewrite (H pr) by left. apply IH. intros pr' ?.
      apply H. by right.
Qed.

Lemma all_has_path_outcome G pairs :
  (∀ pr, pr ∈ pairs → pr.1 ∈ nx.nodes G ∧ pr.2 ∈ nx.nodes G) →
  ∃ b, all_has_path G pairs = Return b.
Proof.
  induction pairs as [|pr pairs IH]; intros Hin; simpl; [by eexists|].
  unfold nx.has_path at 1.
  rewrite bool_decide_eq_true_2 by (apply Hin; left).
  case_bool_decide; [|by eexists]. apply IH. intros pr' ?. apply Hin.
  by right.
Qed.


(** Of two different entries of a list, [combinations2] has the pair in
    one order. *)
Lemma combinations2_covers {A} (xs : list A) (x y : A) :
  x ∈ xs → y ∈ xs → x ≠ y →
  (x, y) ∈ combinations2 xs ∨ (y, x) ∈ combinations2 xs.
Proof.
  induction xs as [|z xs IH]; simpl; [by intros ?%elem_of_nil|].
  intros [->|Hx]%elem_of_cons [->|Hy]%elem_of_cons Hne; try done.
  - left. apply elem_of_app. left. apply list_elem_of_fmap. eauto.
  - right. apply elem_of_app. left. apply list_elem_of_fmap. eauto.
  - destruct (IH Hx Hy Hne); [left|right]; apply elem_of_app; by right.
Qed.

(** Seeds that are connected pair by pair as [combinations] lists them are
    connected in both orders, and each to itself. *)
Lemma seeds_all_connected G seeds s t :
  nx.wf G → seeds ⊆ nx.nodes G →
  all_has_path G (combinations2 (elements seeds)) = Return true →
  s ∈ seeds → t ∈ seeds → nx.has_path G s t = Return true.
Proof.
  intros Hwf Hsub Hall Hs Ht. rewrite all_has_path_true in Hall.
  destruct (decide (s = t)) as [->|Hne]; [by apply has_path_refl, Hsub|].
  destruct (combinations2_covers (elements seeds) s t) as [Hpr|Hpr];
    [by apply elem_of_elements..|done| |].
  - by apply (Hall (s, t)).
  - by apply has_path_sym, (Hall (t, s)).
Qed.

Lemma link_loop_mono artist rs G :
  nx.nodes G ⊆ nx.nodes (foldl (λ G r, link artist r G) G rs) ∧
  ∀ u v, v ∈ nx.adj G u →
    v ∈ nx.adj (foldl (λ G r, link artist r G) G rs) u.
Proof.
  revert G. induction rs as [|r rs IH]; intros G; simpl; [done|].
  destruct (IH (link artist r G)) as [Hn Hadj]. split.
  - etrans; [|exact Hn]. unfold link. case_decide; [|done].
    rewrite nodes_add_edge. set_solver.
  - intros u v Huv. apply Hadj. rewrite (elem_of_adj_link related). by left.
Qed.

Lemma interconnect_mono new_artists G :
  nx.nodes G ⊆ nx.nodes (interconnect related new_artists G) ∧
  ∀ u v, v ∈ nx.adj G u → v ∈ nx.adj (interconnect related new_artists G) u.
Proof.
  unfold interconnect. generalize (elements new_artists). intros xs.
  revert G. induction xs as [|x xs IH]; intros G; simpl; [done|].
  destruct (link_loop_mono x (related x) G) as [Hn Hadj].
  destruct (IH (foldl (λ G r, link x r G) G (related x))) as [Hn' Hadj'].
  split; [by etrans|]. auto.
Qed.

Lemma expand_graph_mono (A : gset string) G :
  nx.nodes G ⊆ nx.nodes (expand_graph related A G) ∧
  ∀ u v, v ∈ nx.adj G u → v ∈ nx.adj (expand_graph related A G) u.
Proof.
  split.
  - intros v ?. apply elem_of_nodes_expand_graph. by left.
  - intros u v ?. apply elem_of_adj_expand_graph. by left.
Qed.

(** The graph the loop ends with holds the graph it started from. *)
Lemma grow_loop_graph_mono fuel seeds G new_artists :
  nx.nodes G ⊆
    nx.nodes (current (grow_loop_graph related fuel seeds G new_artists)) ∧
  ∀ u v, v ∈ nx.adj G u →
    v ∈ nx.adj (current (grow_loop_graph related fuel seeds G new_artists)) u.
Proof.
  revert G new_artists.
  induction fuel as [|fuel IH]; intros G new_artists; simpl;
    destruct (all_has_path G (combinations2 (elements seeds))) as [[]| |];
    simpl; try done.
  destruct (expand_graph_mono new_artists G) as [Hn Hadj].
  case_decide; simpl; [done|].
  destruct (IH (expand_graph related new_artists G)
              (nx.nodes (expand_graph related new_artists G) ∖ nx.nodes G))
    as [Hn' Hadj'].
  split; [by etrans|]. auto.
Qed.

(** When the loop is left regularly the seeds are connected. *)
Lemma grow_loop_graph_returns fuel seeds G new_artists new_artists' :
  ending (grow_loop_graph related fuel seeds G new_artists)
    = Return new_artists' →
  all_has_path (current (grow_loop_graph related fuel seeds G new_artists))
    (combinations2 (elements seeds)) = Return true.
Proof.
  revert G new_artists.
  induction fuel as [|fuel IH]; intros G new_artists; simpl;
    destruct (all_has_path G (combinations2 (elements seeds)))
      as [[]| |] eqn:Hc; simpl; try done.
  case_decide; simpl; [done|]. apply IH.
Qed.



End grow_more.

(** What [grow] returns, whenever it returns. *)
Lemma grow_returns_spec related fuel gs qs (seeds : list string) graph
    (G : gmap string (gset string)) graph' σ' :
  base_graph gs graph G → nx.wf G →
  grow related fuel seeds graph (State gs qs) = (Return graph', σ') →
  ∃ G', graphs σ' !! graph' = Some G' ∧ nx.wf G' ∧
    seed_set seeds ⊆ nx.nodes G' ∧
    (∀ s t, s ∈ seed_set seeds → t ∈ seed_set seeds →
       nx.has_path G' s t = Return true) ∧
    nx.nodes G ⊆ nx.nodes G' ∧
    (∀ u v, nx.has_edge G u v → nx.has_edge G' u v).
Proof.
  intros Hbase Hwf.
  rewrite (grow_run related fuel gs qs seeds graph G Hbase). cbv zeta.
  fold (seed_set seeds). set (S := seed_set seeds).
  set (G1 := nx.add_nodes_from (elements S) G).
  set (t := grow_loop_graph related fuel S G1 S).
  destruct (ending t) as [new_artists| |] eqn:Hend; [|done..].
  intros [= <- <-]. simpl.
  exists (interconnect related new_artists (current t)).
  assert (Hwf1 : nx.wf G1) by by apply wf_add_nodes_from.
  assert (Hwft : nx.wf (current t)) by by apply wf_grow_loop_graph.
  assert (Hwf' : nx.wf (interconnect related new_artists (current t)))
    by by apply wf_interconnect.
  assert (HS1 : S ⊆ nx.nodes G1).
  { unfold G1. rewrite nodes_add_nodes_from, list_to_set_elements_L.
    set_solver. }
  destruct (grow_loop_graph_mono related fuel S G1 S) as [Hn1 Hadj1].
  fold t in Hn1, Hadj1.
  destruct (interconnect_mono related new_artists (current t)) as [Hn2 Hadj2].
  split; [rewrite app_assoc; by apply list_lookup_middle|].
  split; [done|]. split; [|split; [|split]].
  - etrans; [exact HS1|]. by etrans.
  - intros s t' Hs Ht.
    apply (has_path_mono (current t)); [done..|].
    apply (seeds_all_connected _ S); [done|by etrans| |done..].
    by eapply grow_loop_graph_returns.
  - etrans; [|exact Hn2]. etrans; [|exact Hn1]. unfold G1.
    rewrite nodes_add_nodes_from. set_solver.
  - intros u v Huv. apply Hadj2, Hadj1. unfold G1.
    by rewrite adj_add_nodes_from.
Qed.

(** X4: when [grow] returns, from a base graph with symmetric adjacency,
    the graph it returns holds every seed as a node and the base graph
    with all its edges, and [nx.has_path] holds between any two seeds. *)
Theorem grow_returns_connected related fuel σ (seeds : list string) graph
    (G : gmap string (gset string)) graph' σ' :
  base_graph (graphs σ) graph G → nx.wf G →
  grow related fuel seeds graph σ = (Return graph', σ') →
  ∃ G', graphs σ' !! graph' = Some G' ∧
    (∀ s, s ∈ seeds → s ∈ nx.nodes G') ∧
    (∀ s t, s ∈ seeds → t ∈ seeds → nx.has_path G' s t = Return true) ∧
    nx.nodes G ⊆ nx.nodes G' ∧
    (∀ u v, nx.has_edge G u v → nx.has_edge G' u v).
Proof.
  destruct σ as [gs qs]. simpl. intros Hbase Hwf Hrun.
  destruct (grow_returns_spec _ _ _ _ _ _ _ _ _ Hbase Hwf Hrun)
    as (G' & Hlk & _ & Hsub & Hconn & Hn & Hadj).
  exists G'. split; [done|]. split; [|split; [|done]].
  - intros s Hs. apply Hsub. by apply elem_of_list_to_set.
  - intros s t Hs Ht. apply Hconn; by apply elem_of_list_to_set.
Qed.

Lemma grow_returns_connected_witness :
  ∃ G',
    graphs (State [two_nodes;
                   nx.add_edges_from [("a", "x"); ("b", "x")]%string two_nodes]
              ["a"; "b"; "x"]%string) !! 1 = Some G' ∧
    (∀ s, s ∈ ["a"; "b"]%string → s ∈ nx.nodes G') ∧
    (∀ s t, s ∈ ["a"; "b"]%string → t ∈ ["a"; "b"]%string →
       nx.has_path G' s t = Return true) ∧
    nx.nodes nx.empty ⊆ nx.nodes G' ∧
    (∀ u v, nx.has_edge nx.empty u v → nx.has_edge G' u v).
Proof.
  apply (grow_returns_connected related_meet 1 (State [] [])
           ["a"; "b"]%string None nx.empty 1).
  - reflexivity.
  - apply wf_empty.
  - by vm_compute.
Defined.





Section grow_stall.
Variable related : string → list string.
Implicit Types (G : gmap string (gset string)).

Lemma expand_graph_no_new (A : gset string) G :
  A ⊆ nx.nodes G → (∀ a r, a ∈ A → r ∈ related a → r ∈ nx.nodes G) →
  nx.nodes (expand_graph related A G) ∖ nx.nodes G = ∅.
Proof.
  intros HA Hrel. apply set_eq. intros v.
  rewrite elem_of_difference, elem_of_nodes_expand_graph.
  split; [|by intros ?%elem_of_empty].
  intros [[?|[?|(a & ? & ?)]] Hv]; exfalso; apply Hv; eauto.
Qed.

End grow_stall.

(** X7: [grow] stalls in its first round when the seeds are not connected
    at the start and every related artist of every seed is already a node
    of the base graph or a seed, in particular when no seed has a
    related artist: with fuel for one round it raises the [RuntimeError] of
    line 71, having queried each seed once. *)
Theorem grow_stalls_at_once related fuel σ (seeds : list string) graph
    (G : gmap string (gset string)) :
  base_graph (graphs σ) graph G →
  all_has_path (nx.add_nodes_from (elements (seed_set seeds)) G)
    (combinations2 (elements (seed_set seeds))) = Return false →
  (∀ s r, s ∈ seeds → r ∈ related s → r ∈ nx.nodes G ∨ r ∈ seeds) →
  ∃ G1,
    grow related (S fuel) seeds graph σ =
      (Raise (RuntimeError "No new artists found."),
       State (graphs σ ++
                [nx.add_nodes_from (elements (seed_set seeds)) G; G1])
         (queries σ ++ elements (seed_set seeds))).
Proof.
  destruct σ as [gs qs]. simpl. intros Hbase Hc Hrel.
  rewrite (grow_run related (S fuel) gs qs seeds graph G Hbase). cbv zeta.
  fold (seed_set seeds). simpl. rewrite Hc.
  rewrite decide_True; [simpl; by eexists|].
  apply expand_graph_no_new.
  - rewrite nodes_add_nodes_from, list_to_set_elements_L. set_solver.
  - intros a r Ha Hr. rewrite nodes_add_nodes_from, list_to_set_elements_L.
    unfold seed_set in *. apply elem_of_list_to_set in Ha.
    destruct (Hrel a r Ha Hr); set_solver.
Qed.

Lemma grow_stalls_at_once_witness :
  ∃ G1,
    grow (λ _, []) 1 ["a"; "b"]%string None (State [] []) =
      (Raise (RuntimeError "No new artists found."),
       State ([] ++
                [nx.add_nodes_from (elements (seed_set ["a"; "b"]%string))
                   nx.empty; G1])
         ([] ++ elements (seed_set ["a"; "b"]%string))).
Proof.
  apply (grow_stalls_at_once (λ _, []) 0 (State [] []) ["a"; "b"]%string
           None nx.empty).
  - reflexivity.
  - by vm_compute.
  - intros s r _ Hr. by apply elem_of_nil in Hr.
Defined.

(** * Further properties of [trim] *)

Section trim_more.
Implicit Types (G : gmap string (gset string)) (K S : gset string).
Implicit Types (p : list string) (u v x s t : string).

(** The rounds of the loop remove nodes and, with them, their edges; the
    edges between the nodes that stay are left. *)
Lemma trim_graph_adj fuel G K u :
  u ∈ nx.nodes (trim_graph fuel G K).2 →
  nx.adj (trim_graph fuel G K).2 u =
    nx.adj G u ∖ (nx.nodes G ∖ nx.nodes (trim_graph fuel G K).2).
Proof.
  revert G. induction fuel as [|fuel IH]; intros G; simpl.
  - intros _. apply set_eq. intros v. set_solver.
  - destruct (decide (leaves G K = [])) as [|Hne]; simpl.
    { intros _. apply set_eq. intros v. set_solver. }
    intros Hu. rewrite IH by done.
    pose proof (trim_graph_subgraph fuel
                  (nx.remove_nodes_from (leaves G K) G) K) as Hsub.
    rewrite nodes_remove_leaves in *.
    assert (u ∉ leaves G K).
    { apply Hsub in Hu. set_solver. }
    rewrite adj_remove_nodes_from;
      [|apply leaves_NoDup|by intros n [? _]%elem_of_leaves|done].
    apply set_eq. intros v.
    rewrite !elem_of_difference, elem_of_list_to_set.
    split.
    + intros [[? ?] ?]. split; [done|]. intros [? ?]. tauto.
    + intros [? Hv]. split; [split; [done|]|].
      * intros Hl. apply Hv. split; [by apply elem_of_leaves in Hl as [? _]|].
        intros Hr. apply Hsub in Hr. set_solver.
      * intros [[? ?] ?]. tauto.
Qed.

(** A set of nodes in which every node that is not a keeper has two
    neighbours, or a loop and a neighbour, within the set loses no node. *)
Lemma trim_graph_two_core fuel G K S :
  S ⊆ nx.nodes G →
  (∀ x, x ∈ S → x ∈ K ∨ 2 ≤ degree_within G S x) →
  S ⊆ nx.nodes (trim_graph fuel G K).2.
Proof.
  revert G. induction fuel as [|fuel IH]; intros G HS Hdeg; simpl; [done|].
  destruct (decide (leaves G K = [])) as [|Hne]; simpl; [done|].
  assert (Hdisj : ∀ x, x ∈ S → x ∉ leaves G K).
  { intros x Hx [_ [Hlt HK]]%elem_of_leaves.
    destruct (Hdeg x Hx) as [|Hge]; [done|].
    unfold degree_within in Hge. unfold nx.degree in Hlt.
    assert (size (nx.adj G x ∩ S) ≤ size (nx.adj G x))
      by (apply subseteq_size; set_solver).
    lia. }
  apply IH.
  - rewrite nodes_remove_leaves. intros x Hx. apply elem_of_difference.
    split; [by apply HS|]. rewrite elem_of_list_to_set. by apply Hdisj.
  - intros x Hx. destruct (Hdeg x Hx) as [|Hge]; [by left|]. right.
    unfold degree_within in *.
    rewrite adj_remove_nodes_from;
      [|apply leaves_NoDup|by intros n [? _]%elem_of_leaves|by apply Hdisj].
    assert (Heq : (nx.adj G x ∖ list_to_set (leaves G K)) ∩ S
                  = nx.adj G x ∩ S).
    { apply set_eq. intros v.
      rewrite !elem_of_intersection, elem_of_difference, elem_of_list_to_set.
      split; [tauto|]. intros [? Hv]. split; [|done]. split; [done|].
      by apply Hdisj. }
    rewrite Heq.
    assert (Hloop : bool_decide (x ∈ nx.adj G x ∖ list_to_set (leaves G K))
                    = bool_decide (x ∈ nx.adj G x)).
    { apply bool_decide_ext. rewrite elem_of_difference, elem_of_list_to_set.
      split; [tauto|]. intros ?. split; [done|]. by apply Hdisj. }
    by rewrite Hloop.
Qed.

Lemma trimmed_induced G K : nx.wf G → induced_subgraph (trimmed G K) G.
Proof.
  intros Hwf. unfold trimmed.
  pose proof (trim_graph_subgraph (S (size (nx.nodes G))) G K) as Hsub.
  split; [done|]. intros u v. unfold nx.has_edge. split.
  - intros Hv. pose proof (adj_elem_node _ _ _ Hv) as Hu.
    rewrite trim_graph_adj in Hv by done.
    apply elem_of_difference in Hv as [Hv Hkeep].
    split; [done|]. split; [done|].
    destruct (decide (v ∈ nx.nodes (trim_graph (S (size (nx.nodes G))) G K).2))
      as [|Hnot]; [done|].
    exfalso. apply Hkeep. apply elem_of_difference. split; [|done].
    eapply adj_elem_node, wf_sym; eauto.
  - intros (Hv & Hu & Hv'). rewrite trim_graph_adj by done.
    apply elem_of_difference. split; [done|]. set_solver.
Qed.

Lemma chain_induced G' G p :
  induced_subgraph G' G → (∀ v, v ∈ p → v ∈ nx.nodes G') →
  nx.chain G p → nx.chain G' p.
Proof.
  intros [_ Hedge]. induction p as [|u p IH]; [done|].
  destruct p as [|v p]; [done|]. intros Hin [Huv Hch]. split.
  - apply Hedge. split; [done|]. split; apply Hin; set_solver.
  - apply IH; [|done]. intros w Hw. apply Hin. by right.
Qed.

Lemma chain_subgraph G' G p :
  induced_subgraph G' G → nx.chain G' p → nx.chain G p.
Proof.
  intros [_ Hedge]. induction p as [|u p IH]; [done|].
  destruct p as [|v p]; [done|]. intros [Huv Hch]. split.
  - by apply Hedge in Huv as [? _].
  - by apply IH.
Qed.

(** On a simple path a node other than the two ends has two neighbours
    on the path. *)
Lemma simple_path_inner_degree G s t p x :
  nx.wf G → nx.simple_path G s t p → x ∈ p → x ≠ s → x ≠ t →
  2 ≤ degree_within G (list_to_set p) x.
Proof.
  intros Hwf (Hh & Hl & Hnd & Hin & Hch) Hx Hxs Hxt.
  apply list_elem_of_split in Hx as (p1 & p2 & ->).
  destruct p1 as [|y p1 _] using rev_ind; [simplify_eq/=|].
  destruct p2 as [|z p2].
  { rewrite last_snoc in Hl. simplify_eq. }
  rewrite <- app_assoc in *. simpl in *.
  apply chain_suffix in Hch as [Hyx [Hxz _]].
  apply wf_sym in Hyx; [|done].
  assert (Hyz : y ≠ z).
  { intros ->. apply NoDup_app in Hnd as (_ & _ & Hnd).
    apply NoDup_cons in Hnd as [Hnot _]. apply Hnot. set_solver. }
  unfold degree_within.
  assert ({[y; z]} ⊆ nx.adj G x ∩ list_to_set (p1 ++ y :: x :: z :: p2))
    as Hsub%subseteq_size.
  { intros w. rewrite elem_of_intersection, elem_of_list_to_set.
    intros [->%elem_of_singleton| ->%elem_of_singleton]%elem_of_union;
      (split; [done|]); set_solver. }
  rewrite size_union, !size_singleton in Hsub by set_solver. lia.
Qed.

(** Trimming with both ends kept loses no simple path between them and
    adds none. *)
Lemma trimmed_simple_path G K s t p :
  nx.wf G → s ∈ K → t ∈ K →
  nx.simple_path (trimmed G K) s t p ↔ nx.simple_path G s t p.
Proof.
  intros Hwf Hs Ht. pose proof (trimmed_induced G K Hwf) as Hind.
  split.
  - intros (Hh & Hl & Hnd & Hin & Hch). repeat split; try done.
    + intros v Hv. by apply Hind, Hin.
    + by eapply chain_subgraph.
  - intros Hp. pose proof Hp as (Hh & Hl & Hnd & Hin & Hch).
    assert (Hkeep : list_to_set p ⊆ nx.nodes (trimmed G K)).
    { apply trim_graph_two_core.
      - intros v Hv%elem_of_list_to_set. by apply Hin.
      - intros x Hx%elem_of_list_to_set.
        destruct (decide (x = s)) as [->|]; [by left|].
        destruct (decide (x = t)) as [->|]; [by left|].
        right. by eapply simple_path_inner_degree. }
    assert (Hin' : ∀ v, v ∈ p → v ∈ nx.nodes (trimmed G K)).
    { intros v Hv. apply Hkeep. by apply elem_of_list_to_set. }
    repeat split; try done. by eapply chain_induced.
Qed.

End trim_more.

(** X8: [trim] returns an induced subgraph of the graph it is given: its
    nodes are nodes of that graph, and its edges are exactly the edges of
    that graph between them. *)
Theorem trim_returns_induced_subgraph σ graph
    (G : gmap string (gset string)) keepers :
  graphs σ !! graph = Some G → nx.wf G →
  ∃ G',
    trim graph keepers σ =
      (Return (length (graphs σ)), State (graphs σ ++ [G']) (queries σ)) ∧
    induced_subgraph G' G.
Proof.
  destruct σ as [gs qs]. simpl. intros Hg Hwf. exists (trimmed G keepers).
  split; [by apply trim_run|by apply trimmed_induced].
Qed.

Lemma trim_returns_induced_subgraph_witness :
  ∃ G',
    trim 0 ∅ (State [triangle_tail] []) =
      (Return 1, State ([triangle_tail] ++ [G']) []) ∧
    induced_subgraph G' triangle_tail.
Proof.
  apply (trim_returns_induced_subgraph (State [triangle_tail] []) 0
           triangle_tail ∅).
  - reflexivity.
  - apply wf_check. by vm_compute.
Defined.

(** X9: [trim] removes no more than it must: a set of nodes in which
    every node that is not a keeper has degree 2 or more within the set
    (a cycle, for one) is left whole.  With C6 this makes the nodes of
    the result the largest such set. *)
Theorem trim_keeps_two_core σ graph (G : gmap string (gset string))
    keepers (S : gset string) :
  graphs σ !! graph = Some G → S ⊆ nx.nodes G →
  (∀ x, x ∈ S → x ∈ keepers ∨ 2 ≤ degree_within G S x) →
  ∃ G',
    trim graph keepers σ =
      (Return (length (graphs σ)), State (graphs σ ++ [G']) (queries σ)) ∧
    S ⊆ nx.nodes G'.
Proof.
  destruct σ as [gs qs]. simpl. intros Hg HS Hdeg.
  exists (trimmed G keepers).
  split; [by apply trim_run|by apply trim_graph_two_core].
Qed.

Lemma trim_keeps_two_core_witness :
  ∃ G',
    trim 0 ∅ (State [triangle_tail] []) =
      (Return 1, State ([triangle_tail] ++ [G']) []) ∧
    ({["a"; "b"; "c"]}%string : gset string) ⊆ nx.nodes G'.
Proof.
  apply (trim_keeps_two_core (State [triangle_tail] []) 0 triangle_tail ∅
           {["a"; "b"; "c"]}%string).
  - reflexivity.
  - apply (bool_decide_eq_true_1
             (({["a"; "b"; "c"]}%string : gset string)
                ⊆ nx.nodes triangle_tail)).
    by vm_compute.
  - intros x Hx. right. apply elem_of_union in Hx as [Hx|Hx];
      [apply elem_of_union in Hx as [Hx|Hx]|];
      apply elem_of_singleton in Hx as ->; vm_compute; lia.
Defined.

(** X14: [trim] is transparent for the paths between keepers: when [s]
    and [t] are keepers, the simple paths from [s] to [t] in the graph
    [trim] returns are exactly those in the graph it is given. *)
Theorem trim_keeps_paths_between_keepers σ graph
    (G : gmap string (gset string)) keepers s t :
  graphs σ !! graph = Some G → nx.wf G → s ∈ keepers → t ∈ keepers →
  ∃ G',
    trim graph keepers σ =
      (Return (length (graphs σ)), State (graphs σ ++ [G']) (queries σ)) ∧
    ∀ p, nx.simple_path G' s t p ↔ nx.simple_path G s t p.
Proof.
  destruct σ as [gs qs]. simpl. intros Hg Hwf Hs Ht.
  exists (trimmed G keepers).
  split; [by apply trim_run|]. intros p. by apply trimmed_simple_path.
Qed.

Lemma trim_keeps_paths_between_keepers_witness :
  ∃ G',
    trim 0 {["b"; "d"]}%string (State [triangle_tail] []) =
      (Return 1, State ([triangle_tail] ++ [G']) []) ∧
    ∀ p, nx.simple_path G' "b"%string "d"%string p ↔
         nx.simple_path triangle_tail "b"%string "d"%string p.
Proof.
  apply (trim_keeps_paths_between_keepers (State [triangle_tail] []) 0
           triangle_tail {["b"; "d"]}%string "b"%string "d"%string).
  - reflexivity.
  - apply wf_check. by vm_compute.
  - set_solver.
  - set_solver.
Defined.

(** * Further properties of [paths_subgraph] *)

Section paths_more.
Implicit Types (G : gmap string (gset string)) (p q : list string).
Implicit Types (paths : gmap (string * string) (list (list string))).
Implicit Types (pr : string * string) (s t : string).

(** What asking the generator for the paths between [s] and [t] gives. *)
Lemma shortest_simple_paths_cases G s t :
  nx.wf G →
  (∃ gen p0, nx.shortest_simple_paths G s t = Return gen ∧
             nx.simple_path G s t p0) ∨
  (nx.shortest_simple_paths G s t = Raise NodeNotFound ∧
   (s ∉ nx.nodes G ∨ t ∉ nx.nodes G)) ∨
  (nx.shortest_simple_paths G s t = Raise NetworkXNoPath ∧
   s ∈ nx.nodes G ∧ t ∈ nx.nodes G ∧ ¬ ∃ p, nx.simple_path G s t p).
Proof.
  intros Hwf.
  destruct (decide (s ∈ nx.nodes G)) as [Hs|Hs];
    [destruct (decide (t ∈ nx.nodes G)) as [Ht|Ht]|].
  - destruct (simple_path_dec G s t Hwf Hs) as [[p0 Hp0]|Hno].
    + left. destruct (shortest_simple_paths_yields G s t p0 Hwf Hp0)
        as (gen & ? & _). eauto.
    + right. right. by rewrite shortest_simple_paths_no_path.
  - right. left. unfold nx.shortest_simple_paths.
    rewrite bool_decide_eq_true_2, bool_decide_eq_false_2 by done. auto.
  - right. left. unfold nx.shortest_simple_paths.
    rewrite bool_decide_eq_false_2 by done. auto.
Qed.

Lemma collect_pairs_graph_outcome G pairs max_len paths :
  nx.wf G →
  match collect_pairs_graph G pairs max_len paths with
  | Return _ => ∀ pr, pr ∈ pairs → ∃ p, nx.simple_path G pr.1 pr.2 p
  | Raise e =>
      ∃ pr, pr ∈ pairs ∧
        ((e = NodeNotFound ∧ (pr.1 ∉ nx.nodes G ∨ pr.2 ∉ nx.nodes G)) ∨
         (e = NetworkXNoPath ∧ pr.1 ∈ nx.nodes G ∧ pr.2 ∈ nx.nodes G ∧
          ¬ ∃ p, nx.simple_path G pr.1 pr.2 p))
  | OutOfFuel => False
  end.
Proof.
  intros Hwf. revert paths.
  induction pairs as [|pr pairs IH]; intros paths; simpl.
  { by intros pr ?%elem_of_nil. }
  destruct (shortest_simple_paths_cases G pr.1 pr.2 Hwf)
    as [(gen & p0 & -> & Hp0)|[[-> ?]|[-> ?]]].
  - specialize (IH (collect pr gen max_len (<[pr:=[]]> paths))).
    destruct (collect_pairs_graph G pairs max_len _) as [tbl|e|].
    + intros pr' [->|?]%elem_of_cons; eauto.
    + destruct IH as (pr' & ? & ?). exists pr'. split; [by right|done].
    + done.
  - exists pr. split; [by left|]. by left.
  - exists pr. split; [by left|]. by right.
Qed.

Lemma induced_subgraph_trans G1 G2 G3 :
  induced_subgraph G1 G2 → induced_subgraph G2 G3 → induced_subgraph G1 G3.
Proof.
  intros [Hn12 He12] [Hn23 He23]. split; [by etrans|].
  intros u v. rewrite He12, He23. split; [tauto|].
  intros (? & ? & ?). auto 10.
Qed.

Lemma reduced_induced G paths : nx.wf G → induced_subgraph (reduced G paths) G.
Proof.
  intros Hwf. split.
  - rewrite nodes_reduced. set_solver.
  - intros u v. unfold nx.has_edge. split.
    + intros Hv. pose proof (adj_elem_node _ _ _ Hv) as Hu.
      rewrite adj_reduced in Hv by done.
      apply elem_of_difference in Hv as [Hv Hkeep].
      split; [done|]. split; [done|].
      rewrite nodes_reduced. apply elem_of_intersection.
      assert (v ∈ nx.nodes G) by (eapply adj_elem_node, wf_sym; eauto).
      split; [done|].
      destruct (decide (v ∈ path_nodes paths)); [done|]. set_solver.
    + intros (Hv & Hu & Hv'). rewrite adj_reduced by done.
      rewrite nodes_reduced in Hv'. set_solver.
Qed.

(** Of the paths yielded shortest first, those kept without a bound are
    the shortest ones. *)
Lemma elem_of_kept_shortest G s t p0 p :
  nx.wf G → nx.simple_path G s t p0 →
  p ∈ kept None (yielded G (s, t)) ↔ shortest_path G s t p.
Proof.
  intros Hwf Hp0.
  destruct (yielded_spec G s t p0 Hwf Hp0) as (Hnd & Hsorted & Hspec).
  unfold shortest_path. simpl.
  destruct (yielded G (s, t)) as [|p1 gen] eqn:Hgen.
  { apply Hspec in Hp0. by apply elem_of_nil in Hp0. }
  apply StronglySorted_inv in Hsorted as [_ Hmin].
  rewrite Forall_forall in Hmin.
  assert (Hfirst : ∀ q, nx.simple_path G s t q → length p1 ≤ length q).
  { intros q [->|Hq]%Hspec%elem_of_cons; [done|]. by apply Hmin. }
  rewrite list_elem_of_filter, Hspec. split.
  - intros [Hle Hp]. split; [done|]. intros q Hq%Hfirst. lia.
  - intros [Hp Hleast]. split; [|done].
    assert (length p ≤ length p1); [|lia].
    apply Hleast, Hspec. set_solver.
Qed.

(** Between two nodes that some path joins there is a shortest path. *)
Lemma shortest_path_exists G s t p0 :
  nx.wf G → nx.simple_path G s t p0 → ∃ p, shortest_path G s t p.
Proof.
  intros Hwf Hp0.
  destruct (yielded_spec G s t p0 Hwf Hp0) as (_ & _ & Hspec).
  destruct (yielded G (s, t)) as [|p1 gen] eqn:Hgen.
  { apply Hspec in Hp0. by apply elem_of_nil in Hp0. }
  exists p1. apply (elem_of_kept_shortest G s t p0); [done..|].
  rewrite Hgen. simpl. rewrite filter_cons_True by lia. by left.
Qed.

Lemma kept_sorted max_len (gen : list (list string)) :
  StronglySorted nx.shorter gen → StronglySorted nx.shorter (kept max_len gen).
Proof.
  intros Hs.
  assert (Hf : ∀ (P : list string → Prop) `{!∀ x, Decision (P x)},
            StronglySorted nx.shorter (filter P gen)).
  { intros P ?. induction Hs as [|x l Hs IH Hall]; [constructor|].
    rewrite filter_cons. case_decide; [|done]. constructor; [done|].
    rewrite Forall_forall in *. intros y [_ ?]%list_elem_of_filter. auto. }
  destruct max_len as [m|]; simpl; [apply Hf|].
  destruct gen; [constructor|apply Hf].
Qed.

Lemma elem_of_kept max_len (gen : list (list string)) p :
  p ∈ kept max_len gen → p ∈ gen.
Proof.
  destruct max_len as [m|]; simpl.
  - by intros [_ ?]%list_elem_of_filter.
  - destruct gen; [done|]. by intros [_ ?]%list_elem_of_filter.
Qed.

Lemma kept_NoDup max_len (gen : list (list string)) :
  NoDup gen → NoDup (kept max_len gen).
Proof.
  intros Hnd. destruct max_len as [m|]; simpl; [by apply NoDup_filter|].
  destruct gen; [done|by apply NoDup_filter].
Qed.

(** What [paths_subgraph] returns, whenever it returns. *)
Lemma paths_subgraph_returns gs qs graph G (seeds : list string) max_len
    graph' paths σ' :
  gs !! graph = Some G → nx.wf G →
  paths_subgraph graph seeds max_len (State gs qs)
    = (Return (graph', paths), σ') →
  (∀ s t, (s, t) ∈ combinations2 seeds → ∃ p, nx.simple_path G s t p) ∧
  graph' = length gs ∧ σ' = State (gs ++ [reduced G paths]) qs ∧
  (∀ pr, paths !! pr = if decide (pr ∈ combinations2 seeds)
                       then Some (kept max_len (yielded G pr))
                       else None) ∧
  ∀ v, v ∈ nx.nodes (reduced G paths) ↔
    ∃ pr ps p, paths !! pr = Some ps ∧ p ∈ ps ∧ v ∈ p.
Proof.
  intros Hg Hwf Hrun.
  assert (Hjoin : ∀ s t, (s, t) ∈ combinations2 seeds →
            ∃ p, nx.simple_path G s t p).
  { pose proof (collect_pairs_graph_outcome G (combinations2 seeds) max_len ∅
                  Hwf) as Hout.
    rewrite (paths_subgraph_run _ _ _ G) in Hrun by done.
    destruct (collect_pairs_graph G (combinations2 seeds) max_len ∅);
      [|done..].
    intros s t Hpr. by apply (Hout (s, t)). }
  split; [done|].
  destruct (paths_subgraph_joined gs qs graph G seeds max_len Hg Hwf Hjoin)
    as (paths0 & Hrun0 & Htbl & Hnodes).
  rewrite Hrun0 in Hrun. by simplify_eq.
Qed.

End paths_more.

(** X10: the outcomes of [paths_subgraph] on a graph with symmetric
    adjacency.  It returns only if every pair of seeds is joined by a
    path; when it raises, it raises [NodeNotFound] for a pair with a seed
    that is not a node of the graph, or [NetworkXNoPath] for a pair of
    nodes that no path joins, and nothing else. *)
Theorem paths_subgraph_outcomes σ graph (G : gmap string (gset string))
    (seeds : list string) max_len :
  graphs σ !! graph = Some G → nx.wf G →
  match (paths_subgraph graph seeds max_len σ).1 with
  | Return _ =>
      ∀ s t, (s, t) ∈ combinations2 seeds → ∃ p, nx.simple_path G s t p
  | Raise e =>
      ∃ s t, (s, t) ∈ combinations2 seeds ∧
        ((e = NodeNotFound ∧ (s ∉ nx.nodes G ∨ t ∉ nx.nodes G)) ∨
         (e = NetworkXNoPath ∧ s ∈ nx.nodes G ∧ t ∈ nx.nodes G ∧
          ¬ ∃ p, nx.simple_path G s t p))
  | OutOfFuel => False
  end.
Proof.
  destruct σ as [gs qs]. simpl. intros Hg Hwf.
  rewrite (paths_subgraph_run _ _ _ G) by done.
  pose proof (collect_pairs_graph_outcome G (combinations2 seeds) max_len ∅
                Hwf) as Hout.
  destruct (collect_pairs_graph G (combinations2 seeds) max_len ∅); simpl.
  - intros s t Hpr. by apply (Hout (s, t)).
  - destruct Hout as ([s t] & ? & ?). by exists s, t.
  - done.
Qed.

Lemma paths_subgraph_outcomes_witness :
  match (paths_subgraph 0 ["a"; "z"]%string None (State [chain_graph] [])).1
  with
  | Return _ =>
      ∀ s t, (s, t) ∈ combinations2 ["a"; "z"]%string →
             ∃ p, nx.simple_path chain_graph s t p
  | Raise e =>
      ∃ s t, (s, t) ∈ combinations2 ["a"; "z"]%string ∧
        ((e = NodeNotFound ∧
          (s ∉ nx.nodes chain_graph ∨ t ∉ nx.nodes chain_graph)) ∨
         (e = NetworkXNoPath ∧ s ∈ nx.nodes chain_graph ∧
          t ∈ nx.nodes chain_graph ∧
          ¬ ∃ p, nx.simple_path chain_graph s t p))
  | OutOfFuel => False
  end.
Proof.
  apply (paths_subgraph_outcomes (State [chain_graph] []) 0 chain_graph
           ["a"; "z"]%string None).
  - reflexivity.
  - apply chain_graph_wf.
Defined.

(** X11: the graph [paths_subgraph] returns is an induced subgraph of the
    graph it is given: it has the edges of that graph between the nodes
    it keeps, and no other. *)
Theorem paths_subgraph_returns_induced_subgraph σ graph
    (G : gmap string (gset string)) (seeds : list string) max_len
    graph' paths σ' :
  graphs σ !! graph = Some G → nx.wf G →
  paths_subgraph graph seeds max_len σ = (Return (graph', paths), σ') →
  ∃ G', graphs σ' !! graph' = Some G' ∧ induced_subgraph G' G.
Proof.
  destruct σ as [gs qs]. simpl. intros Hg Hwf Hrun.
  destruct (paths_subgraph_returns _ _ _ _ _ _ _ _ _ Hg Hwf Hrun)
    as (_ & -> & -> & _).
  exists (reduced G paths). split; [by apply list_lookup_middle|].
  by apply reduced_induced.
Qed.

Lemma paths_subgraph_returns_induced_subgraph_witness :
  ∃ G',
    graphs (State [diamond;
                   nx.add_edges_from
                     [("a", "x"); ("x", "b"); ("a", "y"); ("y", "b")]%string
                     nx.empty] []) !! 1 = Some G' ∧
    induced_subgraph G' diamond.
Proof.
  apply (paths_subgraph_returns_induced_subgraph (State [diamond] []) 0
           diamond ["a"; "b"]%string None 1
           {[ ("a", "b")%string :=
                [["a"; "x"; "b"]; ["a"; "y"; "b"]]%string ]}).
  - reflexivity.
  - apply diamond_wf.
  - by vm_compute.
Defined.

(** X12: the path table [paths_subgraph] returns has one entry for each
    pair of [combinations(seeds, 2)] and no other; the entry of [(s, t)]
    lists simple paths of the graph from [s] to [t], none twice, the
    shorter before the longer. *)
Theorem path_table_shape σ graph (G : gmap string (gset string))
    (seeds : list string) max_len graph' paths σ' :
  graphs σ !! graph = Some G → nx.wf G →
  paths_subgraph graph seeds max_len σ = (Return (graph', paths), σ') →
  (∀ pr, is_Some (paths !! pr) ↔ pr ∈ combinations2 seeds) ∧
  ∀ s t ps, paths !! (s, t) = Some ps →
    NoDup ps ∧ StronglySorted nx.shorter ps ∧
    ∀ p, p ∈ ps → nx.simple_path G s t p.
Proof.
  destruct σ as [gs qs]. simpl. intros Hg Hwf Hrun.
  destruct (paths_subgraph_returns _ _ _ _ _ _ _ _ _ Hg Hwf Hrun)
    as (Hjoin & _ & _ & Htbl & _).
  split.
  - intros pr. rewrite Htbl. case_decide; [by split; eauto|].
    split; [by intros [? ?]|done].
  - intros s t ps. rewrite Htbl. case_decide as Hpr; [|done].
    intros [= <-]. destruct (Hjoin s t Hpr) as [p0 Hp0].
    destruct (yielded_spec G s t p0 Hwf Hp0) as (Hnd & Hsorted & Hspec).
    split; [by apply kept_NoDup|]. split; [by apply kept_sorted|].
    intros p Hp%elem_of_kept. by apply Hspec.
Qed.

Lemma path_table_shape_witness :
  (∀ pr, is_Some (({[ ("a", "b")%string :=
                        [["a"; "x"; "b"]; ["a"; "y"; "b"]]%string ]}
                   : gmap (string * string) (list (list string))) !! pr) ↔
         pr ∈ combinations2 ["a"; "b"]%string) ∧
  ∀ s t ps,
    ({[ ("a", "b")%string := [["a"; "x"; "b"]; ["a"; "y"; "b"]]%string ]}
     : gmap (string * string) (list (list string))) !! (s, t) = Some ps →
    NoDup ps ∧ StronglySorted nx.shorter ps ∧
    ∀ p, p ∈ ps → nx.simple_path diamond s t p.
Proof.
  apply (path_table_shape (State [diamond] []) 0 diamond ["a"; "b"]%string
           None 1 _
           (State [diamond;
                   nx.add_edges_from
                     [("a", "x"); ("x", "b"); ("a", "y"); ("y", "b")]%string
                     nx.empty] [])).
  - reflexivity.
  - apply diamond_wf.
  - by vm_compute.
Defined.

(** X13: without [max_len], every pair of seeds gets at least one path,
    and so both seeds of every pair are nodes of the graph
    [paths_subgraph] returns. *)
Theorem shortest_paths_hold_the_seeds σ graph
    (G : gmap string (gset string)) (seeds : list string)
    graph' paths σ' :
  graphs σ !! graph = Some G → nx.wf G →
  paths_subgraph graph seeds None σ = (Return (graph', paths), σ') →
  ∃ G', graphs σ' !! graph' = Some G' ∧
    ∀ s t, (s, t) ∈ combinations2 seeds →
      (∃ ps p, paths !! (s, t) = Some ps ∧ p ∈ ps) ∧
      s ∈ nx.nodes G' ∧ t ∈ nx.nodes G'.
Proof.
  destruct σ as [gs qs]. simpl. intros Hg Hwf Hrun.
  destruct (paths_subgraph_returns _ _ _ _ _ _ _ _ _ Hg Hwf Hrun)
    as (Hjoin & -> & -> & Htbl & Hnodes).
  exists (reduced G paths). split; [by apply list_lookup_middle|].
  intros s t Hpr. destruct (Hjoin s t Hpr) as [p0 Hp0].
  destruct (shortest_path_exists G s t p0 Hwf Hp0) as [p Hp].
  pose proof Hp as [(Hh & Hl & _) _].
  assert (Hlk : paths !! (s, t) = Some (kept None (yielded G (s, t)))).
  { by rewrite Htbl, decide_True. }
  assert (Hin : p ∈ kept None (yielded G (s, t))).
  { by apply (elem_of_kept_shortest G s t p0). }
  split; [eauto|].
  split; apply Hnodes; exists (s, t), (kept None (yielded G (s, t))), p;
    (split; [done|]); (split; [done|]).
  - destruct p; simplify_eq/=. by left.
  - by apply last_Some_elem_of.
Qed.

Lemma shortest_paths_hold_the_seeds_witness :
  ∃ G',
    graphs (State [chain_graph; chain_graph] []) !! 1 = Some G' ∧
    ∀ s t, (s, t) ∈ combinations2 ["a"; "b"]%string →
      (∃ ps p,
         ({[ ("a", "b")%string := [["a"; "x"; "b"]%string] ]}
          : gmap (string * string) (list (list string))) !! (s, t) = Some ps ∧
         p ∈ ps) ∧
      s ∈ nx.nodes G' ∧ t ∈ nx.nodes G'.
Proof.
  apply (shortest_paths_hold_the_seeds (State [chain_graph] []) 0
           chain_graph ["a"; "b"]%string 1).
  - reflexivity.
  - apply chain_graph_wf.
  - by vm_compute.
Defined.

(** * The breadth-first search of [plot] *)

Section bfs_facts.
Implicit Types (G : gmap string (gset string)) (seen : gset string).
Implicit Types (d : gmap string nat) (next parents : list string).
Implicit Types (found : list (string * string)).

Lemma for_fold_app {A X} (body : A → X → plot_error + A) acc (xs ys : list X) :
  for_fold body acc (xs ++ ys)
    = and_then (for_fold body acc xs) (λ acc, for_fold body acc ys).
Proof.
  revert acc. induction xs as [|x xs IH]; intros acc; simpl; [done|].
  destruct (body acc x) as [e|acc']; simpl; [done|]. apply IH.
Qed.

(** The neighbours of one parent: the new ones are appended, each once. *)
Lemma bfs_children_spec parent children seen next found :
  ∃ new,
    foldl (bfs_child parent) (seen, next, found) children =
      (seen ∪ list_to_set new, (next ++ new),
       (found ++ ((λ child, (child, parent)) <$> new))) ∧
    NoDup new ∧
    (∀ v, v ∈ new → (v ∉ seen) ∧ v ∈ children) ∧
    (∀ c, c ∈ children → c ∈ seen ∨ c ∈ new).
Proof.
  revert seen next found.
  induction children as [|c children IH]; intros seen next found; simpl.
  { exists []. simpl. rewrite !app_nil_r, union_empty_r_L.
    split; [done|]. split; [constructor|].
    split; [by intros v ?%elem_of_nil|by intros c ?%elem_of_nil]. }
  case_decide as Hc.
  - destruct (IH seen next found) as (new & -> & Hnd & Hnew & Hcov).
    exists new. split; [done|]. split; [done|]. split.
    + intros v Hv. destruct (Hnew v Hv). split; [done|by right].
    + intros c' [->|Hc']%elem_of_cons; [by left|by apply Hcov].
  - destruct (IH (seen ∪ {[c]}) (next ++ [c]) (found ++ [(c, parent)]))
      as (new & -> & Hnd & Hnew & Hcov).
    exists (c :: new). split.
    { replace (seen ∪ {[c]} ∪ list_to_set new)
        with (seen ∪ list_to_set (c :: new)) by set_solver.
      simpl. by rewrite <- !app_assoc. }
    split.
    { constructor; [|done]. intros Hin. apply Hnew in Hin as [Hin _].
      set_solver. }
    split.
    + intros v [->|Hv]%elem_of_cons; [split; [done|by left]|].
      destruct (Hnew v Hv) as [Hv1 Hv2]. split; [set_solver|by right].
    + intros c' [->|Hc']%elem_of_cons; [right; by left|].
      destruct (Hcov c' Hc') as [Hs|Hn]; [|right; by right].
      apply elem_of_union in Hs as [?|Hs%elem_of_singleton];
        [by left|subst; right; by left].
Qed.

(** One level: the pairs found are the nodes not seen before that have a
    neighbour among the parents, each once, with such a neighbour. *)
Lemma bfs_level_acc_spec G parents seen next found :
  ∃ fnew,
    foldl (λ acc parent,
             foldl (bfs_child parent) acc (elements (nx.adj G parent)))
          (seen, next, found) parents =
      (seen ∪ list_to_set (fnew.*1), (next ++ fnew.*1), (found ++ fnew)) ∧
    NoDup fnew.*1 ∧
    (∀ c p, (c, p) ∈ fnew → (c ∉ seen) ∧ p ∈ parents ∧ c ∈ nx.adj G p) ∧
    (∀ p c, p ∈ parents → c ∈ nx.adj G p → c ∈ seen ∨ c ∈ fnew.*1).
Proof.
  revert seen next found.
  induction parents as [|p parents IH]; intros seen next found; simpl.
  { exists []. simpl. rewrite !app_nil_r, union_empty_r_L.
    split; [done|]. split; [constructor|].
    split; [by intros c p ?%elem_of_nil|by intros p c ?%elem_of_nil]. }
  destruct (bfs_children_spec p (elements (nx.adj G p)) seen next found)
    as (new & -> & Hnd & Hnew & Hcov).
  destruct (IH (seen ∪ list_to_set new) (next ++ new)
              (found ++ ((λ child, (child, p)) <$> new)))
    as (fnew & -> & Hnd' & Hfnew & Hcov').
  exists (((λ child, (child, p)) <$> new) ++ fnew).
  assert (Hfst : ((λ child, (child, p)) <$> new).*1 = new).
  { rewrite <- list_fmap_compose. apply list_fmap_id. }
  rewrite fmap_app, Hfst. split.
  { replace (seen ∪ list_to_set new ∪ list_to_set (fnew.*1))
      with (seen ∪ list_to_set (new ++ fnew.*1)) by set_solver.
    by rewrite <- !app_assoc. }
  split.
  { apply NoDup_app. split; [done|]. split; [|done].
    intros v Hv Hv'. apply list_elem_of_fmap in Hv' as ([c q] & -> & Hcq).
    apply Hfnew in Hcq as (Hc & _). set_solver. }
  split.
  - intros c q [Hcq|Hcq]%elem_of_app.
    + apply list_elem_of_fmap in Hcq as (c' & [= -> ->] & Hc').
      destruct (Hnew c' Hc') as [? ?%elem_of_elements].
      split; [done|]. split; [by left|done].
    + apply Hfnew in Hcq as (Hc & Hq & Hadj).
      split; [set_solver|]. split; [by right|done].
  - intros q c [->|Hq]%elem_of_cons Hadj.
    + destruct (Hcov c) as [?|?]; [by apply elem_of_elements|by left|].
      right. apply elem_of_app. by left.
    + destruct (Hcov' q c Hq Hadj) as [Hs|Hn].
      * apply elem_of_union in Hs as [?|Hs]; [by left|].
        right. apply elem_of_app. left. by apply elem_of_list_to_set in Hs.
      * right. apply elem_of_app. by right.
Qed.

Lemma bfs_level_spec G parents seen :
  ∃ fnew,
    bfs_level G seen parents = (seen ∪ list_to_set (fnew.*1), fnew.*1, fnew) ∧
    NoDup fnew.*1 ∧
    (∀ c p, (c, p) ∈ fnew → (c ∉ seen) ∧ p ∈ parents ∧ c ∈ nx.adj G p) ∧
    (∀ p c, p ∈ parents → c ∈ nx.adj G p → c ∈ seen ∨ c ∈ fnew.*1).
Proof. apply (bfs_level_acc_spec G parents seen [] []). Qed.

(** Line 219 over the pairs of one level: every node found is one step
    farther than the parents. *)
Lemma one_more_level fnew parents (k : nat) d :
  (∀ p, p ∈ parents → d !! p = Some k) →
  (∀ c p, (c, p) ∈ fnew → p ∈ parents ∧ c ∉ parents) →
  ∃ d',
    for_fold one_more d fnew = inr d' ∧
    ∀ v, d' !! v = if decide (v ∈ fnew.*1) then Some (k + 1) else d !! v.
Proof.
  revert d. induction fnew as [|[c p] fnew IH]; intros d Hd Hf; simpl.
  { exists d. split; [done|]. by intros v. }
  destruct (Hf c p) as [Hp Hc]; [by left|].
  rewrite (Hd p Hp). simpl.
  destruct (IH (<[c := k + 1]> d)) as (d' & -> & Hd').
  - intros q Hq. rewrite lookup_insert_ne; [by apply Hd|].
    intros ->. done.
  - intros c' q Hcq. apply Hf. by right.
  - exists d'. split; [done|]. intros v. rewrite Hd'.
    destruct (decide (v = c)) as [->|Hne].
    + rewrite lookup_insert_eq. simpl.
      repeat case_decide; try done; set_solver.
    + rewrite lookup_insert_ne by done. simpl.
      repeat case_decide; try done; set_solver.
Qed.

End bfs_facts.

Section hops_facts.
Implicit Types (G : gmap string (gset string)) (seen : gset string).
Implicit Types (d : gmap string nat) (s u v : string).

Lemma within_mono G s n m v : within G s n v → n ≤ m → within G s m v.
Proof.
  intros Hn Hle. induction Hle as [|m _ IH]; [done|]. by left.
Qed.

Lemma within_step G s n u v :
  within G s n u → v ∈ nx.adj G u → within G s (S n) v.
Proof. intros. right. eauto. Qed.

Lemma hops_source G s v : hops G s v 0 ↔ v = s.
Proof.
  split; [by intros [? _]|]. intros ->. split; [done|]. intros; lia.
Qed.

Lemma hops_fun G s v n m : hops G s v n → hops G s v m → n = m.
Proof.
  intros [Hn Hn'] [Hm Hm']. apply Hn' in Hm. apply Hm' in Hn. lia.
Qed.

(** A node that is [n + 1] steps away has a neighbour [n] steps away. *)
Lemma hops_pred G s v n :
  hops G s v (S n) → ∃ u, hops G s u n ∧ v ∈ nx.adj G u.
Proof.
  intros [[Hv|(u & Hu & Hadj)] Hmin].
  { apply Hmin in Hv. lia. }
  exists u. split; [|done]. split; [done|]. intros m Hm.
  assert (within G s (S m) v) as ?%Hmin by by eapply within_step.
  lia.
Qed.

Lemma hops_none_beyond G s k :
  (∀ v, ¬ hops G s v k) → ∀ n v, k ≤ n → ¬ hops G s v n.
Proof.
  intros Hk n v Hle. revert v. induction Hle as [|n Hle IH]; [done|].
  intros v (u & Hu & _)%hops_pred. by eapply IH.
Qed.

(** The search level by level: line 219 never misses its key, and the
    dictionary it fills holds the number of steps from the source. *)
Lemma bfs_levels_spec G s fuel k seen parents d :
  dom d = seen →
  (∀ v, v ∈ seen ↔ within G s k v) →
  (∀ v n, d !! v = Some n ↔ hops G s v n ∧ n ≤ k) →
  (∀ v, v ∈ parents ↔ hops G s v k) →
  ∃ d',
    for_fold one_more d (bfs_levels fuel G seen parents) = inr d' ∧
    ∀ v n, d' !! v = Some n ↔ hops G s v n ∧ n ≤ k + fuel.
Proof.
  revert k seen parents d.
  induction fuel as [|fuel IH]; intros k seen parents d Hdom Hseen Hd Hpar.
  { exists d. split; [done|]. intros v n. by rewrite Nat.add_0_r. }
  simpl. destruct parents as [|p0 ps] eqn:Hps.
  { exists d. split; [done|]. intros v n. rewrite Hd. split.
    - intros [? ?]. split; [done|lia].
    - intros [Hh Hle]. split; [done|].
      destruct (decide (n ≤ k)) as [|Hgt]; [done|]. exfalso.
      apply (hops_none_beyond G s k) with (n := n) (v := v); [|lia|done].
      intros v' Hv'%Hpar. by apply elem_of_nil in Hv'. }
  rewrite <- Hps in *. clear p0 ps Hps.
  destruct (bfs_level_spec G parents seen) as (fnew & -> & Hnd & Hfnew & Hcov).
  rewrite for_fold_app.
  assert (Hparseen : ∀ p, p ∈ parents → p ∈ seen).
  { intros p [Hp _]%Hpar. by apply Hseen. }
  destruct (one_more_level fnew parents k d) as (d1 & -> & Hd1).
  { intros p Hp. apply Hd. split; [by apply Hpar|done]. }
  { intros c p Hcp. destruct (Hfnew c p Hcp) as (Hc & Hp & _).
    split; [done|]. intros ?%Hparseen. done. }
  simpl.
  assert (Hnew : ∀ v, v ∈ fnew.*1 ↔ (v ∉ seen) ∧ within G s (S k) v).
  { intros v. split.
    - intros ([c p] & -> & Hcp)%list_elem_of_fmap. simpl.
      destruct (Hfnew c p Hcp) as (Hc & Hp & Hadj). split; [done|].
      apply within_step with p; [|done]. by apply Hseen, Hparseen.
    - intros [Hv [Hw|(u & Hu & Hadj)]]; [by apply Hseen in Hw|].
      assert (is_Some (d !! u)) as [n Hn].
      { apply elem_of_dom. rewrite Hdom. by apply Hseen. }
      pose proof Hn as [Hh Hle]%Hd.
      destruct (decide (n = k)) as [->|Hne].
      + destruct (Hcov u v) as [?|?]; [by apply Hpar|done|done|done].
      + exfalso. apply Hv, Hseen.
        apply within_mono with (S n); [|lia].
        apply within_step with u; [|done]. by destruct Hh. }
  destruct (IH (S k) (seen ∪ list_to_set (fnew.*1)) (fnew.*1) d1)
    as (d' & Hrun & Hd').
  - apply set_eq. intros v. rewrite elem_of_dom, Hd1, elem_of_union.
    rewrite elem_of_list_to_set, <- Hdom, elem_of_dom.
    case_decide; [split; [by right|by eexists]|].
    split; [by left|]. by intros [?|?].
  - intros v. rewrite elem_of_union, elem_of_list_to_set, Hnew. split.
    + intros [Hv%Hseen|[_ ?]]; [by left|done].
    + intros Hw. destruct (decide (v ∈ seen)); [by left|by right].
  - intros v n. rewrite Hd1. case_decide as Hv.
    + apply Hnew in Hv as [Hv Hw]. split.
      * intros [= <-]. rewrite Nat.add_1_r. split; [|done].
        split; [done|]. intros m Hm.
        destruct (decide (S k ≤ m)) as [|Hlt]; [done|]. exfalso.
        apply Hv, Hseen. apply within_mono with m; [done|lia].
      * intros [[Hw' Hmin] Hle]. f_equal.
        apply Hmin in Hw. rewrite Nat.add_1_r.
        destruct (decide (n = S k)) as [|Hne]; [done|]. exfalso.
        apply Hv, Hseen. apply within_mono with n; [done|lia].
    + rewrite Hd. split.
      * intros [? ?]. split; [done|lia].
      * intros [Hh Hle]. split; [done|].
        destruct (decide (n ≤ k)) as [|Hgt]; [done|]. exfalso.
        assert (n = S k) as -> by lia. apply Hv, Hnew.
        destruct Hh as [Hw Hmin]. split; [|done].
        intros Hin%Hseen. apply Hmin in Hin. lia.
  - intros v. rewrite Hnew. split.
    + intros [Hv Hw]. split; [done|]. intros m Hm.
      destruct (decide (S k ≤ m)) as [|Hlt]; [done|]. exfalso.
      apply Hv, Hseen. apply within_mono with m; [done|lia].
    + intros [Hw Hmin]. split; [|done].
      intros Hin%Hseen. apply Hmin in Hin. lia.
  - exists d'. split; [done|]. intros v n. rewrite Hd'.
    by replace (S k + fuel) with (k + S fuel) by lia.
Qed.

End hops_facts.

Section walk_facts.
Implicit Types (G : gmap string (gset string)) (p q : list string).
Implicit Types (d : gmap string nat) (s u v : string).

Lemma chain_snoc G p u v :
  last p = Some u → nx.chain G p → v ∈ nx.adj G u → nx.chain G (p ++ [v]).
Proof.
  intros Hl Hch Hv. induction p as [|x p IH]; [done|].
  destruct p as [|y p]; simplify_eq/=; [done|].
  destruct Hch as [Hy Hch]. split; [done|]. by apply IH.
Qed.

Lemma chain_prefix G p q : nx.chain G (p ++ q) → nx.chain G p.
Proof.
  induction p as [|x p IH]; [done|].
  destruct p as [|y p]; [done|]. simpl. intros [Hy Hch]. split; [done|].
  by apply IH.
Qed.

(** [within] in terms of walks *)
Lemma within_walk G s n v :
  within G s n v ↔
    ∃ p, head p = Some s ∧ last p = Some v ∧ nx.chain G p ∧ length p ≤ S n.
Proof.
  split.
  - revert v. induction n as [|n IH]; intros v; simpl.
    { intros ->. by exists [s]. }
    intros [Hv|(u & Hu & Hadj)].
    + destruct (IH v Hv) as (p & ? & ? & ? & ?). exists p. auto with lia.
    + destruct (IH u Hu) as (p & Hh & Hl & Hch & Hlen). exists (p ++ [v]).
      split; [by destruct p|]. split; [by rewrite last_snoc|].
      split; [by eapply chain_snoc|]. rewrite length_app. simpl. lia.
  - intros (p & Hh & Hl & Hch & Hlen). revert n v Hl Hlen.
    induction p as [|x p IH] using rev_ind; intros n v Hl Hlen; [done|].
    rewrite last_snoc in Hl. simplify_eq.
    destruct p as [|y p] using rev_ind.
    { simpl in Hh. simplify_eq. apply within_mono with 0; [done|lia]. }
    clear IHp. rewrite !length_app in Hlen. simpl in Hlen.
    destruct n as [|n]; [lia|]. apply within_step with y.
    + apply IH.
      * by destruct p.
      * by apply chain_prefix in Hch.
      * by rewrite last_snoc.
      * rewrite length_app. simpl. lia.
    + rewrite <- app_assoc in Hch. by apply chain_suffix in Hch as [? _].
Qed.

Lemma walk_nodes G s p :
  nx.wf G → s ∈ nx.nodes G → head p = Some s → nx.chain G p →
  ∀ x, x ∈ p → x ∈ nx.nodes G.
Proof.
  intros Hwf. revert s. induction p as [|y p IH]; intros s Hs Hh Hch x Hx;
    [by apply elem_of_nil in Hx|].
  simpl in Hh. simplify_eq.
  apply elem_of_cons in Hx as [->|Hx]; [done|].
  destruct p as [|z p]; [by apply elem_of_nil in Hx|].
  destruct Hch as [Hz Hch]. apply (IH z); [|done..].
  eapply adj_elem_node. by apply wf_sym.
Qed.

(** A walk holds a simple path between its ends that is not longer. *)
Lemma walk_simple G s v p :
  head p = Some s → last p = Some v → nx.chain G p →
  (∀ x, x ∈ p → x ∈ nx.nodes G) →
  ∃ q, nx.simple_path G s v q ∧ length q ≤ length p.
Proof.
  revert s. induction p as [|x p IH]; intros s Hh Hl Hch Hin; [done|].
  simpl in Hh. simplify_eq.
  destruct p as [|y p].
  { simpl in Hl. simplify_eq. exists [v]. split; [|done].
    repeat split; auto using NoDup_singleton. }
  destruct Hch as [Hy Hch].
  destruct (IH y) as (q & Hq & Hlen); [done|done|done| |].
  { intros z Hz. apply Hin. by right. }
  destruct (decide (s ∈ q)) as [Hsq|Hsq].
  - apply list_elem_of_split in Hsq as (q1 & q2 & ->).
    exists (s :: q2). split; [by eapply simple_path_suffix|].
    rewrite length_app in Hlen. simpl in *. lia.
  - exists (s :: q). split; [|simpl in *; lia].
    destruct Hq as (Hh' & Hl' & Hnd & Hin' & Hch').
    destruct q as [|y' q]; simplify_eq/=. repeat split.
    + done.
    + by constructor.
    + intros z [->|Hz]%elem_of_cons; [apply Hin; by left|by apply Hin'].
    + done.
    + done.
Qed.

(** The number of steps is the length of a shortest simple path. *)
Lemma hops_shortest_path G s v n :
  nx.wf G → s ∈ nx.nodes G →
  hops G s v n ↔ ∃ p, shortest_path G s v p ∧ length p = S n.
Proof.
  intros Hwf Hs.
  assert (Hsimple : ∀ m, within G s m v →
            ∃ q, nx.simple_path G s v q ∧ length q ≤ S m).
  { intros m (p & Hh & Hl & Hch & Hlen)%within_walk.
    destruct (walk_simple G s v p) as (q & Hq & Hlen'); [done..| |].
    - by eapply walk_nodes.
    - exists q. split; [done|lia]. }
  assert (Hwithin : ∀ q, nx.simple_path G s v q → within G s (length q - 1) v).
  { intros q (Hh & Hl & _ & _ & Hch). apply within_walk. exists q.
    repeat split; [done..|lia]. }
  assert (Hpos : ∀ q, nx.simple_path G s v q → 0 < length q).
  { intros q (Hh & _). destruct q; [done|simpl; lia]. }
  split.
  - intros [Hw Hmin]. destruct (Hsimple n Hw) as (q & Hq & Hlen).
    pose proof (Hmin _ (Hwithin q Hq)). pose proof (Hpos q Hq).
    exists q. split; [|lia]. split; [done|]. intros q' Hq'.
    pose proof (Hmin _ (Hwithin q' Hq')). pose proof (Hpos q' Hq'). lia.
  - intros (p & [Hp Hmin] & Hlen). split.
    + apply Hwithin in Hp. by replace (length p - 1) with n in Hp by lia.
    + intros m (q & Hq & Hlen')%Hsimple. apply Hmin in Hq. lia.
Qed.

Lemma hops_bound G s v n :
  nx.wf G → s ∈ nx.nodes G → hops G s v n → n < size G.
Proof.
  intros Hwf Hs Hh. apply hops_shortest_path in Hh; [|done..].
  destruct Hh as (p & [(_ & _ & Hnd & Hin & _) _] & Hlen).
  pose proof (NoDup_length_le_size p (nx.nodes G) Hnd Hin) as Hle.
  unfold nx.nodes in Hle. rewrite size_dom in Hle. lia.
Qed.

(** Lines 213-219 for one seed of the graph: no exception, and the
    dictionary maps each node that the seed reaches to the number of steps
    to it, and no other node. *)
Lemma distances_spec G s :
  nx.wf G → s ∈ nx.nodes G →
  ∃ d, distances G s = inr d ∧ ∀ v n, d !! v = Some n ↔ hops G s v n.
Proof.
  intros Hwf Hs. unfold distances, bfs_predecessors.
  rewrite decide_True by done. simpl.
  destruct (bfs_levels_spec G s (size G) 0 {[s]} [s] {[s := 0]})
    as (d & Hrun & Hd).
  - apply dom_singleton_L.
  - intros v. simpl. set_solver.
  - intros v n. rewrite lookup_singleton_Some. split.
    + intros [<- <-]. split; [by apply hops_source|done].
    + intros [Hh Hle]. assert (n = 0) as -> by lia.
      by apply hops_source in Hh.
  - intros v. rewrite hops_source. set_solver.
  - exists d. split; [done|]. intros v n. rewrite Hd. split; [by intros [? _]|].
    intros Hh. split; [done|]. apply hops_bound in Hh; [lia|done..].
Qed.

End walk_facts.

(** * The dictionaries [dist] and [color] of [plot] *)

Section color_facts.
Implicit Types (G : gmap string (gset string)) (S : gset string).
Implicit Types (d dist : gmap string nat) (s u v : string).
Implicit Types (dists : list (gmap string nat)).

Lemma foldl_min_spec (x : nat) xs :
  foldl Nat.min x xs ∈ x :: xs ∧ ∀ y, y ∈ x :: xs → foldl Nat.min x xs ≤ y.
Proof.
  revert x. induction xs as [|a xs IH]; intros x; simpl.
  { split; [by left|]. by intros y ->%list_elem_of_singleton. }
  destruct (IH (x `min` a)) as [Hin Hle]. split.
  - apply elem_of_cons in Hin as [->|Hin]; [|by do 2 right].
    destruct (Nat.min_dec x a) as [->| ->]; [by left|right; by left].
  - intros y Hy. assert (foldl Nat.min (x `min` a) xs ≤ x `min` a) as Hm
      by (apply Hle; by left).
    apply elem_of_cons in Hy as [->|[->|Hy]%elem_of_cons]; [lia..|].
    apply Hle. by right.
Qed.

Lemma foldl_max_spec (x : nat) xs :
  foldl Nat.max x xs ∈ x :: xs ∧ ∀ y, y ∈ x :: xs → y ≤ foldl Nat.max x xs.
Proof.
  revert x. induction xs as [|a xs IH]; intros x; simpl.
  { split; [by left|]. by intros y ->%list_elem_of_singleton. }
  destruct (IH (x `max` a)) as [Hin Hle]. split.
  - apply elem_of_cons in Hin as [->|Hin]; [|by do 2 right].
    destruct (Nat.max_dec x a) as [->| ->]; [by left|right; by left].
  - intros y Hy. assert (x `max` a ≤ foldl Nat.max (x `max` a) xs) as Hm
      by (apply Hle; by left).
    apply elem_of_cons in Hy as [->|[->|Hy]%elem_of_cons]; [lia..|].
    apply Hle. by right.
Qed.

Lemma py_min_spec (xs : list nat) :
  xs ≠ [] → ∃ m, py_min xs = inr m ∧ m ∈ xs ∧ ∀ y, y ∈ xs → m ≤ y.
Proof.
  destruct xs as [|x xs]; [done|]. intros _. eexists. split; [done|].
  apply foldl_min_spec.
Qed.

Lemma py_max_spec (xs : list nat) :
  xs ≠ [] → ∃ m, py_max xs = inr m ∧ m ∈ xs ∧ ∀ y, y ∈ xs → y ≤ m.
Proof.
  destruct xs as [|x xs]; [done|]. intros _. eexists. split; [done|].
  apply foldl_max_spec.
Qed.

(** Lines 213-219: one dictionary for each seed, none raises. *)
Lemma all_distances G (seeds : list string) dists :
  nx.wf G → (∀ s, s ∈ seeds → s ∈ nx.nodes G) →
  ∃ ds,
    for_fold (λ dists artist_id,
                and_then (distances G artist_id) (λ d, inr (dists ++ [d])))
             dists seeds = inr (dists ++ ds) ∧
    Forall2 (λ s d, ∀ v n, d !! v = Some n ↔ hops G s v n) seeds ds.
Proof.
  intros Hwf. revert dists.
  induction seeds as [|s seeds IH]; intros dists Hin; simpl.
  { exists []. by rewrite app_nil_r. }
  destruct (distances_spec G s Hwf) as (d & -> & Hd); [apply Hin; by left|].
  simpl. destruct (IH (dists ++ [d])) as (ds & -> & Hds).
  { intros s' Hs'. apply Hin. by right. }
  exists (d :: ds). split; [by rewrite <- app_assoc|]. by constructor.
Qed.

(** Lines 221-223 *)
Lemma nearest_fold dists dist (xs : list string) :
  dists ≠ [] →
  ∃ dist',
    for_fold (nearest dists) dist xs = inr dist' ∧
    ∀ v, if decide (v ∈ xs)
         then ∃ m, dist' !! v = Some m ∧
                m ∈ ((λ d, default 1 (d !! v)) <$> dists) ∧
                ∀ y, y ∈ ((λ d, default 1 (d !! v)) <$> dists) → m ≤ y
         else dist' !! v = dist !! v.
Proof.
  intros Hne. revert dist.
  induction xs as [|x xs IH]; intros dist; cbn [for_fold].
  { exists dist. split; [done|]. intros v. by rewrite decide_False by set_solver. }
  unfold nearest at 1.
  destruct (py_min_spec ((λ d, default 1 (d !! x)) <$> dists))
    as (m & -> & Hm & Hmin).
  { by destruct dists. }
  simpl. destruct (IH (<[x := m]> dist)) as (dist' & -> & Hdist').
  exists dist'. split; [done|]. intros v. specialize (Hdist' v).
  destruct (decide (v ∈ xs)) as [Hv|Hv].
  - by rewrite decide_True by by right.
  - destruct (decide (v = x)) as [->|Hvx].
    + rewrite decide_True by by left.
      exists m. by rewrite Hdist', lookup_insert_eq.
    + rewrite decide_False by set_solver.
      by rewrite Hdist', lookup_insert_ne.
Qed.

(** Lines 225-227 *)
Lemma far_fold dist (xs : list string) v :
  foldl far dist xs !! v =
    match dist !! v with
    | Some n => Some n
    | None => if decide (v ∈ xs) then Some 1 else None
    end.
Proof.
  revert dist. induction xs as [|x xs IH]; intros dist; simpl.
  { by destruct (dist !! v). }
  rewrite IH. unfold far. destruct (dist !! x) as [n|] eqn:Hx.
  - destruct (dist !! v) as [n'|] eqn:Hv; [done|].
    assert (v ≠ x) by congruence.
    repeat case_decide; try done; set_solver.
  - destruct (decide (v = x)) as [->|Hne].
    + rewrite lookup_insert_eq, Hx. by rewrite decide_True by by left.
    + rewrite lookup_insert_ne by done.
      destruct (dist !! v); [done|].
      repeat case_decide; try done; set_solver.
Qed.

(** Lines 206-227 when the condition of line 208 is false: the seeds are
    at 0 and the other nodes at 1. *)
Lemma distance_table_apart G S :
  ∃ dist,
    distance_table G S false = inr dist ∧
    ∀ v, dist !! v = if decide (v ∈ S) then Some 0
                     else if decide (v ∈ nx.nodes G) then Some 1 else None.
Proof.
  eexists. split; [done|]. intros v. simpl.
  rewrite far_fold, lookup_gset_to_gmap.
  destruct (decide (v ∈ S)) as [Hv|Hv].
  - by rewrite option_guard_True.
  - rewrite option_guard_False by done. simpl.
    repeat case_decide; try done; set_solver.
Qed.

(** Lines 206-227 when the condition of line 208 is true: every node of
    the graph is at the least of the numbers that the seeds give it, a
    seed that reaches it the number of steps, another seed 1. *)
Lemma distance_table_joined G S :
  nx.wf G → S ⊆ nx.nodes G → S ≠ ∅ →
  ∃ dist,
    distance_table G S true = inr dist ∧
    dom dist = nx.nodes G ∧
    ∀ v m, dist !! v = Some m →
      (∃ s, s ∈ S ∧ (hops G s v m ∨ (m = 1 ∧ ∀ n, ¬ hops G s v n))) ∧
      (∀ s k, s ∈ S → hops G s v k → m ≤ k) ∧
      ((∃ s, s ∈ S ∧ ∀ n, ¬ hops G s v n) → m ≤ 1).
Proof.
  intros Hwf Hsub Hne. unfold distance_table.
  destruct (all_distances G (elements S) [] Hwf) as (ds & -> & Hds).
  { intros s Hs%elem_of_elements. by apply Hsub. }
  simpl.
  assert (Hdsne : ds ≠ []).
  { intros ->. apply Forall2_nil_inv_r in Hds.
    by apply elements_empty_inv, leibniz_equiv in Hds. }
  destruct (nearest_fold ds (gset_to_gmap 0 S) (elements (nx.nodes G)) Hdsne)
    as (dist & -> & Hdist).
  simpl. eexists. split; [done|].
  assert (Hlk : ∀ v, foldl far dist (elements (nx.nodes G)) !! v = dist !! v).
  { intros v. rewrite far_fold. destruct (dist !! v) as [n|] eqn:Hv; [done|].
    case_decide as Hin; [|done]. specialize (Hdist v).
    rewrite decide_True in Hdist by done.
    destruct Hdist as (m & Hm & _). congruence. }
  assert (Hnode : ∀ v, is_Some (dist !! v) ↔ v ∈ nx.nodes G).
  { intros v. specialize (Hdist v). case_decide as Hin.
    - destruct Hdist as (m & -> & _). split; [|by eexists].
      intros _. by apply elem_of_elements.
    - rewrite Hdist. split.
      + intros [n Hn]. apply lookup_gset_to_gmap_Some in Hn as [Hv _].
        by apply Hsub.
      + intros Hv%elem_of_elements. done. }
  split.
  { apply set_eq. intros v. by rewrite elem_of_dom, Hlk, Hnode. }
  intros v m. rewrite Hlk. intros Hm.
  assert (Hv : v ∈ elements (nx.nodes G)).
  { apply elem_of_elements, Hnode. by eexists. }
  specialize (Hdist v). rewrite decide_True in Hdist by done.
  destruct Hdist as (m' & Hm' & Hin & Hmin). simplify_eq.
  assert (Hof : ∀ s d, s ∈ S → (∀ v n, d !! v = Some n ↔ hops G s v n) →
            ∀ k, default 1 (d !! v) = k →
              hops G s v k ∨ (k = 1 ∧ ∀ n, ¬ hops G s v n)).
  { intros s d Hs Hd k Hk. destruct (d !! v) as [n|] eqn:Hn; simpl in Hk.
    - left. subst. by apply Hd.
    - right. split; [done|]. intros n Hh%Hd. congruence. }
  split; [|split].
  - apply list_elem_of_fmap in Hin as (d & Hk & Hd).
    apply list_elem_of_lookup in Hd as [i Hi].
    destruct (Forall2_lookup_r _ _ _ _ _ Hds Hi) as (s & Hs & Hspec).
    exists s. split; [eapply elem_of_elements, list_elem_of_lookup_2, Hs|].
    apply (Hof s d); [eapply elem_of_elements, list_elem_of_lookup_2, Hs|done..].
  - intros s k Hs Hk.
    apply elem_of_elements, list_elem_of_lookup in Hs as [i Hi].
    destruct (Forall2_lookup_l _ _ _ _ _ Hds Hi) as (d & Hd & Hspec).
    apply Hmin, list_elem_of_fmap. exists d.
    split; [|by eapply list_elem_of_lookup_2].
    apply Hspec in Hk. by rewrite Hk.
  - intros (s & Hs & Hno).
    apply elem_of_elements, list_elem_of_lookup in Hs as [i Hi].
    destruct (Forall2_lookup_l _ _ _ _ _ Hds Hi) as (d & Hd & Hspec).
    apply Hmin, list_elem_of_fmap. exists d.
    split; [|by eapply list_elem_of_lookup_2].
    destruct (d !! v) as [n|] eqn:Hn; [|done].
    apply Hspec in Hn. by apply Hno in Hn.
Qed.

End color_facts.

Section plot_facts.
Implicit Types (G : gmap string (gset string)) (S : gset string).
Implicit Types (dist : gmap string nat) (s u v : string).
Implicit Types (color : gmap string QArith_base.Q).

(** Line 231 *)
Lemma shade_fold dist (max_dist : nat) (xs : list string) color :
  max_dist ≠ 0 → (∀ k, k ∈ xs → is_Some (dist !! k)) →
  ∃ color',
    for_fold (shade dist max_dist) color xs = inr color' ∧
    ∀ k, color' !! k =
      if decide (k ∈ xs)
      then (λ d, QArith_base.Qmake (Z.of_nat d) (Pos.of_nat max_dist))
             <$> dist !! k
      else color !! k.
Proof.
  intros Hmax. revert color.
  induction xs as [|x xs IH]; intros color Hin; cbn [for_fold].
  { exists color. split; [done|]. intros k.
    by rewrite decide_False by set_solver. }
  destruct (Hin x) as [dx Hdx]; [by left|].
  unfold shade at 1. rewrite Hdx. unfold true_div.
  rewrite decide_False by done. simpl.
  destruct (IH (<[x := QArith_base.Qmake (Z.of_nat dx) (Pos.of_nat max_dist)]>
                  color)) as (color' & -> & Hcolor').
  { intros k Hk. apply Hin. by right. }
  exists color'. split; [done|]. intros k. rewrite Hcolor'.
  destruct (decide (k ∈ xs)) as [Hk|Hk].
  - by rewrite decide_True by by right.
  - destruct (decide (k = x)) as [->|Hne].
    + rewrite decide_True by by left. by rewrite lookup_insert_eq, Hdx.
    + rewrite decide_False by set_solver. by rewrite lookup_insert_ne.
Qed.

(** Lines 229-231: [max] raises on a graph without nodes; on another
    graph every node gets its quotient, and the divisor is not 0. *)
Lemma colors_spec G S connected dist :
  distance_table G S connected = inr dist → dom dist = nx.nodes G →
  if decide (nx.nodes G = ∅)
  then colors G S connected
         = inl (ValueError "max() arg is an empty sequence")
  else ∃ m color,
    colors G S connected = inr color ∧
    (∃ k, dist !! k = Some m) ∧
    (∀ k d, dist !! k = Some d → d ≤ m) ∧
    ∀ k, color !! k =
      (λ d, QArith_base.Qmake (Z.of_nat d) (Pos.of_nat (m `max` 1)))
        <$> dist !! k.
Proof.
  intros Hdist Hdom. unfold colors. rewrite Hdist. simpl.
  case_decide as Hnodes.
  - rewrite Hnodes in Hdom. apply dom_empty_inv_L in Hdom. subst.
    by rewrite map_to_list_empty.
  - destruct (py_max_spec ((map_to_list dist).*2)) as (m & -> & Hm & Hmax).
    { intros Hnil. apply fmap_nil_inv, map_to_list_empty_iff in Hnil.
      subst. by rewrite dom_empty_L in Hdom. }
    simpl.
    destruct (shade_fold dist (m `max` 1) (elements (nx.nodes G)) ∅)
      as (color & -> & Hcolor); [lia| |].
    { intros k Hk%elem_of_elements. apply elem_of_dom. by rewrite Hdom. }
    exists m, color. split; [done|]. split; [|split].
    + apply list_elem_of_fmap in Hm as ([k d] & -> & Hkd).
      exists k. by apply elem_of_map_to_list.
    + intros k d Hkd. apply Hmax, list_elem_of_fmap. exists (k, d).
      split; [done|]. by apply elem_of_map_to_list.
    + intros k. rewrite Hcolor. case_decide as Hk; [done|].
      rewrite lookup_empty.
      assert (dist !! k = None) as ->; [|done].
      apply not_elem_of_dom. rewrite Hdom. by rewrite elem_of_elements in Hk.
Qed.

Lemma has_path_at σ graph G s t :
  graphs σ !! graph = Some G →
  has_path graph s t σ = (nx.has_path G s t, σ).
Proof.
  intros Hg. destruct σ as [gs qs]. unfold has_path.
  by rewrite bind_run, (deref_run _ _ _ G).
Qed.

Lemma seeds_connected_at σ graph G S :
  graphs σ !! graph = Some G →
  seeds_connected graph S σ
    = (all_has_path G (combinations2 (elements S)), σ).
Proof.
  intros Hg. unfold seeds_connected.
  induction (combinations2 (elements S)) as [|pr pairs IH]; simpl; [done|].
  rewrite bind_run, (has_path_at _ _ G) by done.
  by destruct (nx.has_path G pr.1 pr.2) as [[]| |].
Qed.

(** The guard of line 203 *)
Lemma difference_empty (S N : gset string) : S ∖ N = ∅ ↔ S ⊆ N.
Proof.
  split; [|set_solver]. intros Hempty x Hx.
  destruct (decide (x ∈ N)) as [|Hn]; [done|]. exfalso.
  assert (x ∈ S ∖ N) as Hin by set_solver. rewrite Hempty in Hin. set_solver.
Qed.

(** Lines 203-231 on a graph of the store *)
Lemma plot_colors_run σ graph G S :
  graphs σ !! graph = Some G →
  plot_colors graph S σ =
    (if decide (S ⊆ nx.nodes G)
     then if decide (S = ∅) then Return (colors G S false)
          else match all_has_path G (combinations2 (elements S)) with
               | Return connected => Return (colors G S connected)
               | Raise e => Raise e
               | OutOfFuel => OutOfFuel
               end
     else Return (inl (ValueError "Not all seeds are in graph.")), σ).
Proof.
  intros Hg. destruct σ as [gs qs]. unfold plot_colors, nodes.
  rewrite !bind_run, (deref_run _ _ _ G) by done. simpl.
  rewrite (decide_ext _ _ _ _ (difference_empty S (nx.nodes G))).
  case_decide; [|done]. rewrite bind_run. case_decide.
  - simpl. by rewrite bind_run, (deref_run _ _ _ G).
  - rewrite (seeds_connected_at _ _ G) by done.
    destruct (all_has_path G (combinations2 (elements S))); [|done..].
    by rewrite bind_run, (deref_run _ _ _ G).
Qed.

(** With the seeds in the graph, the condition of line 208 raises
    nothing; it holds if there is a seed and a path between any two. *)
Lemma plot_colors_cases σ graph G S :
  graphs σ !! graph = Some G → nx.wf G → S ⊆ nx.nodes G →
  ∃ connected,
    plot_colors graph S σ = (Return (colors G S connected), σ) ∧
    (connected = true ↔
       S ≠ ∅ ∧ ∀ s t, s ∈ S → t ∈ S → nx.has_path G s t = Return true).
Proof.
  intros Hg Hwf Hsub. rewrite (plot_colors_run _ _ G) by done.
  rewrite decide_True by done. case_decide as HS.
  { exists false. split; [done|]. split; [done|]. by intros [? _]. }
  destruct (all_has_path_outcome G (combinations2 (elements S)))
    as [connected Hc].
  { intros [s t] [Hs Ht]%elem_of_combinations2. simpl.
    split; apply Hsub; by apply elem_of_elements. }
  rewrite Hc. exists connected. split; [done|]. split.
  - intros ->. split; [done|]. intros s t Hs Ht.
    by apply (seeds_all_connected G S).
  - intros [_ Hall]. destruct connected; [done|].
    assert (all_has_path G (combinations2 (elements S)) = Return true)
      as Htrue; [|congruence].
    apply all_has_path_true. intros [s t] [Hs Ht]%elem_of_combinations2.
    apply Hall; by apply elem_of_elements.
Qed.

(** Lines 206-231 raise nothing but the [ValueError] of [max], and where
    they return every node has its quotient. *)
Lemma colors_dist G S connected :
  nx.wf G → S ⊆ nx.nodes G → (connected = true → S ≠ ∅) →
  ∃ dist,
    distance_table G S connected = inr dist ∧
    dom dist = nx.nodes G ∧
    (∀ k d, dist !! k = Some d → d = 0 ↔ k ∈ S) ∧
    if decide (nx.nodes G = ∅)
    then colors G S connected
           = inl (ValueError "max() arg is an empty sequence")
    else ∃ m color,
      colors G S connected = inr color ∧
      (∃ k, dist !! k = Some m) ∧
      (∀ k d, dist !! k = Some d → d ≤ m) ∧
      ∀ k, color !! k =
        (λ d, QArith_base.Qmake (Z.of_nat d) (Pos.of_nat (m `max` 1)))
          <$> dist !! k.
Proof.
  intros Hwf Hsub Hne.
  assert (∃ dist, distance_table G S connected = inr dist ∧
            dom dist = nx.nodes G ∧
            ∀ k d, dist !! k = Some d → d = 0 ↔ k ∈ S)
    as (dist & Hdist & Hdom & Hzero).
  { destruct connected.
    - destruct (distance_table_joined G S) as (dist & Hdist & Hdom & Hspec);
        [by auto..|].
      exists dist. split; [done|]. split; [done|]. intros k d Hkd.
      destruct (Hspec k d Hkd) as ((s & Hs & Hsk) & Hmin & _). split.
      + intros ->. destruct Hsk as [Hh|[? _]]; [|done].
        by apply hops_source in Hh as ->.
      + intros Hk. assert (d ≤ 0) by (apply (Hmin k); [done|];
          by apply hops_source). lia.
    - destruct (distance_table_apart G S) as (dist & Hdist & Hspec).
      exists dist. split; [done|]. split.
      + apply set_eq. intros v. rewrite elem_of_dom, Hspec.
        repeat case_decide; split; try done; try by eexists.
        intros _. by apply Hsub.
      + intros k d. rewrite Hspec. repeat case_decide; split; try done;
          intros; simplify_eq; done. }
  exists dist. split; [done|]. split; [done|]. split; [done|].
  by apply colors_spec.
Qed.

End plot_facts.

Section nearest_seed.
Implicit Types (G : gmap string (gset string)) (S : gset string).
Implicit Types (dist : gmap string nat) (s u v : string).

Lemma hops_of_simple_path G s v q :
  nx.wf G → s ∈ nx.nodes G → nx.simple_path G s v q →
  ∃ n, hops G s v n ∧ n < length q.
Proof.
  intros Hwf Hs Hq.
  destruct (shortest_path_exists G s v q Hwf Hq) as [p Hp].
  pose proof Hp as [(Hh & _) Hmin]. apply Hmin in Hq.
  destruct p as [|x p]; [done|]. exists (length p). split; [|simpl in Hq; lia].
  apply hops_shortest_path; [done..|]. by exists (x :: p).
Qed.

Lemma simple_path_through G s0 s v p :
  nx.wf G → nx.has_path G s0 s = Return true → nx.simple_path G s v p →
  ∃ q, nx.simple_path G s0 v q.
Proof.
  intros Hwf Hp (Hh & Hl & _ & Hin & Hch).
  destruct (has_path_nodes _ _ _ _ Hp) as [Hs0 Hs].
  apply has_path_connected in Hp; [|done..].
  apply rtc_simple_path.
  - apply Hin. by eapply last_Some_elem_of.
  - etrans; [done|]. by eapply chain_rtc.
Qed.

End nearest_seed.

(** X15: the exceptions of the first part of [plot] (lines 203-231) on an
    undirected graph are two [ValueError]s: that of line 204 when a seed
    is not a node of the graph, and that of [max] on line 229 when the
    graph has no node and there is no seed.  Otherwise every node gets a
    colour, and nothing else does: line 208 raises no [NodeNotFound], the
    lookups of lines 219 and 231 raise no [KeyError], and line 231 does
    not divide by 0. *)
Theorem plot_colors_outcomes σ graph (G : gmap string (gset string))
    (S : gset string) :
  graphs σ !! graph = Some G → nx.wf G →
  ∃ r,
    plot_colors graph S σ = (Return r, σ) ∧
    match r with
    | inl error =>
        (error = ValueError "Not all seeds are in graph." ∧
         ¬ S ⊆ nx.nodes G) ∨
        (error = ValueError "max() arg is an empty sequence" ∧
         nx.nodes G = ∅ ∧ S = ∅)
    | inr color => S ⊆ nx.nodes G ∧ nx.nodes G ≠ ∅ ∧ dom color = nx.nodes G
    end.
Proof.
  intros Hg Hwf. destruct (decide (S ⊆ nx.nodes G)) as [Hsub|Hsub].
  - destruct (plot_colors_cases σ graph G S Hg Hwf Hsub)
      as (connected & -> & Hconn).
    eexists. split; [done|].
    destruct (colors_dist G S connected Hwf Hsub)
      as (dist & _ & Hdom & _ & Hcolors); [intros Hc; by apply Hconn in Hc as [? _]|].
    case_decide as Hnodes.
    + rewrite Hcolors. right. split; [done|]. split; [done|]. set_solver.
    + destruct Hcolors as (m & color & -> & _ & _ & Hcolor).
      split; [done|]. split; [done|]. rewrite <- Hdom.
      apply set_eq. intros k. rewrite !elem_of_dom, Hcolor.
      by rewrite fmap_is_Some.
  - rewrite (plot_colors_run _ _ G) by done.
    rewrite decide_False by done. eexists. split; [done|]. by left.
Qed.

Lemma plot_colors_outcomes_witness :
  ∃ r,
    plot_colors 0 {["a"%string]} (State [one_edge] [])
      = (Return r, State [one_edge] []) ∧
    match r with
    | inl error =>
        (error = ValueError "Not all seeds are in graph." ∧
         ¬ {["a"%string]} ⊆ nx.nodes one_edge) ∨
        (error = ValueError "max() arg is an empty sequence" ∧
         nx.nodes one_edge = ∅ ∧ ({["a"%string]} : gset string) = ∅)
    | inr color =>
        {["a"%string]} ⊆ nx.nodes one_edge ∧ nx.nodes one_edge ≠ ∅ ∧
        dom color = nx.nodes one_edge
    end.
Proof.
  apply (plot_colors_outcomes (State [one_edge] []) 0 one_edge
           {["a"%string]}).
  - reflexivity.
  - by apply wf_check.
Defined.

(** X16: the colours that [plot] computes lie between 0 and 1: every node
    gets [d / max_dist] with [d <= max_dist] and [1 <= max_dist]; [d] is 0,
    the colour [near_color], for the seeds and for no other node; and if
    some node is not a seed, some node gets [max_dist / max_dist], the
    colour [far_color]. *)
Theorem colors_from_near_to_far σ graph (G : gmap string (gset string))
    (S : gset string) color σ' :
  graphs σ !! graph = Some G → nx.wf G →
  plot_colors graph S σ = (Return (inr color), σ') →
  ∃ max_dist,
    1 ≤ max_dist ∧
    (∀ k, k ∈ nx.nodes G →
       ∃ d, color !! k
              = Some (QArith_base.Qmake (Z.of_nat d) (Pos.of_nat max_dist)) ∧
            d ≤ max_dist ∧ (d = 0 ↔ k ∈ S)) ∧
    ((∃ k, k ∈ nx.nodes G ∧ k ∉ S) →
     ∃ k, color !! k
            = Some (QArith_base.Qmake (Z.of_nat max_dist)
                      (Pos.of_nat max_dist))).
Proof.
  intros Hg Hwf Hrun.
  destruct (decide (S ⊆ nx.nodes G)) as [Hsub|Hsub].
  2:{ rewrite (plot_colors_run _ _ G) in Hrun by done.
      by rewrite decide_False in Hrun by done. }
  destruct (plot_colors_cases σ graph G S Hg Hwf Hsub)
    as (connected & Hrun' & Hconn).
  rewrite Hrun' in Hrun.
  destruct (colors_dist G S connected Hwf Hsub)
    as (dist & _ & Hdom & Hzero & Hcolors); [intros Hc; by apply Hconn in Hc as [? _]|].
  case_decide as Hnodes; [congruence|].
  destruct Hcolors as (m & color' & Hc & (k0 & Hk0) & Hmax & Hcolor).
  assert (color' = color) as -> by congruence.
  exists (m `max` 1). split; [lia|]. split.
  - intros k Hk. rewrite <- Hdom in Hk. apply elem_of_dom in Hk as [d Hd].
    exists d. rewrite Hcolor, Hd. split; [done|]. split.
    + apply Hmax in Hd. lia.
    + by apply Hzero.
  - intros (k & Hk & HkS). rewrite <- Hdom in Hk.
    apply elem_of_dom in Hk as [d Hd].
    assert (d ≠ 0) as Hd0 by (intros ->; by apply HkS, (Hzero k 0)).
    pose proof (Hmax k d Hd).
    exists k0. rewrite Hcolor, Hk0. simpl.
    by replace (m `max` 1) with m by lia.
Qed.

Lemma colors_from_near_to_far_witness :
  ∃ max_dist,
    1 ≤ max_dist ∧
    (∀ k, k ∈ nx.nodes chain_graph →
       ∃ d, ({[ "a" := QArith_base.Qmake 0 2; "x" := QArith_base.Qmake 1 2;
                "b" := QArith_base.Qmake 2 2 ]} : gmap string QArith_base.Q)
              !! k
              = Some (QArith_base.Qmake (Z.of_nat d) (Pos.of_nat max_dist)) ∧
            d ≤ max_dist ∧ (d = 0 ↔ k ∈ ({["a"]} : gset string))) ∧
    ((∃ k, k ∈ nx.nodes chain_graph ∧ k ∉ ({["a"]} : gset string)) →
     ∃ k, ({[ "a" := QArith_base.Qmake 0 2; "x" := QArith_base.Qmake 1 2;
              "b" := QArith_base.Qmake 2 2 ]} : gmap string QArith_base.Q)
            !! k
            = Some (QArith_base.Qmake (Z.of_nat max_dist)
                      (Pos.of_nat max_dist))).
Proof.
  apply (colors_from_near_to_far (State [chain_graph] []) 0 chain_graph
           {["a"%string]} _ (State [chain_graph] [])).
  - reflexivity.
  - apply chain_graph_wf.
  - by vm_compute.
Defined.

(** X17: when there is a seed and [nx.has_path] holds between any two
    seeds, [plot] colours a node by its distance to the nearest seed: a
    node that a seed reaches gets [n / max_dist], with [n] the number of
    edges of a shortest simple path from a seed that is nearest, and a
    node that no seed reaches gets [1 / max_dist]. *)
Theorem colors_by_nearest_seed σ graph (G : gmap string (gset string))
    (S : gset string) color σ' :
  graphs σ !! graph = Some G → nx.wf G → S ≠ ∅ →
  (∀ s t, s ∈ S → t ∈ S → nx.has_path G s t = Return true) →
  plot_colors graph S σ = (Return (inr color), σ') →
  ∃ max_dist,
    1 ≤ max_dist ∧
    (∀ v s p, s ∈ S → shortest_path G s v p →
       (∀ s' q, s' ∈ S → nx.simple_path G s' v q → length p ≤ length q) →
       color !! v
         = Some (QArith_base.Qmake (Z.of_nat (length p - 1))
                   (Pos.of_nat max_dist))) ∧
    (∀ v, v ∈ nx.nodes G → (∀ s q, s ∈ S → ¬ nx.simple_path G s v q) →
       color !! v = Some (QArith_base.Qmake 1 (Pos.of_nat max_dist))).
Proof.
  intros Hg Hwf Hne Hall Hrun.
  assert (Hsub : S ⊆ nx.nodes G).
  { intros s Hs. by destruct (has_path_nodes _ _ _ _ (Hall s s Hs Hs)). }
  destruct (plot_colors_cases σ graph G S Hg Hwf Hsub)
    as (connected & Hrun' & Hconn).
  rewrite Hrun' in Hrun.
  assert (connected = true) as -> by by apply Hconn.
  destruct (colors_dist G S true Hwf Hsub)
    as (dist & Hdist & Hdom & _ & Hcolors); [done|].
  destruct (distance_table_joined G S Hwf Hsub Hne)
    as (dist' & Hdist' & _ & Hspec).
  assert (dist' = dist) as -> by congruence.
  case_decide as Hnodes; [congruence|].
  destruct Hcolors as (m & color' & Hc & _ & _ & Hcolor).
  assert (color' = color) as -> by congruence.
  exists (m `max` 1). split; [lia|]. split.
  - intros v s p Hs [Hp Hmin] Hnear.
    assert (Hv : v ∈ nx.nodes G).
    { destruct Hp as (_ & Hl & _ & Hin & _). apply Hin.
      by eapply last_Some_elem_of. }
    rewrite <- Hdom in Hv. apply elem_of_dom in Hv as [d Hd].
    rewrite Hcolor, Hd. simpl. do 3 f_equal.
    destruct (Hspec v d Hd) as ((s0 & Hs0 & Hcase) & Hleast & _).
    assert (Hn : hops G s v (length p - 1)).
    { apply hops_shortest_path; [done|by apply Hsub|]. exists p.
      split; [done|]. destruct Hp as (Hh & _). destruct p; [done|simpl; lia]. }
    pose proof (Hleast s _ Hs Hn) as Hle.
    destruct Hcase as [Hh|[-> Hno]].
    + apply hops_shortest_path in Hh as (p0 & [Hp0 _] & Hlen);
        [|done|by apply Hsub].
      apply (Hnear s0) in Hp0; [|done]. lia.
    + exfalso.
      destruct (simple_path_through G s0 s v p Hwf (Hall s0 s Hs0 Hs) Hp)
        as [q Hq].
      apply hops_of_simple_path in Hq as (n & Hh & _);
        [|done|by apply Hsub].
      by apply Hno in Hh.
  - intros v Hv Hnone. rewrite <- Hdom in Hv.
    apply elem_of_dom in Hv as [d Hd]. rewrite Hcolor, Hd. simpl.
    destruct (Hspec v d Hd) as ((s0 & Hs0 & Hcase) & _).
    destruct Hcase as [Hh|[-> _]]; [|done]. exfalso.
    apply hops_shortest_path in Hh as (p0 & [Hp0 _] & _);
      [|done|by apply Hsub].
    by apply (Hnone s0 p0).
Qed.

Lemma colors_by_nearest_seed_witness :
  ∃ max_dist,
    1 ≤ max_dist ∧
    (∀ v s p, s ∈ ({["a"; "b"]} : gset string) →
       shortest_path chain_graph s v p →
       (∀ s' q, s' ∈ ({["a"; "b"]} : gset string) →
          nx.simple_path chain_graph s' v q → length p ≤ length q) →
       ({[ "a" := QArith_base.Qmake 0 1; "x" := QArith_base.Qmake 1 1;
           "b" := QArith_base.Qmake 0 1 ]} : gmap string QArith_base.Q) !! v
         = Some (QArith_base.Qmake (Z.of_nat (length p - 1))
                   (Pos.of_nat max_dist))) ∧
    (∀ v, v ∈ nx.nodes chain_graph →
       (∀ s q, s ∈ ({["a"; "b"]} : gset string) →
          ¬ nx.simple_path chain_graph s v q) →
       ({[ "a" := QArith_base.Qmake 0 1; "x" := QArith_base.Qmake 1 1;
           "b" := QArith_base.Qmake 0 1 ]} : gmap string QArith_base.Q) !! v
         = Some (QArith_base.Qmake 1 (Pos.of_nat max_dist))).
Proof.
  apply (colors_by_nearest_seed (State [chain_graph] []) 0 chain_graph
           {["a"; "b"]}%string _ (State [chain_graph] [])).
  - reflexivity.
  - apply chain_graph_wf.
  - set_solver.
  - intros s t Hs Ht.
    assert (s = "a" ∨ s = "b")%string as Hs' by set_solver.
    assert (t = "a" ∨ t = "b")%string as Ht' by set_solver.
    destruct Hs' as [-> | ->], Ht' as [-> | ->]; by vm_compute.
  - by vm_compute.
Defined.

(** X18: when there is no seed, or two seeds that no path joins, [plot]
    measures no distance: the seeds get 0 and every other node gets 1. *)
Theorem colors_without_connection σ graph (G : gmap string (gset string))
    (S : gset string) color σ' :
  graphs σ !! graph = Some G → nx.wf G →
  S = ∅ ∨ (∃ s t, s ∈ S ∧ t ∈ S ∧ nx.has_path G s t = Return false) →
  plot_colors graph S σ = (Return (inr color), σ') →
  ∀ k, k ∈ nx.nodes G →
    color !! k = Some (if decide (k ∈ S) then QArith_base.Qmake 0 1
                       else QArith_base.Qmake 1 1).
Proof.
  intros Hg Hwf Hapart Hrun.
  destruct (decide (S ⊆ nx.nodes G)) as [Hsub|Hsub].
  2:{ rewrite (plot_colors_run _ _ G) in Hrun by done.
      by rewrite decide_False in Hrun by done. }
  destruct (plot_colors_cases σ graph G S Hg Hwf Hsub)
    as (connected & Hrun' & Hconn).
  rewrite Hrun' in Hrun.
  assert (connected = false) as ->.
  { destruct connected; [|done]. destruct Hconn as [[Hne Hall] _]; [done|].
    destruct Hapart as [->|(s & t & Hs & Ht & Hst)]; [done|].
    rewrite (Hall s t Hs Ht) in Hst. done. }
  destruct (colors_dist G S false Hwf Hsub)
    as (dist & Hdist & Hdom & _ & Hcolors); [done|].
  destruct (distance_table_apart G S) as (dist' & Hdist' & Hspec).
  assert (dist' = dist) as -> by congruence.
  case_decide as Hnodes; [congruence|].
  destruct Hcolors as (m & color' & Hc & (k0 & Hk0) & Hmax & Hcolor).
  assert (color' = color) as -> by congruence.
  assert (m `max` 1 = 1) as Hm.
  { rewrite Hspec in Hk0. repeat case_decide; simplify_eq; done. }
  intros k Hk. rewrite Hcolor, Hm, Hspec.
  rewrite (decide_True (P := k ∈ nx.nodes G)) by done.
  by case_decide.
Qed.

Lemma colors_without_connection_witness :
  nx.wf (nx.add_nodes_from ["a"; "b"; "c"]%string nx.empty) ∧
  ∀ k, k ∈ nx.nodes (nx.add_nodes_from ["a"; "b"; "c"]%string nx.empty) →
    ({[ "a" := QArith_base.Qmake 0 1; "b" := QArith_base.Qmake 0 1;
        "c" := QArith_base.Qmake 1 1 ]} : gmap string QArith_base.Q) !! k
      = Some (if decide (k ∈ ({["a"; "b"]} : gset string))
              then QArith_base.Qmake 0 1 else QArith_base.Qmake 1 1).
Proof.
  assert (Hwf : nx.wf (nx.add_nodes_from ["a"; "b"; "c"]%string nx.empty))
    by by apply wf_check.
  split; [done|].
  apply (colors_without_connection
           (State [nx.add_nodes_from ["a"; "b"; "c"]%string nx.empty] []) 0
           (nx.add_nodes_from ["a"; "b"; "c"]%string nx.empty)
           {["a"; "b"]}%string _
           (State [nx.add_nodes_from ["a"; "b"; "c"]%string nx.empty] [])).
  - reflexivity.
  - done.
  - right. exists "a"%string, "b"%string.
    split; [set_solver|]. split; [set_solver|]. by vm_compute.
  - by vm_compute.
Defined.

(** * The pipeline [grow_and_plot] *)

Section pipeline.
Variable related : string → list string.
Variable Figure : Type.
Variable draw :
  gmap string (gset string) → gset string → gmap string QArith_base.Q →
  outcome Figure.
Implicit Types (G : gmap string (gset string)) (qs : list string).
Implicit Types (gs : list (gmap string (gset string))).

(** [grow] looks at its seeds as a set. *)
Lemma grow_seed_set fuel (seeds : list string) graph :
  grow related fuel (elements (seed_set seeds)) graph
    = grow related fuel seeds graph.
Proof. unfold grow, seed_set. by rewrite list_to_set_elements_L. Qed.

Lemma has_path_simple_path G s t :
  nx.wf G → nx.has_path G s t = Return true → ∃ p, nx.simple_path G s t p.
Proof.
  intros Hwf Hp. destruct (has_path_nodes _ _ _ _ Hp) as [Hs Ht].
  apply has_path_connected in Hp; [|done..]. by apply rtc_simple_path.
Qed.

Lemma other_element (S : gset string) x :
  2 ≤ size S → ∃ y, y ∈ S ∧ y ≠ x.
Proof.
  intros Hsize. destruct (decide (S ∖ {[x]} = ∅)) as [Hempty|Hne].
  - assert (S ⊆ {[x]}) as Hsub%subseteq_size.
    { intros y Hy. destruct (decide (y = x)) as [->|]; [set_solver|].
      exfalso. assert (y ∈ S ∖ {[x]}) as Hin by set_solver.
      rewrite Hempty in Hin. set_solver. }
    rewrite size_singleton in Hsub. lia.
  - apply set_choose_L in Hne as [y Hy]. exists y. set_solver.
Qed.

Lemma reduced_no_paths G : reduced G ∅ = nx.empty.
Proof.
  apply (dom_empty_inv_L (D := gset string)).
  fold (nx.nodes (reduced G ∅)). rewrite nodes_reduced.
  unfold path_nodes. rewrite map_to_list_empty. set_solver.
Qed.

(** [plot] draws with the colours of its first part. *)
Lemma plot_run σ graph G (seeds : list string) r :
  graphs σ !! graph = Some G →
  plot_colors graph (seed_set seeds) σ = (Return r, σ) →
  plot Figure draw graph seeds σ =
    (match r with
     | inl error => Return (inl error)
     | inr color =>
         match draw G (seed_set seeds) color with
         | Return fig => Return (inr fig)
         | Raise e => Raise e
         | OutOfFuel => OutOfFuel
         end
     end, σ).
Proof.
  intros Hg Hrun. destruct σ as [gs qs]. unfold plot. cbv zeta.
  fold (seed_set seeds). rewrite bind_run, Hrun.
  destruct r as [error|color]; [done|].
  rewrite bind_run, (deref_run _ _ _ G), bind_run by done.
  unfold lift. by destruct (draw G (seed_set seeds) color).
Qed.

(** X19: [grow_and_plot] on two seeds or more, from a base graph with
    symmetric adjacency: if [grow] returns, then [trim] and [paths_subgraph]
    return as well, no statement of [plot] before the drawing raises, and
    the drawing is made of a graph that holds every seed, with a path
    between any two of them, that is a subgraph of the graph [grow]
    returned with all the edges of that graph between its nodes, and whose
    nodes are the nodes on the shortest simple paths of that graph between
    the pairs of seeds. *)
Theorem grow_and_plot_draws_shortest_paths fuel gs qs (seeds : list string)
    graph G graph1 gs1 qs1 :
  base_graph gs graph G → nx.wf G → 2 ≤ size (seed_set seeds) →
  grow related fuel seeds graph (State gs qs)
    = (Return graph1, State gs1 qs1) →
  ∃ G1 G2 G3 color,
    gs1 !! graph1 = Some G1 ∧
    grow_and_plot related Figure draw fuel seeds graph (State gs qs) =
      (match draw G3 (seed_set seeds) color with
       | Return fig => Return (inr (S (length gs1), fig))
       | Raise e => Raise e
       | OutOfFuel => OutOfFuel
       end,
       State (gs1 ++ [G2; G3]) qs1) ∧
    plot_colors (S (length gs1)) (seed_set seeds)
        (State (gs1 ++ [G2; G3]) qs1)
      = (Return (inr color), State (gs1 ++ [G2; G3]) qs1) ∧
    seed_set seeds ⊆ nx.nodes G3 ∧
    (∀ s t, s ∈ seed_set seeds → t ∈ seed_set seeds →
       nx.has_path G3 s t = Return true) ∧
    induced_subgraph G3 G1 ∧
    ∀ v, v ∈ nx.nodes G3 ↔
      ∃ s t p, (s, t) ∈ combinations2 (elements (seed_set seeds)) ∧
        shortest_path G1 s t p ∧ v ∈ p.
Proof.
  intros Hbase Hwf Hsize Hgrow.
  destruct (grow_returns_spec _ _ _ _ _ _ _ _ _ Hbase Hwf Hgrow)
    as (G1 & Hlk & Hwf1 & Hsub & Hconn & _). simpl in Hlk.
  pose proof (grow_seed_set fuel seeds graph) as Hgs.
  set (K := seed_set seeds) in *.
  set (T := trimmed G1 K).
  assert (HwfT : nx.wf T) by by apply wf_trim_graph.
  assert (Hpair : ∀ s t, (s, t) ∈ combinations2 (elements K) → s ∈ K ∧ t ∈ K).
  { intros s t [? ?]%elem_of_combinations2. by rewrite <- !elem_of_elements. }
  assert (Hsame : ∀ s t p, (s, t) ∈ combinations2 (elements K) →
            nx.simple_path T s t p ↔ nx.simple_path G1 s t p).
  { intros s t p [? ?]%Hpair. by apply trimmed_simple_path. }
  assert (Hjoin1 : ∀ s t, (s, t) ∈ combinations2 (elements K) →
            ∃ p, nx.simple_path G1 s t p).
  { intros s t [? ?]%Hpair. apply has_path_simple_path; auto. }
  assert (Hjoin : ∀ s t, (s, t) ∈ combinations2 (elements K) →
            ∃ p, nx.simple_path T s t p).
  { intros s t Hpr. destruct (Hjoin1 s t Hpr) as [p Hp]. exists p.
    by apply Hsame. }
  destruct (paths_subgraph_joined (gs1 ++ [T]) qs1 (length gs1) T
              (elements K) None) as (paths & Hrun & Htbl & Hnodes);
    [by apply list_lookup_middle|done..|].
  set (G3 := reduced T paths) in *.
  assert (Hwf3 : nx.wf G3) by by apply wf_reduced.
  assert (Hind : induced_subgraph G3 G1).
  { eapply induced_subgraph_trans; [by apply reduced_induced|].
    by apply trimmed_induced. }
  assert (Hshort : ∀ s t p, (s, t) ∈ combinations2 (elements K) →
            shortest_path T s t p ↔ shortest_path G1 s t p).
  { intros s t p Hpr. unfold shortest_path. rewrite Hsame by done.
    split; intros [? Hmin]; (split; [done|]); intros q Hq;
      apply Hmin; by apply Hsame. }
  assert (Hnodes3 : ∀ v, v ∈ nx.nodes G3 ↔
            ∃ s t p, (s, t) ∈ combinations2 (elements K) ∧
              shortest_path G1 s t p ∧ v ∈ p).
  { intros v. rewrite Hnodes. split.
    - intros ([s t] & ps & p & Hps & Hp & Hv). rewrite Htbl in Hps.
      case_decide as Hpr; [|done]. simplify_eq.
      destruct (Hjoin s t Hpr) as [p0 Hp0].
      apply (elem_of_kept_shortest T s t p0) in Hp; [|done..].
      exists s, t, p. split; [done|]. split; [by apply Hshort|done].
    - intros (s & t & p & Hpr & Hp & Hv).
      destruct (Hjoin s t Hpr) as [p0 Hp0].
      exists (s, t), (kept None (yielded T (s, t))), p.
      split; [by rewrite Htbl, decide_True|]. split; [|done].
      apply (elem_of_kept_shortest T s t p0); [done..|]. by apply Hshort. }
  assert (Hseeds3 : K ⊆ nx.nodes G3).
  { intros x Hx. destruct (other_element K x Hsize) as (y & Hy & Hne).
    apply Hnodes3.
    destruct (combinations2_covers (elements K) x y) as [Hpr|Hpr];
      [by apply elem_of_elements..|done| |].
    - destruct (Hjoin1 x y Hpr) as [p0 Hp0].
      destruct (shortest_path_exists G1 x y p0 Hwf1 Hp0) as [p Hp].
      exists x, y, p. split; [done|]. split; [done|].
      destruct Hp as [(Hh & _) _]. destruct p; simplify_eq/=. by left.
    - destruct (Hjoin1 y x Hpr) as [p0 Hp0].
      destruct (shortest_path_exists G1 y x p0 Hwf1 Hp0) as [p Hp].
      exists y, x, p. split; [done|]. split; [done|].
      destruct Hp as [(_ & Hl & _) _]. by apply last_Some_elem_of. }
  assert (Hall3 : ∀ s t, s ∈ K → t ∈ K → nx.has_path G3 s t = Return true).
  { intros s t Hs Ht. apply (seeds_all_connected G3 K); [done..| |done|done].
    apply all_has_path_true. intros [s' t'] Hpr. simpl.
    destruct (Hpair s' t' Hpr) as [Hs' Ht'].
    destruct (Hjoin1 s' t' Hpr) as [p0 Hp0].
    destruct (shortest_path_exists G1 s' t' p0 Hwf1 Hp0) as [p Hp].
    apply has_path_connected; [done|by apply Hseeds3..|].
    pose proof Hp as [(Hh & Hl & _ & _ & Hch) _].
    apply (chain_rtc G3 p); [done..|].
    apply (chain_induced G3 G1); [done| |done].
    intros v Hv. apply Hnodes3. by exists s', t', p. }
  assert (Hlk3 : graphs (State (gs1 ++ [T; G3]) qs1) !! S (length gs1)
            = Some G3).
  { simpl. rewrite lookup_app_r by lia.
    by replace (S (length gs1) - length gs1) with 1 by lia. }
  destruct (plot_colors_cases _ _ G3 K Hlk3 Hwf3 Hseeds3)
    as (connected & Hcolors & Hcase).
  assert (HK : K ≠ ∅).
  { intros HK. rewrite HK, size_empty in Hsize. lia. }
  assert (connected = true) as -> by by apply Hcase.
  destruct (colors_dist G3 K true Hwf3 Hseeds3)
    as (dist & _ & _ & _ & Hcol); [done|].
  rewrite decide_False in Hcol by set_solver.
  destruct Hcol as (m & color & Hcol & _).
  rewrite Hcol in Hcolors.
  exists G1, T, G3, color. split; [done|].
  split; [|split; [done|split; [done|split; [done|split; [done|done]]]]].
  unfold grow_and_plot. cbv zeta. fold (seed_set seeds). fold K.
  rewrite bind_run, Hgs, Hgrow.
  rewrite bind_run, (trim_run gs1 qs1 graph1 G1 K Hlk). fold T.
  rewrite bind_run, Hrun. fold G3.
  rewrite <- app_assoc, length_app. simpl. rewrite Nat.add_1_r.
  assert (seed_set (elements K) = K) as HK'
    by (unfold seed_set; apply list_to_set_elements_L).
  rewrite bind_run, (plot_run _ _ G3 _ (inr color)); [|done|by rewrite HK'].
  rewrite HK'. by destruct (draw G3 K color).
Qed.

(** X20: [grow_and_plot] on one seed never draws: [grow], [trim] and
    [paths_subgraph] return, the last one a graph without nodes, and the
    guard of [plot] raises [ValueError("Not all seeds are in graph.")],
    whatever the related artists and the base graph are. *)
Theorem grow_and_plot_single_seed_raises fuel gs qs (seeds : list string)
    graph G a :
  base_graph gs graph G → seed_set seeds = {[a]} →
  ∃ G1 G2,
    grow_and_plot related Figure draw fuel seeds graph (State gs qs) =
      (Return (inl (ValueError "Not all seeds are in graph.")),
       State (gs ++ [G1; G2; nx.empty]) (qs ++ [a])).
Proof.
  intros Hbase HS.
  unfold grow_and_plot. cbv zeta. fold (seed_set seeds). rewrite HS.
  rewrite elements_singleton.
  rewrite bind_run, (grow_run related fuel gs qs [a] graph G Hbase).
  cbv zeta.
  assert (list_to_set [a] = ({[a]} : gset string)) as -> by set_solver.
  rewrite elements_singleton.
  rewrite grow_loop_graph_connected by (by rewrite elements_singleton).
  simpl. rewrite app_nil_r, elements_singleton.
  set (G1 := interconnect related {[a]} (nx.add_nodes_from [a] G)).
  rewrite bind_run, (trim_run _ _ _ G1) by by apply list_lookup_middle.
  set (G2 := trimmed G1 {[a]}).
  rewrite bind_run, (paths_subgraph_run _ _ _ G2)
    by by apply list_lookup_middle.
  simpl. rewrite reduced_no_paths.
  assert (seed_set [a] = {[a]}) as HS' by (unfold seed_set; set_solver).
  rewrite bind_run.
  rewrite (plot_run _ _ nx.empty _
             (inl (ValueError "Not all seeds are in graph."))).
  - exists G1, G2. by rewrite <- !app_assoc.
  - by apply list_lookup_middle.
  - rewrite (plot_colors_run _ _ nx.empty) by by apply list_lookup_middle.
    rewrite decide_False; [done|]. rewrite HS'.
    unfold nx.nodes, nx.empty. rewrite dom_empty_L. set_solver.
Qed.

End pipeline.

Lemma grow_and_plot_draws_shortest_paths_witness :
  ∃ G1 G2 G3 color,
    [two_nodes; nx.add_edges_from [("a", "x"); ("b", "x")]%string two_nodes]
      !! 1 = Some G1 ∧
    grow_and_plot related_meet unit (λ _ _ _, Return ()) 1 ["a"; "b"]%string
        None (State [] []) =
      (Return (inr (3, ())),
       State ([two_nodes;
               nx.add_edges_from [("a", "x"); ("b", "x")]%string two_nodes]
                ++ [G2; G3]) ["a"; "b"; "x"]%string) ∧
    plot_colors 3 (seed_set ["a"; "b"]%string)
        (State ([two_nodes;
                 nx.add_edges_from [("a", "x"); ("b", "x")]%string two_nodes]
                  ++ [G2; G3]) ["a"; "b"; "x"]%string)
      = (Return (inr color),
         State ([two_nodes;
                 nx.add_edges_from [("a", "x"); ("b", "x")]%string two_nodes]
                  ++ [G2; G3]) ["a"; "b"; "x"]%string) ∧
    seed_set ["a"; "b"]%string ⊆ nx.nodes G3 ∧
    (∀ s t, s ∈ seed_set ["a"; "b"]%string →
       t ∈ seed_set ["a"; "b"]%string → nx.has_path G3 s t = Return true) ∧
    induced_subgraph G3 G1 ∧
    ∀ v, v ∈ nx.nodes G3 ↔
      ∃ s t p, (s, t) ∈ combinations2 (elements (seed_set ["a"; "b"]%string)) ∧
        shortest_path G1 s t p ∧ v ∈ p.
Proof.
  apply (grow_and_plot_draws_shortest_paths related_meet unit
           (λ _ _ _, Return ()) 1 [] [] ["a"; "b"]%string None nx.empty 1).
  - reflexivity.
  - apply wf_empty.
  - assert (size (seed_set ["a"; "b"]%string) = 2) as -> by by vm_compute.
    lia.
  - by vm_compute.
Defined.

Lemma grow_and_plot_single_seed_raises_witness :
  ∃ G1 G2,
    grow_and_plot related_meet unit (λ _ _ _, Return ()) 0 ["a"; "a"]%string
        (Some 0) (State [one_edge] []) =
      (Return (inl (ValueError "Not all seeds are in graph.")),
       State ([one_edge] ++ [G1; G2; nx.empty]) ([] ++ ["a"%string])).
Proof.
  apply (grow_and_plot_single_seed_raises related_meet unit
           (λ _ _ _, Return ()) 0 [one_edge] [] ["a"; "a"]%string (Some 0)
           one_edge "a"%string).
  - reflexivity.
  - unfold seed_set. set_solver.
Defined.

(** * The saved albums of [artist_info.py] *)

Section artist_info_facts.
Variable current_user_saved_albums : nat → nat → list (list string).
Variable get_artist : string → string.

Lemma elem_of_add_items (saved : gset string) items x :
  x ∈ add_items get_artist saved items ↔
    x ∈ saved ∨ ∃ item id, item ∈ items ∧ id ∈ item ∧ x = get_artist id.
Proof.
  unfold add_items. revert saved.
  induction items as [|item items IH]; intros saved; simpl.
  - split; [by left|]. intros [?|(? & ? & []%elem_of_nil & _)]. done.
  - rewrite IH, elem_of_union, elem_of_list_to_set, list_elem_of_fmap.
    split.
    + intros [[?|(id & -> & ?)]|(item' & id & ? & ? & ->)]; [by left|..].
      * right. exists item, id. split; [by left|done].
      * right. exists item', id. split; [by right|done].
    + intros [?|(item' & id & [->|?]%elem_of_cons & ? & ->)].
      * by left; left.
      * left; right. by exists id.
      * right. by exists item', id.
Qed.

Lemma add_items_app (saved : gset string) items items' :
  add_items get_artist saved (items ++ items')
    = add_items get_artist (add_items get_artist saved items) items'.
Proof. unfold add_items. by rewrite foldl_app. Qed.

(** The loop from any offset within the albums: a fuel of one more than the
    number of pages left is enough, and the loop ends at the number of
    albums with the artists of the albums from the offset on added. *)
Lemma saved_loop_serves albums fuel saved offset :
  serves albums current_user_saved_albums →
  offset ≤ length albums → length albums - offset + 50 ≤ 50 * fuel →
  saved_loop current_user_saved_albums get_artist fuel saved offset =
    Return (add_items get_artist saved (drop offset albums), length albums).
Proof.
  intros Hserves. revert saved offset.
  induction fuel as [|fuel IH]; intros saved offset Hle Hfuel; [lia|].
  simpl. rewrite Hserves.
  set (rest := drop offset albums).
  assert (length rest = length albums - offset) as Hrest
    by (unfold rest; by rewrite length_drop).
  case_decide as Hlen.
  - rewrite length_take in Hlen.
    assert (rest = []) as Hnil by (apply length_zero_iff_nil; lia).
    rewrite Hnil. simpl. do 2 f_equal. lia.
  - rewrite length_take in Hlen |- *.
    rewrite IH by lia. do 2 f_equal.
    assert (drop (offset + 50 `min` length rest) albums = drop 50 rest) as ->.
    { rewrite Hrest. unfold rest. rewrite drop_drop.
      destruct (decide (50 ≤ length albums - offset)).
      - by rewrite Nat.min_l.
      - rewrite Nat.min_r by lia. rewrite !drop_ge; [done|lia..]. }
    by rewrite <- add_items_app, take_drop.
Qed.

Lemma saved_loop_never_empty fuel saved offset :
  (∀ offset, current_user_saved_albums 50 offset ≠ []) →
  saved_loop current_user_saved_albums get_artist fuel saved offset = OutOfFuel.
Proof.
  intros Hpage. revert saved offset.
  induction fuel as [|fuel IH]; intros saved offset; simpl; [done|].
  rewrite decide_False; [apply IH|].
  intros ?%length_zero_iff_nil. by eapply Hpage.
Qed.

End artist_info_facts.

(** X21: when the service pages through a list of saved albums, and the
    fuel is above the number of full pages by two, the loop of
    [artist_info.py] ends with [offset] at the number of the albums and
    with [saved] holding what [get_artist] gives for the artist ids of the
    albums, and nothing else. *)
Theorem artist_info_collects (current_user_saved_albums : nat → nat → list (list string))
    (get_artist : string → string) albums fuel :
  serves albums current_user_saved_albums →
  length albums + 50 ≤ 50 * fuel →
  ∃ saved,
    artist_info current_user_saved_albums get_artist fuel
      = Return (saved, length albums) ∧
    ∀ x, x ∈ saved ↔
      ∃ item id, item ∈ albums ∧ id ∈ item ∧ x = get_artist id.
Proof.
  intros Hserves Hfuel. unfold artist_info.
  rewrite (saved_loop_serves _ _ albums) by (done || lia).
  eexists. split; [done|]. intros x.
  rewrite elem_of_add_items, drop_0. set_solver.
Qed.

Lemma artist_info_collects_witness :
  ∃ saved,
    artist_info
        (λ limit offset,
           take limit (drop offset [["a"; "b"]; ["b"; "c"]]%string))
        (λ id, id) 2
      = Return (saved, 2) ∧
    ∀ x, x ∈ saved ↔
      ∃ item id, item ∈ [["a"; "b"]; ["b"; "c"]]%string ∧ id ∈ item ∧ x = id.
Proof.
  apply (artist_info_collects
           (λ limit offset,
              take limit (drop offset [["a"; "b"]; ["b"; "c"]]%string))
           (λ id, id) [["a"; "b"]; ["b"; "c"]]%string 2).
  - intros limit offset. reflexivity.
  - simpl. lia.
Defined.

(** X22: the loop of [artist_info.py] ends only at an empty page: with a
    service that never answers with an empty list of items, no amount of
    fuel lets it return. *)
Theorem artist_info_needs_an_empty_page
    (current_user_saved_albums : nat → nat → list (list string))
    (get_artist : string → string) fuel :
  (∀ offset, current_user_saved_albums 50 offset ≠ []) →
  artist_info current_user_saved_albums get_artist fuel = OutOfFuel.
Proof. intros Hpage. by apply saved_loop_never_empty. Qed.

Lemma artist_info_needs_an_empty_page_witness :
  artist_info (λ _ _, [["a"%string]]) (λ id, id) 3 = OutOfFuel.
Proof.
  apply (artist_info_needs_an_empty_page (λ _ _, [["a"%string]]) (λ id, id) 3).
  intros offset. discriminate.
Defined.
